(** * FinSight RAG backend: retrieval-orchestration pipeline

    A shallow embedding of the Python backend ([app/rag/*.py],
    [app/utils/*.py]) and the properties its specification states about it.

    Conventions of the embedding.
    - A Python [float] (and a numpy [float64]) is an IEEE-754 binary64 value:
      Rocq's primitive [float], with its primitive operations.
    - A Python [int] is a [Z]; a [str] is a [string] (characters are bytes;
      case mapping and character classes are the ASCII ones).
    - A call that can raise returns a [result]; [try]/[except] is a match on it.
    - External services (embedding model, language model, vector store, clock)
      and the reductions of numpy are arguments of the functions that call
      them. *)

From Stdlib Require Import ZArith Ascii Permutation Sorted.
From Stdlib Require Import Floats.PrimFloat Floats.SpecFloat Floats.FloatOps.
From Stdlib Require Import Floats.FloatAxioms.
From stdpp Require Import gmap strings list pretty sorting.

(** ** Exceptions *)

Inductive exn :=
| ValueError      (* numpy: inhomogeneous or mismatched shapes *)
| IndexError      (* index out of range *)
| AttributeError  (* an attribute that the object does not have *)
| ExternalError.  (* a failure of an external service *)

Inductive result (A : Type) :=
| Returns (a : A)
| Raises (e : exn).
Arguments Returns {A} a.
Arguments Raises {A} e.

Global Instance result_ret : MRet result := λ A a, Returns a.
Global Instance result_bind : MBind result := λ A B f m,
  match m with
  | Returns a => f a
  | Raises e => Raises e
  end.

(** [l[i]] for a non-negative index. *)
Definition index {A} (l : list A) (i : nat) : result A :=
  match l !! i with
  | Some a => Returns a
  | None => Raises IndexError
  end.

(** Run [f] over [l] from left to right, stopping at the first exception. *)
Fixpoint for_each {A B} (f : A → result B) (l : list A) : result (list B) :=
  match l with
  | [] => Returns []
  | a :: l' => b ← f a; bs ← for_each f l'; Returns (b :: bs)
  end.

(** [l[i] = a] for a non-negative index. *)
Definition list_assign {A} (l : list A) (i : nat) (a : A) : result (list A) :=
  if decide (i < length l) then Returns (<[i := a]> l) else Raises IndexError.

(** [l[:k]] for a Python integer [k]: a negative [k] counts from the end. *)
Definition slice_to {A} (k : Z) (l : list A) : list A :=
  if (k <? 0)%Z then take (Z.to_nat (Z.of_nat (length l) + k)) l
  else take (Z.to_nat k) l.

(** [l[lo:hi]] for Python integers: a negative bound counts from the end,
    and both bounds are clipped to the list. *)
Definition slice_index (len : nat) (i : Z) : nat :=
  Z.to_nat
    (Z.min (Z.of_nat len)
       (if (i <? 0)%Z then Z.max 0 (Z.of_nat len + i) else i)).

Definition slice {A} (lo hi : Z) (l : list A) : list A :=
  let lo := slice_index (length l) lo in
  let hi := slice_index (length l) hi in
  take (hi - lo) (drop lo l).

(** [range(start, stop, step)]: a step of zero is refused. *)
Definition py_range (start stop step : Z) : result (list Z) :=
  if (step =? 0)%Z then Raises ValueError
  else
    let count :=
      (if 0 <? step then (stop - start + step - 1) / step
       else (start - stop - step - 1) / (- step))%Z in
    Returns ((λ i, start + Z.of_nat i * step)%Z <$> seq 0 (Z.to_nat count)).

(** ** Floating-point numbers *)

(** A NaN or an infinity. *)
Definition nonfinite (x : float) : bool :=
  match Prim2SF x with
  | S754_nan | S754_infinity _ => true
  | _ => false
  end.

(** The place of a number on the extended real line: a key whose
    lexicographic order is the order of the numbers. *)
Definition rank (f : spec_float) : Z * Z * Z :=
  match f with
  | S754_nan => (0, 0, 0)
  | S754_zero _ => (0, 0, 0)
  | S754_infinity true => (-2, 0, 0)
  | S754_infinity false => (2, 0, 0)
  | S754_finite true m e => (-1, - e, Zneg m)
  | S754_finite false m e => (1, e, Zpos m)
  end%Z.

Definition rank_lt (a b : Z * Z * Z) : Prop :=
  (a.1.1 < b.1.1
   ∨ a.1.1 = b.1.1 ∧ (a.1.2 < b.1.2 ∨ a.1.2 = b.1.2 ∧ a.2 < b.2))%Z.

(** ** Documents *)

(** [Document.metadata] is a dict; these are the keys the backend reads or
    writes, [None] when the key is absent. *)
Record Metadata := {
  filename : option string;
  chunk_id : option string;
  doc_type : option string;
  ticker : option string;
  similarity_score : option float;
}.

Record Document := {
  page_content : string;
  metadata : Metadata;
}.

(** ** Requests and responses ([app/models.py]) *)

Module Source.
Record t := {
  source_id : Z;
  filename : string;
  doc_type : string;
  ticker : option string;
  similarity_score : float;
  chunk_id : option string;
  text_preview : string;
}.
End Source.

Module QueryRequest.
Record t := {
  query : string;
  ticker : option string;
  doc_types : option (list string);
  top_k : Z;
  session_id : option string;
}.
End QueryRequest.

(** The [response_dict] of [process_query]: the fields of [QueryResponse],
    and the [from_cache] key a cache hit adds to the cached dict.
    [processing_time] is a difference of clock readings. *)
Module ResponseDict.
Record t := {
  answer : string;
  sources : list Source.t;
  query : string;
  processing_time : Z;
  expanded_queries : option (list string);
  num_documents_retrieved : Z;
  session_id : string;
  from_cache : option bool;
}.
End ResponseDict.

(** [QueryResponse] built from the keys of [response_dict]; the model class
    ignores the extra key. *)
Module QueryResponse.
Record t := {
  answer : string;
  sources : list Source.t;
  query : string;
  processing_time : Z;
  expanded_queries : option (list string);
  num_documents_retrieved : Z;
  session_id : string;
}.

Definition of_dict (d : ResponseDict.t) : t :=
  {| answer := ResponseDict.answer d;
     sources := ResponseDict.sources d;
     query := ResponseDict.query d;
     processing_time := ResponseDict.processing_time d;
     expanded_queries := ResponseDict.expanded_queries d;
     num_documents_retrieved := ResponseDict.num_documents_retrieved d;
     session_id := ResponseDict.session_id d |}.
End QueryResponse.

(** ** Reranker ([app/rag/reranker.py]) *)

Module Reranker.

(** [self.embeddings]: the two calls of the embedding model. *)
Record Embedder := {
  embed_query : string → result (list float);
  embed_documents : list string → result (list (list float));
}.

(** The two reductions of numpy that the reranker calls, as it calls them.
    [np_linalg_norm m] is [np.linalg.norm(m, axis=1, keepdims=True)], the
    norms of the rows of [m]; [np_dot u m] is [np.dot(u, m.T)] flattened, the
    products of the row [u] with the rows of [m], which have its width.  They
    are library code: in which order the library adds, whether it fuses a
    product with a sum, and whether it treats all rows of a matrix alike,
    moves the last bits of a result, and the source does not say.  The
    reranker is defined for any two such functions; all that is used of them
    is the shape of what they return. *)
Class Numpy := {
  np_linalg_norm : list (list float) → list float;
  np_dot : list float → list (list float) → list float;
  np_linalg_norm_shape m : length (np_linalg_norm m) = length m;
  np_dot_shape u m :
    Forall (λ row, length row = length u) m → length (np_dot u m) = length m;
}.

Section numpy.
Local Open Scope float_scope.

(** [np.array(rows)] for a list of lists: a ragged list is refused. *)
Definition np_array (rows : list (list float)) : result (list (list float)) :=
  match rows with
  | [] => Returns []
  | r :: rs =>
      if forallb (λ r', Nat.eqb (length r') (length r)) rs
      then Returns rows else Raises ValueError
  end.

(** The reductions with every sum accumulated from left to right, starting
    from [0.0]: the square root of the sum of squares, and the sum of the
    products of the components. *)
Definition norm (v : list float) : float :=
  sqrt (fold_left (λ acc x, acc + x * x) v 0).

Definition dot (u v : list float) : float :=
  fold_left (λ acc p, acc + fst p * snd p) (zip u v) 0.

Definition left_to_right : Numpy :=
  {| np_linalg_norm m := norm <$> m;
     np_dot u m := dot u <$> m;
     np_linalg_norm_shape m := length_fmap norm m;
     np_dot_shape u m _ := length_fmap (dot u) m |}.

(** With these reductions: a vector divided by its norm, and the cosine of
    two vectors. *)
Definition unit_vector (v : list float) : list float :=
  (λ x, x / norm v) <$> v.

Definition cosine (u v : list float) : float :=
  dot (unit_vector u) (unit_vector v).

Context {numpy : Numpy}.

(** [m / np.linalg.norm(m, axis=1, keepdims=True)]: every row divided by
    its norm, element by element. *)
Definition normalize (m : list (list float)) : list (list float) :=
  zip_with (λ row n, (λ x, x / n) <$> row) m (np_linalg_norm m).

(** [np.max] of a non-empty array: a NaN element is propagated. *)
Definition fmax (a b : float) : float :=
  if is_nan a then a else if is_nan b then b else if a <? b then b else a.

Definition np_max (l : list float) : result float :=
  match l with
  | [] => Raises ValueError
  | x :: l' => Returns (fold_left fmax l' x)
  end.

(** [_cosine_similarity(vec1, vec2)] for a one-dimensional [vec1], as at both
    call sites: [vec1] is reshaped to one row, so the result is the flattened
    row of similarities, one per row of [vec2].  An empty [vec2] is what
    [np.array([])] gives, a one-dimensional array reshaped to one row of
    width 0.  [np.dot] refuses operands whose inner dimensions differ.  The
    normalised [vec1] is one row, by the shape of the norms. *)
Definition _cosine_similarity (vec1 : list float) (vec2 : list (list float))
    : result (list float) :=
  let vec1 := [vec1] in
  let vec2 := match vec2 with [] => [[]] | _ => vec2 end in
  let vec1_norm := normalize vec1 in
  let vec2_norm := normalize vec2 in
  match vec1_norm with
  | [row] =>
      if forallb (λ r, Nat.eqb (length r) (length row)) vec2_norm
      then Returns (np_dot row vec2_norm)
      else Raises ValueError
  | _ => Raises ValueError
  end.
End numpy.

(** [max(items, key=key)]: the first item whose key no later item beats in a
    strict [>] comparison against the running maximum. *)
Definition py_max_by {A} (key : A → float) (x : A) (l : list A) : A :=
  fold_left (λ best y, if ltb (key best) (key y) then y else best) l x.

(** [l.remove(x)]: drops the first occurrence. *)
Fixpoint list_remove (x : nat) (l : list nat) : list nat :=
  match l with
  | [] => []
  | y :: l' => if Nat.eqb y x then l' else y :: list_remove x l'
  end.

Section rerank.
Context {numpy : Numpy}.
Variable self_embeddings : Embedder.
Local Open Scope float_scope.

(** One MMR score, the body of the inner [for idx in remaining_indices]. *)
Definition mmr_score (diversity_score : float)
    (query_similarities : list float) (doc_vecs : list (list float))
    (selected_indices : list nat) (idx : nat) : result (nat * float) :=
  relevance ← index query_similarities idx;
  redundancy ←
    (match selected_indices with
     | _ :: _ =>
         selected_vecs ← for_each (index doc_vecs) selected_indices;
         v ← index doc_vecs idx;
         sims ← _cosine_similarity v selected_vecs;
         np_max sims
     | [] => Returns 0
     end);
  let mmr := diversity_score * relevance - (1 - diversity_score) * redundancy in
  Returns (idx, mmr).

(** The selection loop [for _ in range(...)], one round per unit of
    [rounds]. *)
Fixpoint mmr_select (rounds : nat) (diversity_score : float)
    (query_similarities : list float) (doc_vecs : list (list float))
    (selected_indices remaining_indices : list nat) : result (list nat) :=
  match rounds with
  | O => Returns selected_indices
  | S rounds' =>
      match remaining_indices with
      | [] => Returns selected_indices
      | _ :: _ =>
          mmr_scores ← for_each
            (mmr_score diversity_score query_similarities doc_vecs
               selected_indices) remaining_indices;
          match mmr_scores with
          | [] => Raises ValueError
          | s :: ss =>
              let best_idx := fst (py_max_by snd s ss) in
              mmr_select rounds' diversity_score query_similarities doc_vecs
                (selected_indices ++ [best_idx])
                (list_remove best_idx remaining_indices)
          end
      end
  end.

(** The body of the [try] block. *)
Definition rerank_mmr (query : string) (documents : list Document)
    (top_k : Z) (diversity_score : float) : result (list Document) :=
  query_vec ← embed_query self_embeddings query;
  let doc_texts := page_content <$> documents in
  doc_embeddings ← embed_documents self_embeddings doc_texts;
  doc_vecs ← np_array doc_embeddings;
  query_similarities ← _cosine_similarity query_vec doc_vecs;
  selected_indices ←
    mmr_select (Z.to_nat (Z.min top_k (Z.of_nat (length documents))))
      diversity_score query_similarities doc_vecs
      [] (seq 0 (length documents));
  for_each (index documents) selected_indices.

(** [d.metadata.get('similarity_score', 0)] *)
Definition fallback_key (d : Document) : float :=
  default 0 (similarity_score (metadata d)).

(** [sorted(documents, key=..., reverse=True)]: a stable sort, so a
    document moves in front of another only when its key is strictly
    greater.  The comparisons are those of floats, and no comparison with a
    NaN holds: the insertion below gives the list Python's sort gives when
    no key is NaN, and when the list is in order as it stands (no key below
    the next one), with or without NaN. *)
Fixpoint sorted_insert (d : Document) (l : list Document) : list Document :=
  match l with
  | [] => [d]
  | e :: l' =>
      if fallback_key d <? fallback_key e then e :: sorted_insert d l'
      else d :: e :: l'
  end.

Definition sorted_reverse (l : list Document) : list Document :=
  foldr sorted_insert [] l.

Definition _fallback_rerank (documents : list Document) (top_k : Z)
    : list Document :=
  let sorted_docs := sorted_reverse documents in
  slice_to top_k sorted_docs.

Definition rerank (query : string) (documents : list Document)
    (top_k : Z) (diversity_score : float) : result (list Document) :=
  match documents with
  | [] => Returns []
  | _ :: _ =>
      if (Z.of_nat (length documents) <=? top_k)%Z then Returns documents
      else
        match rerank_mmr query documents top_k diversity_score with
        | Returns r => Returns r
        | Raises _ => Returns (_fallback_rerank documents top_k)
        end
  end.
End rerank.

(** *** The selection loop as a function of the indices

    What [mmr_score] and [mmr_select] compute on vectors of one width, where
    no step can raise: the score of the loop body, the scan of [max], and the
    rounds of the loop. *)
Section loop.
Context {numpy : Numpy}.
Variables (query_vec : list float) (doc_vecs : list (list float)).
Variable lambda : float.
Local Open Scope float_scope.

(** The similarities of [u] with the rows [rows], which have its width. *)
Definition cosines (u : list float) (rows : list (list float)) : list float :=
  np_dot (default [] (head (normalize [u]))) (normalize rows).

Definition doc (i : nat) : list float := default [] (doc_vecs !! i).

Definition relevance (i : nat) : float :=
  default 0 (cosines query_vec doc_vecs !! i).

Definition redundancy (selected : list nat) (i : nat) : float :=
  match selected with
  | [] => 0
  | _ :: _ =>
      match cosines (doc i) (doc <$> selected) with
      | [] => 0
      | c :: cs => fold_left fmax cs c
      end
  end.

Definition mmr (selected : list nat) (i : nat) : float :=
  lambda * relevance i - (1 - lambda) * redundancy selected i.

(** Unselected indices, in iteration order. *)
Definition unselected (selected : list nat) : list nat :=
  filter (λ i, i ∉ selected) (seq 0 (length doc_vecs)).

(** The scan of [max] over [best :: candidates]: a later candidate
    replaces the current one when the comparison [<] says so. *)
Fixpoint argmax_first (score : nat → float) (best : nat)
    (candidates : list nat) : nat :=
  match candidates with
  | [] => best
  | i :: candidates' =>
      argmax_first score (if score best <? score i then i else best)
        candidates'
  end.

Fixpoint greedy_mmr (rounds : nat) (selected : list nat) : list nat :=
  match rounds with
  | O => selected
  | S rounds' =>
      match unselected selected with
      | [] => selected
      | i :: candidates =>
          greedy_mmr rounds'
            (selected ++ [argmax_first (mmr selected) i candidates])
      end
  end.
End loop.

(** *** The MMR score as the specification words it

    A document [i] that is not selected yet scores
    [lambda * cosine(query, doc[i]) - (1 - lambda) * r], where [r] is the
    maximum over the selected [j] of [cosine(doc[i], doc[j])], or 0 when
    nothing is selected yet.  The cosines of a vector with the rows of a
    matrix are its products with them, after the vector and every row were
    divided by their norms. *)
Module MMR.
Section spec.
Context {numpy : Numpy}.
Variables (query_vec : list float) (doc_vecs : list (list float)).
Variable lambda : float.
Local Open Scope float_scope.

(** The rows of [m], each divided by its norm. *)
Definition units (m : list (list float)) : list (list float) :=
  zip_with (λ row n, (λ x, x / n) <$> row) m (np_linalg_norm m).

(** [cosine(u, row)] for each row of [rows], in order. *)
Definition cosines (u : list float) (rows : list (list float)) : list float :=
  np_dot (default [] (head (units [u]))) (units rows).

Definition doc (i : nat) : list float := default [] (doc_vecs !! i).

(** The greatest of [x :: xs]. *)
Definition maximum (x : float) (xs : list float) : float :=
  fold_left (λ a b, if a <? b then b else a) xs x.

(** [cosine(query, doc[i])] *)
Definition relevance (i : nat) : float :=
  default 0 (cosines query_vec doc_vecs !! i).

(** The maximum over the selected [j] of [cosine(doc[i], doc[j])]. *)
Definition redundancy (selected : list nat) (i : nat) : float :=
  match selected with
  | [] => 0
  | _ :: _ =>
      match cosines (doc i) (doc <$> selected) with
      | [] => 0
      | c :: cs => maximum c cs
      end
  end.

Definition score (selected : list nat) (i : nat) : float :=
  lambda * relevance i - (1 - lambda) * redundancy selected i.

(** The scores of a round are numbers: for the candidate [i], no cosine
    with a selected document and not the score itself is NaN. *)
Definition numbers (selected : list nat) (i : nat) : Prop :=
  Forall (λ c, is_nan c = false) (cosines (doc i) (doc <$> selected))
  ∧ is_nan (score selected i) = false.
End spec.
End MMR.

(** *** Keys that a sort can order

    [sorted] compares keys with [<].  On the keys of [ks] that comparison is
    asymmetric and its complement is transitive: what IEEE-754 guarantees for
    keys free of NaN.  The check fails exactly when a NaN key sits among two
    keys of different value, where the outcome of a comparison sort is not
    determined by the keys. *)
Definition comparableb (ks : list float) : bool :=
  forallb (λ a,
    forallb (λ b,
      implb (ltb a b) (negb (ltb b a))
      && forallb (λ c,
           implb (negb (ltb a b) && negb (ltb b c)) (negb (ltb a c))) ks)
      ks) ks.

(** [a] may stand before [b] in a descending order. *)
Definition not_below (a b : Document) : Prop :=
  ltb (fallback_key a) (fallback_key b) = false.

(** *** Sample inputs *)

Definition passage (content : string) (score : option float) : Document :=
  {| page_content := content;
     metadata := {| filename := None; chunk_id := None; doc_type := None;
                    ticker := None; similarity_score := score |} |}.

Definition sample_documents : list Document :=
  [passage "revenue" (Some 0.25%float); passage "risks" None;
   passage "debt" (Some 0.75%float); passage "cash" (Some 0.5%float)].

(** Three documents, one of them with a score that is not a number. *)
Definition nan_documents : list Document :=
  [passage "a" (Some 1%float); passage "b" (Some nan);
   passage "c" (Some 2%float)].

(** An embedding model that places every text in the plane. *)
Definition plane_embedder : Embedder :=
  {| embed_query := λ _, Returns [1; 0]%float;
     embed_documents := λ texts,
       Returns ((λ t, if String.eqb t "revenue" then [3; 4]%float
                      else if String.eqb t "debt" then [1; 0]%float
                      else [0; 2]%float) <$> texts) |}.

(** An embedding model that places the text "risks" at the origin. *)
Definition zero_vector_embedder : Embedder :=
  {| embed_query := λ _, Returns [1; 0]%float;
     embed_documents := λ texts,
       Returns ((λ t, if String.eqb t "revenue" then [1; 0]%float
                      else if String.eqb t "risks" then [0; 0]%float
                      else [0; 1]%float) <$> texts) |}.

(** An embedding model that is down. *)
Definition failing_embedder : Embedder :=
  {| embed_query := λ _, Raises ExternalError;
     embed_documents := λ _, Raises ExternalError |}.

End Reranker.

(** ** Python strings *)

Module Str.

(** Python's [str.lower()] and [str.strip()] on ASCII text. *)
Definition is_space (c : Ascii.ascii) : bool :=
  let n := Ascii.nat_of_ascii c in
  ((9 <=? n) && (n <=? 13)) || ((28 <=? n) && (n <=? 32)).

Definition lower_char (c : Ascii.ascii) : Ascii.ascii :=
  let n := Ascii.nat_of_ascii c in
  if (65 <=? n) && (n <=? 90) then Ascii.ascii_of_nat (n + 32) else c.

Fixpoint lower (s : string) : string :=
  match s with
  | EmptyString => EmptyString
  | String c s' => String (lower_char c) (lower s')
  end.

(** Text of ASCII characters only, on which the two agree with Python's. *)
Fixpoint is_ascii (s : string) : bool :=
  match s with
  | EmptyString => true
  | String c s' => (Ascii.nat_of_ascii c <? 128) && is_ascii s'
  end.

Fixpoint lstrip (s : string) : string :=
  match s with
  | EmptyString => EmptyString
  | String c s' => if is_space c then lstrip s' else s
  end.

(** Drops trailing white space: a character stays when something other than
    white space follows it. *)
Fixpoint rstrip (s : string) : string :=
  match s with
  | EmptyString => EmptyString
  | String c s' =>
      match rstrip s' with
      | EmptyString => if is_space c then EmptyString else String c EmptyString
      | r => String c r
      end
  end.

Definition strip (s : string) : string := rstrip (lstrip s).

(** [sep.join(parts)] *)
Fixpoint join (sep : string) (parts : list string) : string :=
  match parts with
  | [] => EmptyString
  | [p] => p
  | p :: ps => p +:+ sep +:+ join sep ps
  end.

(** [sorted(strs)]: strings in lexicographic order of their characters. *)
Fixpoint insert_string (x : string) (l : list string) : list string :=
  match l with
  | [] => [x]
  | y :: l' => if String.ltb y x then y :: insert_string x l' else x :: y :: l'
  end.

Definition sorted_strings (l : list string) : list string :=
  foldr insert_string [] l.

(** [str(n)] for an integer. *)
Definition str_of_Z (n : Z) : string := pretty n.

(** [s[:n]] for a non-negative [n]. *)
Fixpoint take (n : nat) (s : string) : string :=
  match n, s with
  | S n', String c s' => String c (take n' s')
  | _, _ => EmptyString
  end.

(** [pat in s] *)
Fixpoint contains (pat s : string) : bool :=
  String.prefix pat s
  || match s with
     | EmptyString => false
     | String _ s' => contains pat s'
     end.

(** [s.count(c)] for a single character. *)
Fixpoint count_char (c : Ascii.ascii) (s : string) : nat :=
  match s with
  | EmptyString => 0
  | String c' s' => (if Ascii.eqb c' c then 1 else 0) + count_char c s'
  end.

(** [s.split(c)] for a single character: the pieces between occurrences of
    [c], empty ones included. *)
Fixpoint split_on (c : Ascii.ascii) (s : string) : list string :=
  match s with
  | EmptyString => [EmptyString]
  | String c' s' =>
      if Ascii.eqb c' c then EmptyString :: split_on c s'
      else match split_on c s' with
           | piece :: pieces => String c' piece :: pieces
           | [] => [String c' EmptyString]
           end
  end.

(** [s.split()]: the maximal runs of characters other than white space. *)
Definition split (s : string) : list string :=
  filter (λ w, w ≠ EmptyString)
    ((fix go (s : string) : list string :=
        match s with
        | EmptyString => [EmptyString]
        | String c s' =>
            if is_space c then EmptyString :: go s'
            else match go s' with
                 | piece :: pieces => String c piece :: pieces
                 | [] => [String c EmptyString]
                 end
        end) s).

Definition is_digit (c : Ascii.ascii) : bool :=
  let n := Ascii.nat_of_ascii c in (48 <=? n) && (n <=? 57).

Fixpoint drop_digits (s : string) : string :=
  match s with
  | String c s' => if is_digit c then drop_digits s' else s
  | EmptyString => EmptyString
  end.

(** [re.sub(r'^\d+[\.\)]\s*', '', s)]: a leading run of digits followed by
    a dot or a closing parenthesis goes, with the white space after it. *)
Definition strip_numbering (s : string) : string :=
  match s with
  | String c _ =>
      if is_digit c then
        match drop_digits s with
        | String p rest =>
            if Ascii.eqb p "."%char || Ascii.eqb p ")"%char then lstrip rest
            else s
        | EmptyString => s
        end
      else s
  | EmptyString => s
  end.

Definition newline : Ascii.ascii := Ascii.ascii_of_nat 10.
Definition quote : string := String (Ascii.ascii_of_nat 34) EmptyString.

End Str.

(** ** Caches ([app/utils/cache.py]) *)

(** A Python [dict] with [str] keys keeps its entries in insertion order,
    which is the order [sorted] falls back on for equal sort keys: an
    association list with at most one entry per key. *)
Module Dict.
Section dict.
Context {V : Type}.

(** [d.get(k)] *)
Fixpoint get (k : string) (d : list (string * V)) : option V :=
  match d with
  | [] => None
  | (k', v) :: d' => if String.eqb k' k then Some v else get k d'
  end.

(** [d[k] = v]: an existing key keeps its position, a new one goes last. *)
Fixpoint set (k : string) (v : V) (d : list (string * V))
    : list (string * V) :=
  match d with
  | [] => [(k, v)]
  | (k', v') :: d' =>
      if String.eqb k' k then (k', v) :: d' else (k', v') :: set k v d'
  end.

(** [del d[k]] *)
Fixpoint del (k : string) (d : list (string * V)) : list (string * V) :=
  match d with
  | [] => []
  | (k', v') :: d' =>
      if String.eqb k' k then d' else (k', v') :: del k d'
  end.

Definition keys (d : list (string * V)) : list string := fst <$> d.
End dict.
End Dict.

(** [hashlib.md5(s.encode()).hexdigest()], from the Python library. *)
Class Digest := md5_hexdigest : string → string.

Module Cache.

(** Clock readings ([time.time()]) and durations are counted in whole
    ticks. *)
Record CacheEntry (V : Type) := {
  value : V;
  created_at : Z;
  entry_ttl : Z;
  hit_count : Z;
}.
Arguments value {V}.
Arguments created_at {V}.
Arguments entry_ttl {V}.
Arguments hit_count {V}.

(** [CacheEntry(value, ttl)], built at clock reading [now]. *)
Definition new_entry {V} (v : V) (ttl now : Z) : CacheEntry V :=
  {| value := v; created_at := now; entry_ttl := ttl; hit_count := 0 |}.

Definition is_expired {V} (e : CacheEntry V) (now : Z) : bool :=
  (entry_ttl e <? now - created_at e)%Z.

Definition increment_hits {V} (e : CacheEntry V) : CacheEntry V :=
  {| value := value e; created_at := created_at e; entry_ttl := entry_ttl e;
     hit_count := hit_count e + 1 |}.

(** The fields of [EmbeddingCache], [QueryResponseCache] and
    [DocumentCache]. *)
Record Store (V : Type) := {
  cache : list (string * CacheEntry V);
  max_size : Z;
  ttl : Z;
  hits : Z;
  misses : Z;
}.
Arguments cache {V}.
Arguments max_size {V}.
Arguments ttl {V}.
Arguments hits {V}.
Arguments misses {V}.

(** [__init__(max_size, ttl)] *)
Definition init (V : Type) (max_size ttl : Z) : Store V :=
  {| cache := []; max_size := max_size; ttl := ttl; hits := 0; misses := 0 |}.

Definition size {V} (s : Store V) : Z := Z.of_nat (length (cache s)).

Section store.
Context {V : Type}.

Definition with_cache (s : Store V) (c : list (string * CacheEntry V))
    : Store V :=
  {| cache := c; max_size := max_size s; ttl := ttl s;
     hits := hits s; misses := misses s |}.

(** The body the three [get] methods share, after the key is computed. *)
Definition get_key (key : string) (now : Z) (s : Store V)
    : option V * Store V :=
  match Dict.get key (cache s) with
  | Some entry =>
      if negb (is_expired entry now) then
        (Some (value entry),
         {| cache := Dict.set key (increment_hits entry) (cache s);
            max_size := max_size s; ttl := ttl s;
            hits := hits s + 1; misses := misses s |})
      else
        (None,
         {| cache := Dict.del key (cache s);
            max_size := max_size s; ttl := ttl s;
            hits := hits s; misses := misses s + 1 |})
  | None =>
      (None,
       {| cache := cache s; max_size := max_size s; ttl := ttl s;
          hits := hits s; misses := misses s + 1 |})
  end.

(** [sorted(keys, key=...)] on keys ordered by [lt]: stable, ascending. *)
Section sorted.
Context {K : Type} (lt : K → K → bool) (sort_key : string → K).

Fixpoint sorted_insert (k : string) (l : list string) : list string :=
  match l with
  | [] => [k]
  | k' :: l' =>
      if lt (sort_key k') (sort_key k) then k' :: sorted_insert k l'
      else k :: k' :: l'
  end.

Definition sorted (l : list string) : list string :=
  foldr sorted_insert [] l.
End sorted.

(** [self.cache[k].created_at] and [.hit_count] for a key of the table. *)
Definition created_at_of (c : list (string * CacheEntry V)) (k : string) : Z :=
  from_option created_at 0%Z (Dict.get k c).
Definition hit_count_of (c : list (string * CacheEntry V)) (k : string) : Z :=
  from_option hit_count 0%Z (Dict.get k c).

Definition num_to_remove (s : Store V) : nat :=
  Z.to_nat (Z.max 1 (max_size s / 10)).

(** [for key in sorted_keys[:num_to_remove]: del self.cache[key]] *)
Definition del_all (ks : list string) (c : list (string * CacheEntry V))
    : list (string * CacheEntry V) :=
  foldl (λ c k, Dict.del k c) c ks.

(** [EmbeddingCache._evict_oldest], [DocumentCache._evict_oldest] *)
Definition _evict_oldest (s : Store V) : Store V :=
  let sorted_keys :=
    sorted Z.ltb (created_at_of (cache s)) (Dict.keys (cache s)) in
  with_cache s (del_all (take (num_to_remove s) sorted_keys) (cache s)).

(** Tuples compare lexicographically. *)
Definition pair_ltb (a b : Z * Z) : bool :=
  (a.1 <? b.1)%Z || ((a.1 =? b.1)%Z && (a.2 <? b.2)%Z).

(** [QueryResponseCache._evict_lru] *)
Definition _evict_lru (s : Store V) : Store V :=
  let sorted_keys :=
    sorted pair_ltb
      (λ k, (hit_count_of (cache s) k, created_at_of (cache s) k))
      (Dict.keys (cache s)) in
  with_cache s (del_all (take (num_to_remove s) sorted_keys) (cache s)).

(** The body the three [set] methods share, after the key is computed. *)
Definition set_key (evict : Store V → Store V) (key : string) (v : V)
    (now : Z) (s : Store V) : Store V :=
  let s := if (max_size s <=? size s)%Z then evict s else s in
  with_cache s (Dict.set key (new_entry v (ttl s) now) (cache s)).

(** A table of positive capacity that holds no more than its capacity. *)
Definition bounded (s : Store V) : Prop :=
  (1 ≤ max_size s)%Z ∧ (size s ≤ max_size s)%Z.

(** What [set] needs of an eviction: it only deletes, and it deletes from a
    non-empty table. *)
Definition evicts (evict : Store V → Store V) : Prop :=
  ∀ s, max_size (evict s) = max_size s
       ∧ (length (cache (evict s)) ≤ length (cache s))
       ∧ (cache s ≠ [] → length (cache (evict s)) < length (cache s)).
End store.

(** [ticker.lower() if ticker else ''] *)
Definition ticker_normalized (ticker : option string) : string :=
  match ticker with
  | Some t => Str.lower t
  | None => EmptyString
  end.

(** [sorted(doc_types) if doc_types else []] *)
Definition doc_types_normalized (doc_types : option (list string))
    : list string :=
  match doc_types with
  | Some ts => Str.sorted_strings ts
  | None => []
  end.

Module EmbeddingCache.
Section methods.
Context `{Digest}.

Definition _generate_key (text : string) : string :=
  md5_hexdigest (Str.strip (Str.lower text)).

Definition get (text : string) (now : Z) (s : Store (list float))
    : option (list float) * Store (list float) :=
  get_key (_generate_key text) now s.

Definition set (text : string) (embedding : list float) (now : Z)
    (s : Store (list float)) : Store (list float) :=
  set_key _evict_oldest (_generate_key text) embedding now s.

(** A call of the cache, with the clock reading it sees. *)
Inductive call :=
| CallGet (text : string) (now : Z)
| CallSet (text : string) (embedding : list float) (now : Z).

Definition step (s : Store (list float)) (c : call) : Store (list float) :=
  match c with
  | CallGet text now => (get text now s).2
  | CallSet text embedding now => set text embedding now s
  end.

Definition run (calls : list call) (s : Store (list float))
    : Store (list float) :=
  foldl step s calls.
End methods.
End EmbeddingCache.

Module QueryResponseCache.
Section methods.
Context `{Digest}.
Local Abbreviation Response := ResponseDict.t.

Definition _generate_key (query : string) (ticker : option string)
    (doc_types : option (list string)) (top_k : Z) : string :=
  let query_normalized := Str.strip (Str.lower query) in
  let key_parts :=
    [query_normalized; ticker_normalized ticker;
     Str.join "," (doc_types_normalized doc_types); Str.str_of_Z top_k] in
  md5_hexdigest (Str.join "|" key_parts).

Definition get (query : string) (ticker : option string)
    (doc_types : option (list string)) (top_k : Z) (now : Z)
    (s : Store Response) : option Response * Store Response :=
  get_key (_generate_key query ticker doc_types top_k) now s.

Definition set (query : string) (response : Response)
    (ticker : option string) (doc_types : option (list string))
    (top_k : Z) (now : Z) (s : Store Response) : Store Response :=
  set_key _evict_lru (_generate_key query ticker doc_types top_k)
    response now s.

Inductive call :=
| CallGet (query : string) (ticker : option string)
    (doc_types : option (list string)) (top_k : Z) (now : Z)
| CallSet (query : string) (response : Response) (ticker : option string)
    (doc_types : option (list string)) (top_k : Z) (now : Z).

Definition step (s : Store Response) (c : call) : Store Response :=
  match c with
  | CallGet query ticker doc_types top_k now =>
      (get query ticker doc_types top_k now s).2
  | CallSet query response ticker doc_types top_k now =>
      set query response ticker doc_types top_k now s
  end.

Definition run (calls : list call) (s : Store Response) : Store Response :=
  foldl step s calls.
End methods.
End QueryResponseCache.

Module DocumentCache.
Section methods.
Context `{Digest}.

Definition _generate_key (query : string) (ticker : option string)
    (doc_types : option (list string)) : string :=
  let query_normalized := Str.strip (Str.lower query) in
  md5_hexdigest
    (query_normalized +:+ "|" +:+ ticker_normalized ticker +:+ "|"
     +:+ Str.join "," (doc_types_normalized doc_types)).

Definition get (query : string) (ticker : option string)
    (doc_types : option (list string)) (now : Z)
    (s : Store (list Document))
    : option (list Document) * Store (list Document) :=
  get_key (_generate_key query ticker doc_types) now s.

Definition set (query : string) (documents : list Document)
    (ticker : option string) (doc_types : option (list string)) (now : Z)
    (s : Store (list Document)) : Store (list Document) :=
  set_key _evict_oldest (_generate_key query ticker doc_types)
    documents now s.

Inductive call :=
| CallGet (query : string) (ticker : option string)
    (doc_types : option (list string)) (now : Z)
| CallSet (query : string) (documents : list Document)
    (ticker : option string) (doc_types : option (list string)) (now : Z).

Definition step (s : Store (list Document)) (c : call)
    : Store (list Document) :=
  match c with
  | CallGet query ticker doc_types now => (get query ticker doc_types now s).2
  | CallSet query documents ticker doc_types now =>
      set query documents ticker doc_types now s
  end.

Definition run (calls : list call) (s : Store (list Document))
    : Store (list Document) :=
  foldl step s calls.
End methods.
End DocumentCache.

(** [CacheManager]: the three caches of the process. *)
Record CacheManager := {
  embedding_cache : Store (list float);
  response_cache : Store ResponseDict.t;
  document_cache : Store (list Document);
}.

Definition CacheManager_init : CacheManager :=
  {| embedding_cache := init _ 1000 86400;
     response_cache := init _ 500 3600;
     document_cache := init _ 200 7200 |}.

Section manager.
Context `{Digest}.

(** One call of one of the three caches. *)
Inductive cache_call :=
| OnEmbeddings (c : EmbeddingCache.call)
| OnResponses (c : QueryResponseCache.call)
| OnDocuments (c : DocumentCache.call).

Definition manager_step (m : CacheManager) (c : cache_call) : CacheManager :=
  match c with
  | OnEmbeddings c =>
      {| embedding_cache := EmbeddingCache.step (embedding_cache m) c;
         response_cache := response_cache m;
         document_cache := document_cache m |}
  | OnResponses c =>
      {| embedding_cache := embedding_cache m;
         response_cache := QueryResponseCache.step (response_cache m) c;
         document_cache := document_cache m |}
  | OnDocuments c =>
      {| embedding_cache := embedding_cache m;
         response_cache := response_cache m;
         document_cache := DocumentCache.step (document_cache m) c |}
  end.

Definition manager_run (calls : list cache_call) (m : CacheManager)
    : CacheManager :=
  foldl manager_step m calls.
End manager.

(** A stand-in for MD5 to run examples with: the text itself. *)
Definition plain_digest : Digest := λ s, s.

(** [total_requests] of [get_stats]: [self.hits + self.misses]. *)
Definition total_requests {V} (s : Store V) : Z := (hits s + misses s)%Z.

(** The calls that are a [get] of the embedding, the response and the
    document cache. *)
Definition embedding_get (c : cache_call) : bool :=
  match c with
  | OnEmbeddings (EmbeddingCache.CallGet _ _) => true
  | _ => false
  end.

Definition response_get (c : cache_call) : bool :=
  match c with
  | OnResponses (QueryResponseCache.CallGet _ _ _ _ _) => true
  | _ => false
  end.

Definition document_get (c : cache_call) : bool :=
  match c with
  | OnDocuments (DocumentCache.CallGet _ _ _ _) => true
  | _ => false
  end.

(** Three entries, created at the clock readings 1, 2 and 3, the second
    one hit once. *)
Definition three_entries : Store (list float) :=
  EmbeddingCache.run (H:=plain_digest)
    [EmbeddingCache.CallSet "a" [] 1; EmbeddingCache.CallSet "b" [] 2;
     EmbeddingCache.CallSet "c" [] 3; EmbeddingCache.CallGet "b" 4]
    (init _ 20 60).

End Cache.

(** ** Conversation memory ([app/utils/conversation.py]) *)

Module Conversation.

Record ConversationMessage := {
  role : string;
  content : string;
  timestamp : Z;
}.

Record ConversationHistory := {
  messages : list ConversationMessage;
  max_tokens : Z;
}.

(** [ConversationHistory(max_tokens)] *)
Definition init (max_tokens : Z) : ConversationHistory :=
  {| messages := []; max_tokens := max_tokens |}.

(** [len(msg.content)] *)
Definition msg_chars (msg : ConversationMessage) : Z :=
  Z.of_nat (String.length (content msg)).

(** [sum(len(msg.content) for msg in self.messages)] *)
Definition total_chars (msgs : list ConversationMessage) : Z :=
  foldl (λ acc msg, acc + msg_chars msg)%Z 0%Z msgs.

(** [total_chars / 4 <= max_tokens]: a true division, compared with an
    integer. *)
Definition under_limit (total_chars max_tokens : Z) : bool :=
  QArith_base.Qle_bool (QArith_base.Qmake total_chars 4)
    (QArith_base.inject_Z max_tokens).

(** [for i in range(n - 1, -1, -1)]: the rounds still to run are those for
    the indices below [n]; a [break] leaves with [i + 1]. *)
Fixpoint keep_from (msgs : list ConversationMessage) (n : nat)
    (cumulative_chars chars_limit keep_from_index : Z) : Z :=
  match n with
  | O => keep_from_index
  | S i =>
      let msg_chars := from_option msg_chars 0%Z (msgs !! i) in
      if (chars_limit <? cumulative_chars + msg_chars)%Z
      then Z.of_nat i + 1
      else keep_from msgs i (cumulative_chars + msg_chars)%Z chars_limit
             keep_from_index
  end.

Definition _trim_history (h : ConversationHistory) : ConversationHistory :=
  match messages h with
  | [] => h
  | _ :: _ =>
      let total_chars := total_chars (messages h) in
      if under_limit total_chars (max_tokens h) then h
      else
        let chars_limit := (max_tokens h * 4)%Z in
        let len := Z.of_nat (length (messages h)) in
        let keep_from_index :=
          keep_from (messages h) (length (messages h)) 0 chars_limit len in
        let keep_from_index := Z.min keep_from_index (len - 2) in
        if (0 <? keep_from_index)%Z
        then {| messages := drop (Z.to_nat keep_from_index) (messages h);
                max_tokens := max_tokens h |}
        else h
  end.

(** [add_message(role, content)], at clock reading [now]. *)
Definition add_message (role content : string) (now : Z)
    (h : ConversationHistory) : ConversationHistory :=
  let message := {| role := role; content := content; timestamp := now |} in
  _trim_history {| messages := messages h ++ [message];
                   max_tokens := max_tokens h |}.

(** [get_messages()]: role and content of every message. *)
Definition get_messages (h : ConversationHistory) : list (string * string) :=
  (λ msg, (role msg, content msg)) <$> messages h.

Definition said (role : string) (n : nat) : ConversationMessage :=
  {| role := role;
     content := String.string_of_list_ascii (replicate n "x"%char);
     timestamp := 0 |}.

(** [SessionManager]: the histories by session id.  [new_id] is what
    [str(uuid.uuid4())] returns when [create_session] asks for it. *)
Definition SessionManager := gmap string ConversationHistory.

Definition create_session (new_id : string) (session_id : option string)
    (sessions : SessionManager) : string * SessionManager :=
  let session_id :=
    match session_id with
    | None => new_id
    | Some session_id => session_id
    end in
  (session_id, <[session_id := init 4000]> sessions).

Definition get_session (session_id : string) (sessions : SessionManager)
    : option ConversationHistory :=
  sessions !! session_id.

Definition delete_session (session_id : string) (sessions : SessionManager)
    : SessionManager :=
  if bool_decide (is_Some (sessions !! session_id))
  then delete session_id sessions else sessions.

Definition clear_all_sessions (sessions : SessionManager) : SessionManager :=
  ∅.

End Conversation.

(** ** Citations ([app/utils/citations.py]) *)

Module Citations.

Record CitationTracker := {
  sources : list Document;
  source_map : gmap string Z;
}.

(** [CitationTracker()] *)
Definition init : CitationTracker := {| sources := []; source_map := ∅ |}.

Definition _create_doc_key (doc : Document) : string :=
  let filename := default "unknown" (filename (metadata doc)) in
  let chunk_id := default "unknown" (chunk_id (metadata doc)) in
  filename +:+ "_" +:+ chunk_id.

Definition add_document (doc : Document) (t : CitationTracker)
    : Z * CitationTracker :=
  let doc_key := _create_doc_key doc in
  match source_map t !! doc_key with
  | Some source_id => (source_id, t)
  | None =>
      let source_id := (Z.of_nat (length (sources t)) + 1)%Z in
      (source_id,
       {| sources := sources t ++ [doc];
          source_map := <[doc_key := source_id]> (source_map t) |})
  end.

(** ["[Source N] content"] *)
Definition block (source_id : Z) (doc : Document) : string :=
  "[Source " +:+ Str.str_of_Z source_id +:+ "] " +:+ page_content doc.

(** The loop of [format_context_with_citations]: the parts, in order. *)
Fixpoint context_parts (documents : list Document) (t : CitationTracker)
    : list string * CitationTracker :=
  match documents with
  | [] => ([], t)
  | doc :: documents' =>
      let '(source_id, t) := add_document doc t in
      let '(parts, t) := context_parts documents' t in
      (block source_id doc :: parts, t)
  end.

Definition newline : string := String Str.newline EmptyString.

Definition format_context_with_citations (documents : list Document)
    (t : CitationTracker) : string * CitationTracker :=
  let '(parts, t) := context_parts documents t in
  (Str.join (newline +:+ newline) parts, t).

(** [clear()] *)
Definition clear (t : CitationTracker) : CitationTracker := init.

(** *** Words of the specification *)

(** The source ids given out while adding [documents] one after another. *)
Fixpoint add_all (documents : list Document) (t : CitationTracker)
    : list Z * CitationTracker :=
  match documents with
  | [] => ([], t)
  | doc :: documents' =>
      let '(source_id, t) := add_document doc t in
      let '(ids, t) := add_all documents' t in
      (source_id :: ids, t)
  end.

(** The distinct keys of [ks], each at the place of its first occurrence. *)
Definition see (seen : list string) (k : string) : list string :=
  if bool_decide (k ∈ seen) then seen else seen ++ [k].

Definition first_seen (ks : list string) : list string := foldl see [] ks.

(** The position of the first occurrence of [k] in [ks]. *)
Fixpoint position (k : string) (ks : list string) : nat :=
  match ks with
  | [] => 0
  | k' :: ks' => if String.eqb k' k then 0 else S (position k ks')
  end.

(** The tracker has given the keys of [seen] the ids 1, 2, ... in that
    order. *)
Definition tracks (t : CitationTracker) (seen : list string) : Prop :=
  _create_doc_key <$> sources t = seen
  ∧ NoDup seen
  ∧ ∀ k, source_map t !! k
         = if bool_decide (k ∈ seen)
           then Some (Z.of_nat (position k seen) + 1)%Z else None.

(** A passage of [file] whose metadata carries the given chunk id, if any. *)
Definition chunk (file : string) (id : option string) (text : string)
    : Document :=
  {| page_content := text;
     metadata := {| filename := Some file; chunk_id := id; doc_type := None;
                    ticker := None; similarity_score := None |} |}.

(** How often [pat] occurs in [s], overlapping occurrences included. *)
Fixpoint count_occurrences (pat s : string) : nat :=
  match s with
  | EmptyString => 0
  | String _ s' =>
      (if String.prefix pat s then 1 else 0) + count_occurrences pat s'
  end.

End Citations.

(** ** Language model *)

(** The prompts the backend fills in and sends; [invoke] is
    [(prompt | llm).invoke(inputs).content]. *)
Inductive prompt :=
| DecomposePrompt (query : string)
| ExpansionPrompt (query : string) (num_variations : Z)
| CompressionPrompt (query document : string)
| AnswerPrompt (conversation_history context query : string).

Record ChatModel := {
  invoke : prompt → result string;
}.

(** ** Query expansion ([app/rag/query_expander.py]) *)

Module QueryExpander.
Section methods.
Variable self_llm : ChatModel.

(** [content.strip().split('\n')], each line stripped, empty lines dropped. *)
Definition parse_lines (content : string) : list string :=
  filter (λ q, q ≠ EmptyString)
    (Str.strip <$> Str.split_on Str.newline (Str.strip content)).

Definition multi_part_indicators (query : string) : list bool :=
  [Str.contains "1." query && Str.contains "2." query;
   Str.contains "1)" query && Str.contains "2)" query;
   1 <? Str.count_char "?" query;
   Str.contains " and " (Str.lower query) && (15 <? length (Str.split query))].

Definition _decompose_query (query : string) : list string :=
  if negb (existsb id (multi_part_indicators query)) then [query]
  else
    match invoke self_llm (DecomposePrompt query) with
    | Returns content =>
        let sub_queries := parse_lines content in
        let cleaned_queries :=
          filter (λ q, q ≠ EmptyString)
            (Str.strip_numbering <$> sub_queries) in
        match cleaned_queries with
        | [] => [query]
        | _ :: _ => cleaned_queries
        end
    | Raises _ => [query]
    end.

Definition _generate_variations (query : string) (num_variations : Z)
    : list string :=
  match invoke self_llm (ExpansionPrompt query num_variations) with
  | Returns content => slice_to num_variations (parse_lines content)
  | Raises _ => []
  end.

Definition _should_expand (query : string) : bool :=
  let word_count := length (Str.split query) in
  if word_count <? 5 then false
  else
    let query_lower := Str.strip (Str.lower query) in
    let simple_patterns :=
      [String.prefix "what is" query_lower;
       String.prefix "what was" query_lower;
       String.prefix "when did" query_lower;
       String.prefix "where is" query_lower;
       Str.contains "yes or no" query_lower] in
    if existsb id simple_patterns then false else true.

(** [all_queries.extend([v for v in variations if v not in all_queries])]:
    the list comprehension is evaluated against [all_queries] as it is before
    the call. *)
Definition extend_new (all_queries variations : list string) : list string :=
  all_queries ++ filter (λ v, v ∉ all_queries) variations.

(** The body of [for sub_query in sub_queries]. *)
Definition expand_sub_query (num_variations : Z) (all_queries : list string)
    (sub_query : string) : list string :=
  let all_queries :=
    if bool_decide (sub_query ∈ all_queries) then all_queries
    else all_queries ++ [sub_query] in
  if _should_expand sub_query then
    extend_new all_queries (_generate_variations sub_query num_variations)
  else all_queries.

(** Nothing in the [try] block raises: the methods it calls handle their own
    exceptions, so the handler of [expand] is never entered. *)
Definition expand (query : string) (num_variations : Z) : list string :=
  let all_queries := [query] in
  let sub_queries := _decompose_query query in
  if 1 <? length sub_queries then
    foldl (expand_sub_query num_variations) all_queries sub_queries
  else if _should_expand query then
    extend_new all_queries (_generate_variations query num_variations)
  else all_queries.
End methods.

(** A model that answers an expansion request with the same line twice and
    fails on every other request. *)
Definition repeating_llm : ChatModel :=
  {| invoke := λ p,
       match p with
       | ExpansionPrompt _ _ =>
           Returns ("Revenue growth by segment" +:+ String Str.newline
                      "Revenue growth by segment")
       | _ => Raises ExternalError
       end |}.

(** A model that splits every question in the same two and is down for
    every other request. *)
Definition decomposing_llm : ChatModel :=
  {| invoke := λ p,
       match p with
       | DecomposePrompt _ =>
           Returns ("1. What was revenue?" +:+ String Str.newline
                      "2. What are the risks?")
       | _ => Raises ExternalError
       end |}.

End QueryExpander.

(** ** Contextual compression ([app/rag/compressor.py]) *)

Module Compressor.
Section methods.
Variable self_llm : ChatModel.

(** The body of [for doc in documents], with its [try]/[except]: what the
    document contributes to [compressed_docs]. *)
Definition compress_doc (query : string) (doc : Document) : list Document :=
  if String.length (page_content doc) <? 200 then [doc]
  else
    match invoke self_llm (CompressionPrompt query (page_content doc)) with
    | Returns content =>
        let extracted := Str.strip content in
        if bool_decide (extracted = "NOT_RELEVANT")
           || bool_decide (extracted = EmptyString)
        then []
        else [{| page_content := extracted; metadata := metadata doc |}]
    | Raises _ => [doc]
    end.

Definition compress (query : string) (documents : list Document)
    : list Document :=
  documents ≫= compress_doc query.

(** [compress_batch]: [compress] on the slices
    [documents[i:i + batch_size]] for [i] in
    [range(0, len(documents), batch_size)]. *)
Definition compress_batch (query : string) (documents : list Document)
    (batch_size : Z) : result (list Document) :=
  match documents with
  | [] => Returns []
  | _ :: _ =>
      starts ← py_range 0 (Z.of_nat (length documents)) batch_size;
      Returns
        (starts ≫= λ i, compress query (slice i (i + batch_size) documents))
  end.
End methods.

(** A model that finds nothing relevant in any document. *)
Definition dismissive_llm : ChatModel :=
  {| invoke := λ _, Returns " NOT_RELEVANT " |}.

End Compressor.

(** ** Settings ([app/config.py]) *)

(** The fields of [Settings] ([app/config.py]) that the pipeline reads. *)
Record Settings := {
  ENABLE_QUERY_EXPANSION : bool;
  MAX_QUERY_VARIATIONS : Z;
  RETRIEVAL_TOP_K : Z;
  ENABLE_RERANKING : bool;
  MMR_DIVERSITY_SCORE : float;
  ENABLE_COMPRESSION : bool;
}.

(** [settings.ENABLE_DOCUMENT_CACHE] and [settings.ENABLE_RESPONSE_CACHE],
    which the retriever and the chain read.  [Settings] declares neither
    field (its caching flags are [ENABLE_QUERY_CACHE] and
    [ENABLE_EMBEDDING_CACHE]), and a pydantic settings object has the
    attributes its class declares and no others: the reading raises
    [AttributeError]. *)
Definition ENABLE_DOCUMENT_CACHE (settings : Settings) : result bool :=
  Raises AttributeError.

Definition ENABLE_RESPONSE_CACHE (settings : Settings) : result bool :=
  Raises AttributeError.

(** ** The process state and the services around it *)

(** One call of [similarity_search_with_score]: query, [k], [expr]. *)
Record SearchCall := {
  search_query : string;
  search_k : Z;
  search_expr : option string;
}.

(** The mutable state of the process: the global [cache_manager], the
    [conversations] of the chain, the number of clock readings taken so far,
    and the calls made to the vector store so far. *)
Record World := {
  cache_manager : Cache.CacheManager;
  conversations : gmap string Conversation.ConversationHistory;
  clock : nat;
  searches : list SearchCall;
}.

(** What the process calls and does not own: the clock ([time_time n] is the
    reading of [time.time()] with [n] readings before it, [datetime_now n]
    what [datetime.now()] gives then), the vector store, the language model,
    the embedding model and numpy. *)
Record Services := {
  time_time : nat → Z;
  datetime_now : nat → Z;
  similarity_search_with_score :
    SearchCall → result (list (Document * float));
  llm : ChatModel;
  embeddings : Reranker.Embedder;
  numpy : Reranker.Numpy;
}.

(** A computation on the process state that returns or raises. *)
Record M (A : Type) : Type := Run {
  run : World → result A * World;
}.
Arguments Run {A} run.
Arguments run {A} m w.

Global Instance M_ret : MRet M := λ A a, Run (λ w, (Returns a, w)).
Global Instance M_bind : MBind M := λ A B f m, Run (λ w,
  match run m w with
  | (Returns a, w') => run (f a) w'
  | (Raises e, w') => (Raises e, w')
  end).

Fixpoint for_each_M {A B} (f : A → M B) (l : list A) : M (list B) :=
  match l with
  | [] => mret []
  | a :: l' => b ← f a; bs ← for_each_M f l'; mret (b :: bs)
  end.

Definition lift_result {A} (r : result A) : M A := Run (λ w, (r, w)).

Definition with_cache_manager (m : Cache.CacheManager) (w : World) : World :=
  {| cache_manager := m; conversations := conversations w;
     clock := clock w; searches := searches w |}.

Definition with_document_cache (c : Cache.Store (list Document)) (w : World)
    : World :=
  with_cache_manager
    {| Cache.embedding_cache := Cache.embedding_cache (cache_manager w);
       Cache.response_cache := Cache.response_cache (cache_manager w);
       Cache.document_cache := c |} w.

Definition with_response_cache (c : Cache.Store ResponseDict.t) (w : World)
    : World :=
  with_cache_manager
    {| Cache.embedding_cache := Cache.embedding_cache (cache_manager w);
       Cache.response_cache := c;
       Cache.document_cache := Cache.document_cache (cache_manager w) |} w.

Definition with_conversations
    (c : gmap string Conversation.ConversationHistory) (w : World) : World :=
  {| cache_manager := cache_manager w; conversations := c;
     clock := clock w; searches := searches w |}.

(** Python truthiness of an optional string: neither [None] nor empty. *)
Definition truthy (s : option string) : bool :=
  match s with
  | Some (String _ _) => true
  | _ => false
  end.

Section process.
Context `{Digest}.
Variable settings : Settings.
Variable services : Services.

(** [time.time()] *)
Definition read_clock : M Z := Run (λ w,
  (Returns (time_time services (clock w)),
   {| cache_manager := cache_manager w; conversations := conversations w;
      clock := S (clock w); searches := searches w |})).

(** [cache_manager.document_cache.get(...)]: [is_expired] reads the clock,
    and it is called when the key is in the table. *)
Definition document_cache_get (query : string) (ticker : option string)
    (doc_types : option (list string)) : M (option (list Document)) :=
  now ← Run (λ w,
    match Dict.get (Cache.DocumentCache._generate_key query ticker doc_types)
            (Cache.cache (Cache.document_cache (cache_manager w))) with
    | Some _ => run read_clock w
    | None => (Returns 0%Z, w)
    end);
  Run (λ w,
    let '(r, c) :=
      Cache.DocumentCache.get query ticker doc_types now
        (Cache.document_cache (cache_manager w)) in
    (Returns r, with_document_cache c w)).

(** [cache_manager.document_cache.set(...)]: the new entry reads the
    clock. *)
Definition document_cache_set (query : string) (documents : list Document)
    (ticker : option string) (doc_types : option (list string)) : M unit :=
  now ← read_clock;
  Run (λ w,
    (Returns (),
     with_document_cache
       (Cache.DocumentCache.set query documents ticker doc_types now
          (Cache.document_cache (cache_manager w))) w)).

(** [self.vector_store.similarity_search_with_score(...)] *)
Definition vector_search (call : SearchCall)
    : M (list (Document * float)) := Run (λ w,
  (similarity_search_with_score services call,
   {| cache_manager := cache_manager w; conversations := conversations w;
      clock := clock w; searches := searches w ++ [call] |})).

End process.

(** ** Retriever ([app/rag/retriever.py]) *)

Module Retriever.
Section methods.
Context `{Digest}.
Variable settings : Settings.
Variable services : Services.

Definition _build_filter_expression (ticker : option string)
    (doc_types : option (list string)) : option string :=
  let conditions :=
    (match ticker with
     | Some ((String _ _) as ticker) =>
         ["ticker == " +:+ Str.quote +:+ ticker +:+ Str.quote]
     | _ => []
     end)
    ++ (match doc_types with
        | Some ((_ :: _) as doc_types) =>
            let doc_type_conditions :=
              (λ dt, "doc_type == " +:+ Str.quote +:+ dt +:+ Str.quote)
              <$> doc_types in
            ["(" +:+ Str.join " or " doc_type_conditions +:+ ")"]
        | _ => []
        end) in
  match conditions with
  | [] => None
  | _ :: _ => Some (Str.join " and " conditions)
  end.

(** [doc.metadata['similarity_score'] = float(score)] *)
Definition attach_score (result : Document * float) : Document :=
  let '(doc, score) := result in
  {| page_content := page_content doc;
     metadata :=
       {| filename := filename (metadata doc);
          chunk_id := chunk_id (metadata doc);
          doc_type := doc_type (metadata doc);
          ticker := ticker (metadata doc);
          similarity_score := Some score |} |}.

Definition retrieve (query : string) (ticker : option string)
    (doc_types : option (list string)) (top_k : Z) : M (list Document) :=
  enabled ← lift_result (ENABLE_DOCUMENT_CACHE settings);
  cached_docs ←
    (if enabled : bool
     then document_cache_get services query ticker doc_types
     else mret None);
  match cached_docs with
  | Some cached_docs => mret (slice_to top_k cached_docs)
  | None =>
      let filter_expr := _build_filter_expression ticker doc_types in
      results ←
        vector_search services
          {| search_query := query; search_k := top_k;
             search_expr := if truthy filter_expr then filter_expr else None |};
      let documents := attach_score <$> results in
      enabled ← lift_result (ENABLE_DOCUMENT_CACHE settings);
      (if enabled : bool
       then document_cache_set services query documents ticker doc_types
       else mret ());;
      mret documents
  end.
End methods.
End Retriever.

(** ** Cached embeddings ([CachedEmbeddings] of [app/rag/retriever.py]) *)

Module CachedEmbeddings.
Section methods.
Context `{Digest}.

(** [settings.ENABLE_EMBEDDING_CACHE] *)
Variable ENABLE_EMBEDDING_CACHE : bool.
Variable services : Services.

(** The methods of [OpenAIEmbeddings], which the class extends and calls as
    [super()]; they are library code and may use the state of the process. *)
Variable super_embed_query : string → M (list float).
Variable super_embed_documents : list string → M (list (list float)).

Definition with_embedding_cache (c : Cache.Store (list float)) (w : World)
    : World :=
  with_cache_manager
    {| Cache.embedding_cache := c;
       Cache.response_cache := Cache.response_cache (cache_manager w);
       Cache.document_cache := Cache.document_cache (cache_manager w) |} w.

(** [cache_manager.embedding_cache.get(text)]: [is_expired] reads the clock,
    and it is called when the key is in the table. *)
Definition embedding_cache_get (text : string) : M (option (list float)) :=
  now ← Run (λ w,
    match Dict.get (Cache.EmbeddingCache._generate_key text)
            (Cache.cache (Cache.embedding_cache (cache_manager w))) with
    | Some _ => run (read_clock services) w
    | None => (Returns 0%Z, w)
    end);
  Run (λ w,
    let '(r, c) :=
      Cache.EmbeddingCache.get text now
        (Cache.embedding_cache (cache_manager w)) in
    (Returns r, with_embedding_cache c w)).

(** [cache_manager.embedding_cache.set(text, embedding)]: the new entry
    reads the clock. *)
Definition embedding_cache_set (text : string) (embedding : list float)
    : M unit :=
  now ← read_clock services;
  Run (λ w,
    (Returns (),
     with_embedding_cache
       (Cache.EmbeddingCache.set text embedding now
          (Cache.embedding_cache (cache_manager w))) w)).

Definition embed_query (text : string) : M (list float) :=
  cached ←
    (if ENABLE_EMBEDDING_CACHE then embedding_cache_get text else mret None);
  match cached with
  | Some cached => mret cached
  | None =>
      embedding ← super_embed_query text;
      (if ENABLE_EMBEDDING_CACHE then embedding_cache_set text embedding
       else mret ());;
      mret embedding
  end.

(** The first loop of [embed_documents], from index [i] on: the cached
    embedding or the placeholder [None] for each text, and the texts and
    indices still to embed. *)
Fixpoint check_cache (i : nat) (texts : list string)
    (embeddings : list (option (list float)))
    (uncached_texts : list string) (uncached_indices : list nat)
    : M (list (option (list float)) * list string * list nat) :=
  match texts with
  | [] => mret (embeddings, uncached_texts, uncached_indices)
  | text :: texts' =>
      cached ←
        (if ENABLE_EMBEDDING_CACHE then embedding_cache_get text
         else mret None);
      match cached with
      | Some cached =>
          check_cache (S i) texts' (embeddings ++ [Some cached])
            uncached_texts uncached_indices
      | None =>
          check_cache (S i) texts' (embeddings ++ [None])
            (uncached_texts ++ [text]) (uncached_indices ++ [i])
      end
  end.

(** The second loop, over [zip(uncached_indices, new_embeddings)]. *)
Fixpoint fill_placeholders (texts : list string)
    (pairs : list (nat * list float))
    (embeddings : list (option (list float)))
    : M (list (option (list float))) :=
  match pairs with
  | [] => mret embeddings
  | (idx, embedding) :: pairs' =>
      embeddings ← lift_result (list_assign embeddings idx (Some embedding));
      (if ENABLE_EMBEDDING_CACHE
       then text ← lift_result (index texts idx);
            embedding_cache_set text embedding
       else mret ());;
      fill_placeholders texts pairs' embeddings
  end.

(** The list returned holds [None] where a placeholder was not filled. *)
Definition embed_documents (texts : list string)
    : M (list (option (list float))) :=
  checked ← check_cache 0 texts [] [] [];
  let '(embeddings, uncached_texts, uncached_indices) := checked in
  match uncached_texts with
  | [] => mret embeddings
  | _ :: _ =>
      new_embeddings ← super_embed_documents uncached_texts;
      fill_placeholders texts (zip uncached_indices new_embeddings)
        embeddings
  end.
End methods.
End CachedEmbeddings.

(** ** The chain ([app/rag/chain.py]) *)

Module Chain.
Section methods.
Context `{Digest}.
Variable settings : Settings.
Variable services : Services.

(** [cache_manager.response_cache.get(...)]: [is_expired] reads the clock,
    and it is called when the key is in the table. *)
Definition response_cache_get (query : string) (ticker : option string)
    (doc_types : option (list string)) (top_k : Z)
    : M (option ResponseDict.t) :=
  now ← Run (λ w,
    match Dict.get
            (Cache.QueryResponseCache._generate_key query ticker doc_types
               top_k)
            (Cache.cache (Cache.response_cache (cache_manager w))) with
    | Some _ => run (read_clock services) w
    | None => (Returns 0%Z, w)
    end);
  Run (λ w,
    let '(r, c) :=
      Cache.QueryResponseCache.get query ticker doc_types top_k now
        (Cache.response_cache (cache_manager w)) in
    (Returns r, with_response_cache c w)).

(** [cache_manager.response_cache.set(...)]: the new entry reads the
    clock. *)
Definition response_cache_set (query : string) (response : ResponseDict.t)
    (ticker : option string) (doc_types : option (list string)) (top_k : Z)
    : M unit :=
  now ← read_clock services;
  Run (λ w,
    (Returns (),
     with_response_cache
       (Cache.QueryResponseCache.set query response ticker doc_types top_k
          now (Cache.response_cache (cache_manager w))) w)).

(** The dict a cache hit returns is the one the cache holds: assigning to
    its keys changes the cached value. *)
Definition response_cache_assign (query : string) (ticker : option string)
    (doc_types : option (list string)) (top_k : Z)
    (response : ResponseDict.t) : M unit :=
  Run (λ w,
    let c := Cache.response_cache (cache_manager w) in
    let key :=
      Cache.QueryResponseCache._generate_key query ticker doc_types top_k in
    (Returns (),
     match Dict.get key (Cache.cache c) with
     | Some entry =>
         with_response_cache
           (Cache.with_cache c
              (Dict.set key
                 {| Cache.value := response;
                    Cache.created_at := Cache.created_at entry;
                    Cache.entry_ttl := Cache.entry_ttl entry;
                    Cache.hit_count := Cache.hit_count entry |}
                 (Cache.cache c))) w
     | None => w
     end)).

Definition _get_or_create_conversation (session_id : string)
    : M Conversation.ConversationHistory :=
  Run (λ w,
    match conversations w !! session_id with
    | Some conversation => (Returns conversation, w)
    | None =>
        let conversation := Conversation.init 4000 in
        (Returns conversation,
         with_conversations (<[session_id := conversation]> (conversations w))
           w)
    end).

(** [conversation.add_message(role, content)] on the history the chain holds
    for [session_id]; the message is stamped with [datetime.now()]. *)
Definition add_message (session_id role content : string) : M unit :=
  Run (λ w,
    (Returns (),
     with_conversations
       (alter
          (Conversation.add_message role content
             (datetime_now services (clock w)))
          session_id (conversations w)) w)).

Definition _deduplicate_documents (documents : list Document)
    : list Document :=
  (foldl (λ (acc : gset string * list Document) doc,
     let '(seen, unique_docs) := acc in
     let key :=
       default EmptyString (filename (metadata doc)) +:+ "_"
       +:+ default EmptyString (chunk_id (metadata doc)) +:+ "_"
       +:+ Str.take 100 (page_content doc) in
     if bool_decide (key ∈ seen) then acc
     else ({[key]} ∪ seen, unique_docs ++ [doc]))
     (∅, []) documents).2.

(** The key by which [_deduplicate_documents] tells documents apart. *)
Definition dedup_key (doc : Document) : string :=
  default EmptyString (filename (metadata doc)) +:+ "_"
  +:+ default EmptyString (chunk_id (metadata doc)) +:+ "_"
  +:+ Str.take 100 (page_content doc).

(** [CitationTracker.get_sources_list] *)
Definition get_sources_list (sources : list Document) : list Source.t :=
  imap (λ idx doc,
    let text_preview := Str.take 200 (page_content doc) in
    let text_preview :=
      if 200 <? String.length (page_content doc)
      then text_preview +:+ "..." else text_preview in
    {| Source.source_id := Z.of_nat idx + 1;
       Source.filename := default "unknown" (filename (metadata doc));
       Source.doc_type := default "unknown" (doc_type (metadata doc));
       Source.ticker := ticker (metadata doc);
       Source.similarity_score :=
         default 0%float (similarity_score (metadata doc));
       Source.chunk_id := chunk_id (metadata doc);
       Source.text_preview := text_preview |}) sources.

(** The history handed to the prompt: the last six messages, cut to 300
    characters each. *)
Definition format_history (messages : list (string * string)) : string :=
  let recent_history := drop (length messages - 6) messages in
  match recent_history with
  | [] => EmptyString
  | _ :: _ =>
      foldl (λ conversation_history (msg : string * string),
        let role_label :=
          if bool_decide (msg.1 = "user") then "User" else "Assistant" in
        let content := Str.take 300 msg.2 in
        let content :=
          if 300 <? String.length msg.2 then content +:+ "..." else content in
        conversation_history +:+ role_label +:+ ": " +:+ content
        +:+ String Str.newline (String Str.newline EmptyString))
        ("Previous conversation:" +:+ String Str.newline EmptyString)
        recent_history
  end.

(** Steps 1 to 10 of [process_query], inside its [try] block; an exception
    is printed and raised again. *)
Definition run_pipeline (request : QueryRequest.t) (start_time : Z)
    (session_id : string) (conversation : Conversation.ConversationHistory)
    : M QueryResponse.t :=
  let query := QueryRequest.query request in
  let expanded_queries :=
    if ENABLE_QUERY_EXPANSION settings
    then QueryExpander.expand (llm services) query
           (MAX_QUERY_VARIATIONS settings - 1)
    else [query] in
  docs ← for_each_M
    (λ q, Retriever.retrieve settings services q
            (QueryRequest.ticker request) (QueryRequest.doc_types request)
            (RETRIEVAL_TOP_K settings))
    expanded_queries;
  let all_documents := concat docs in
  let unique_docs := _deduplicate_documents all_documents in
  reranked_docs ←
    (if ENABLE_RERANKING settings
        && (QueryRequest.top_k request <? Z.of_nat (length unique_docs))%Z
     then lift_result
            (Reranker.rerank (numpy:=numpy services) (embeddings services)
               query unique_docs
               (QueryRequest.top_k request) (MMR_DIVERSITY_SCORE settings))
     else mret (slice_to (QueryRequest.top_k request) unique_docs));
  let compressed_docs :=
    if ENABLE_COMPRESSION settings
    then Compressor.compress (llm services) query reranked_docs
    else reranked_docs in
  let '(context, citation_tracker) :=
    Citations.format_context_with_citations compressed_docs Citations.init in
  let conversation_history :=
    format_history (Conversation.get_messages conversation) in
  answer ← lift_result
    (invoke (llm services) (AnswerPrompt conversation_history context query));
  add_message session_id "user" query;;
  add_message session_id "assistant" answer;;
  let sources := get_sources_list (Citations.sources citation_tracker) in
  now ← read_clock services;
  let response_dict :=
    {| ResponseDict.answer := answer;
       ResponseDict.sources := sources;
       ResponseDict.query := query;
       ResponseDict.processing_time := now - start_time;
       ResponseDict.expanded_queries :=
         if 1 <? length expanded_queries then Some expanded_queries else None;
       ResponseDict.num_documents_retrieved :=
         Z.of_nat (length compressed_docs);
       ResponseDict.session_id := session_id;
       ResponseDict.from_cache := None |} in
  enabled ← lift_result (ENABLE_RESPONSE_CACHE settings);
  (if enabled && negb (truthy (QueryRequest.session_id request))
   then response_cache_set query response_dict (QueryRequest.ticker request)
          (QueryRequest.doc_types request) (QueryRequest.top_k request)
   else mret ());;
  mret (QueryResponse.of_dict response_dict).

Definition process_query (request : QueryRequest.t) : M QueryResponse.t :=
  start_time ← read_clock services;
  enabled ← lift_result (ENABLE_RESPONSE_CACHE settings);
  cached_response ←
    (if enabled && negb (truthy (QueryRequest.session_id request))
     then response_cache_get (QueryRequest.query request)
            (QueryRequest.ticker request) (QueryRequest.doc_types request)
            (QueryRequest.top_k request)
     else mret None);
  match cached_response with
  | Some cached_response =>
      now ← read_clock services;
      let cached_response :=
        {| ResponseDict.answer := ResponseDict.answer cached_response;
           ResponseDict.sources := ResponseDict.sources cached_response;
           ResponseDict.query := ResponseDict.query cached_response;
           ResponseDict.processing_time := now - start_time;
           ResponseDict.expanded_queries :=
             ResponseDict.expanded_queries cached_response;
           ResponseDict.num_documents_retrieved :=
             ResponseDict.num_documents_retrieved cached_response;
           ResponseDict.session_id := ResponseDict.session_id cached_response;
           ResponseDict.from_cache := Some true |} in
      response_cache_assign (QueryRequest.query request)
        (QueryRequest.ticker request) (QueryRequest.doc_types request)
        (QueryRequest.top_k request) cached_response;;
      mret (QueryResponse.of_dict cached_response)
  | None =>
      session_id ←
        (if truthy (QueryRequest.session_id request)
         then mret (default EmptyString (QueryRequest.session_id request))
         else now ← read_clock services;
              mret ("session_" +:+ Str.str_of_Z now));
      conversation ← _get_or_create_conversation session_id;
      run_pipeline request start_time session_id conversation
  end.
End methods.
End Chain.

(** ** Sample process *)

Module Sample.

Definition settings : Settings :=
  {| ENABLE_QUERY_EXPANSION := true;
     MAX_QUERY_VARIATIONS := 3;
     RETRIEVAL_TOP_K := 30;
     ENABLE_RERANKING := true;
     MMR_DIVERSITY_SCORE := 0.5;
     ENABLE_COMPRESSION := true |}.

(** Five scored passages, whatever the query. *)
Definition five_passages : list (Document * float) :=
  [(Citations.chunk "10k.md" (Some "0") "Revenue rose.", 0.875%float);
   (Citations.chunk "10k.md" (Some "1") "Debt fell.", 0.75%float);
   (Citations.chunk "10k.md" (Some "2") "Margins held.", 0.625%float);
   (Citations.chunk "10k.md" (Some "3") "Cash grew.", 0.5%float);
   (Citations.chunk "10k.md" (Some "4") "Risks remain.", 0.375%float)].

(** The clock advances one tick per reading; the vector store answers with
    the five passages; the language model answers every prompt alike; the
    embedding model is down. *)
Definition services : Services :=
  {| time_time := λ n, Z.of_nat n;
     datetime_now := λ n, Z.of_nat n;
     similarity_search_with_score := λ _, Returns five_passages;
     llm := {| invoke := λ _, Returns "Revenue rose [Source 1]." |};
     embeddings := Reranker.failing_embedder;
     numpy := Reranker.left_to_right |}.

Definition empty_world : World :=
  {| cache_manager := Cache.CacheManager_init;
     conversations := ∅;
     clock := 0;
     searches := [] |}.

(** A process in use: the document cache holds the five passages for a
    query, the response cache a response to it, and one session has begun. *)
Definition cached_response : ResponseDict.t :=
  {| ResponseDict.answer := "Revenue rose [Source 1].";
     ResponseDict.sources := [];
     ResponseDict.query := "What was revenue?";
     ResponseDict.processing_time := 1;
     ResponseDict.expanded_queries := None;
     ResponseDict.num_documents_retrieved := 5;
     ResponseDict.session_id := "session_0";
     ResponseDict.from_cache := None |}.

Definition world_in_use : World :=
  {| cache_manager :=
       {| Cache.embedding_cache :=
            Cache.embedding_cache Cache.CacheManager_init;
          Cache.response_cache :=
            Cache.QueryResponseCache.set (H:=Cache.plain_digest)
              "What was revenue?" cached_response (Some "ACM") None 3 0
              (Cache.response_cache Cache.CacheManager_init);
          Cache.document_cache :=
            Cache.DocumentCache.set (H:=Cache.plain_digest)
              "What was revenue?" (fst <$> five_passages) (Some "ACM") None
              0 (Cache.document_cache Cache.CacheManager_init) |};
     conversations :=
       {["abc123" :=
           Conversation.add_message "user" "Hello" 0
             (Conversation.init 4000)]};
     clock := 1;
     searches := [] |}.

Definition request_without_session : QueryRequest.t :=
  {| QueryRequest.query := "What was revenue?";
     QueryRequest.ticker := Some "ACM";
     QueryRequest.doc_types := None;
     QueryRequest.top_k := 3;
     QueryRequest.session_id := None |}.

Definition request_in_session : QueryRequest.t :=
  {| QueryRequest.query := "What was revenue?";
     QueryRequest.ticker := Some "ACM";
     QueryRequest.doc_types := None;
     QueryRequest.top_k := 3;
     QueryRequest.session_id := Some "abc123" |}.

End Sample.

(** ** Frames *)


(** * Properties *)

(** ** Generic facts about [result] and the list helpers *)

Lemma for_each_Returns {A B} (f : A → result B) (g : A → B) (l : list A) :
  (∀ a, a ∈ l → f a = Returns (g a)) →
  for_each f l = Returns (g <$> l).
Proof.
  induction l as [|a l IH]; intros Hf; [done|].
  cbn. rewrite Hf by left. cbn.
  rewrite IH; [done|]. intros b Hb. apply Hf. by right.
Qed.

Lemma index_lookup {A} (l : list A) (i : nat) (a : A) :
  l !! i = Some a → index l i = Returns a.
Proof. unfold index. by intros ->. Qed.

Lemma slice_to_nonneg {A} (k : Z) (l : list A) :
  (0 ≤ k)%Z → slice_to k l = take (Z.to_nat k) l.
Proof.
  intros Hk. unfold slice_to.
  destruct (Z.ltb_spec k 0); [lia|done].
Qed.

(** ** Floating-point comparison and arithmetic *)

Lemma SFltb_rank (f1 f2 : spec_float) :
  f1 ≠ S754_nan → f2 ≠ S754_nan →
  SFltb f1 f2 = true ↔ rank_lt (rank f1) (rank f2).
Proof.
  intros H1 H2. unfold SFltb, SFcompare, rank_lt.
  destruct f1 as [s1|[]| |[] m1 e1], f2 as [s2|[]| |[] m2 e2];
    try done; cbn; try (split; [intros _; lia | done]);
    try (split; [done | lia]).
  - destruct (Z.compare_spec e1 e2) as [->|Hlt|Hgt]; cbn.
    + rewrite Pos.compare_cont_spec. cbn.
      destruct (Pos.compare_spec m1 m2); cbn; split; try done; lia.
    + split; [done|lia].
    + split; [intros _; lia|done].
  - destruct (Z.compare_spec e1 e2) as [->|Hlt|Hgt]; cbn.
    + rewrite Pos.compare_cont_spec. cbn.
      destruct (Pos.compare_spec m1 m2); cbn; split; try done; lia.
    + split; [intros _; lia|done].
    + split; [done|lia].
Qed.

Lemma is_nan_false (x : float) : is_nan x = false → Prim2SF x ≠ S754_nan.
Proof.
  unfold is_nan. rewrite FloatAxioms.eqb_spec. intros Hx Hnan.
  by rewrite Hnan in Hx.
Qed.

Lemma ltb_rank (x y : float) :
  is_nan x = false → is_nan y = false →
  ltb x y = true ↔ rank_lt (rank (Prim2SF x)) (rank (Prim2SF y)).
Proof.
  intros Hx%is_nan_false Hy%is_nan_false. rewrite ltb_spec.
  by apply SFltb_rank.
Qed.

Lemma ltb_asym (x y : float) :
  is_nan x = false → is_nan y = false →
  ltb x y = true → ltb y x = false.
Proof.
  intros Hx Hy Hlt%ltb_rank; [|done..].
  apply not_true_is_false. intros Hgt%ltb_rank; [|done..].
  unfold rank_lt in *. lia.
Qed.

Lemma ltb_neg_trans (x y z : float) :
  is_nan x = false → is_nan y = false → is_nan z = false →
  ltb x y = false → ltb y z = false → ltb x z = false.
Proof.
  intros Hx Hy Hz Hxy%not_true_iff_false Hyz%not_true_iff_false.
  apply not_true_is_false. intros Hxz%ltb_rank; [|done..].
  rewrite ltb_rank in Hxy, Hyz by done.
  unfold rank_lt in *. lia.
Qed.

Lemma ltb_trans (x y z : float) :
  is_nan x = false → is_nan y = false → is_nan z = false →
  ltb x y = true → ltb y z = true → ltb x z = true.
Proof.
  intros Hx Hy Hz. rewrite !ltb_rank by done. unfold rank_lt. lia.
Qed.

Lemma SFleb_rank (f1 f2 : spec_float) :
  f1 ≠ S754_nan → f2 ≠ S754_nan →
  SFleb f1 f2 = true ↔ ¬ rank_lt (rank f2) (rank f1).
Proof.
  intros H1 H2. unfold SFleb, SFcompare, rank_lt.
  destruct f1 as [s1|[]| |[] m1 e1], f2 as [s2|[]| |[] m2 e2];
    try done; cbn; try (split; [intros _; lia | done]);
    try (split; [done | lia]).
  - destruct (Z.compare_spec e1 e2) as [->|Hlt|Hgt]; cbn.
    + rewrite Pos.compare_cont_spec. cbn.
      destruct (Pos.compare_spec m1 m2); cbn; split; try done; lia.
    + split; [done|lia].
    + split; [intros _; lia|done].
  - destruct (Z.compare_spec e1 e2) as [->|Hlt|Hgt]; cbn.
    + rewrite Pos.compare_cont_spec. cbn.
      destruct (Pos.compare_spec m1 m2); cbn; split; try done; lia.
    + split; [intros _; lia|done].
    + split; [done|lia].
Qed.

Lemma leb_rank (x y : float) :
  is_nan x = false → is_nan y = false →
  PrimFloat.leb x y = true ↔ ¬ rank_lt (rank (Prim2SF y)) (rank (Prim2SF x)).
Proof.
  intros Hx%is_nan_false Hy%is_nan_false. rewrite leb_spec.
  by apply SFleb_rank.
Qed.

(** Among numbers, [<=] is the complement of [>]. *)
Lemma leb_not_ltb (x y : float) :
  is_nan x = false → is_nan y = false →
  PrimFloat.leb x y = true ↔ ltb y x = false.
Proof.
  intros Hx Hy. rewrite leb_rank by done.
  rewrite <- not_true_iff_false. by rewrite ltb_rank.
Qed.

Lemma ltb_leb (x y : float) :
  is_nan x = false → is_nan y = false →
  ltb x y = true → PrimFloat.leb x y = true.
Proof.
  intros Hx Hy Hlt. apply leb_not_ltb; [done..|]. by apply ltb_asym.
Qed.

Lemma leb_refl (x : float) : is_nan x = false → PrimFloat.leb x x = true.
Proof.
  intros Hx. rewrite leb_rank by done. unfold rank_lt. lia.
Qed.

(** A number not above [x] is below whatever is above [x]. *)
Lemma ltb_below (x y z : float) :
  is_nan x = false → is_nan y = false → is_nan z = false →
  ltb x y = false → ltb x z = true → ltb y z = true.
Proof.
  intros Hx Hy Hz Hxy%not_true_iff_false. rewrite ltb_rank in Hxy by done.
  rewrite !ltb_rank by done. unfold rank_lt in *. lia.
Qed.

Lemma nonfinite_add_l (a b : float) :
  nonfinite a = true → nonfinite (a + b) = true.
Proof.
  unfold nonfinite. rewrite add_spec. unfold SF64add, SFadd.
  destruct (Prim2SF a) as [| [] | |], (Prim2SF b) as [| [] | |]; done.
Qed.

Lemma nonfinite_add_r (a b : float) :
  nonfinite b = true → nonfinite (a + b) = true.
Proof.
  unfold nonfinite. rewrite add_spec. unfold SF64add, SFadd.
  destruct (Prim2SF a) as [| [] | |], (Prim2SF b) as [| [] | |]; done.
Qed.

Lemma nonfinite_mul_l (a b : float) :
  nonfinite a = true → nonfinite (a * b) = true.
Proof.
  unfold nonfinite. rewrite mul_spec. unfold SF64mul, SFmul.
  destruct (Prim2SF a) as [| [] | |], (Prim2SF b) as [| [] | |]; done.
Qed.

Lemma nonfinite_mul_r (a b : float) :
  nonfinite b = true → nonfinite (a * b) = true.
Proof.
  unfold nonfinite. rewrite mul_spec. unfold SF64mul, SFmul.
  destruct (Prim2SF a) as [| [] | |], (Prim2SF b) as [| [] | |]; done.
Qed.

Lemma eqb_zero (z : float) :
  PrimFloat.eqb z 0 = true → ∃ s, Prim2SF z = S754_zero s.
Proof.
  rewrite FloatAxioms.eqb_spec. unfold SFeqb, SFcompare.
  change (Prim2SF 0) with (S754_zero false).
  destruct (Prim2SF z) as [s| [] | | [] ]; try done. by exists s.
Qed.

(** Whatever is divided by zero, the quotient is a NaN or an infinity. *)
Lemma nonfinite_div_zero (x z : float) :
  PrimFloat.eqb z 0 = true → nonfinite (x / z) = true.
Proof.
  intros [s Hz]%eqb_zero. unfold nonfinite. rewrite div_spec, Hz.
  unfold SF64div, SFdiv. by destruct (Prim2SF x).
Qed.

(** ** Reranker *)

Module RerankerFacts.
Import Reranker.

Lemma filter_ne_id (x : nat) (l : list nat) :
  x ∉ l → filter (λ y, y ≠ x) l = l.
Proof.
  induction l as [|y l IH]; intros Hx; [done|].
  apply not_elem_of_cons in Hx as [Hxy Hx].
  rewrite filter_cons, decide_True by done. by rewrite IH.
Qed.

(** [l.remove(x)] on a duplicate-free list keeps exactly the other elements. *)
Lemma list_remove_filter (x : nat) (l : list nat) :
  NoDup l → list_remove x l = filter (λ y, y ≠ x) l.
Proof.
  induction 1 as [|y l Hy Hl IH]; [done|].
  rewrite filter_cons. cbn [list_remove].
  destruct (Nat.eqb_spec y x) as [->|Hne].
  - rewrite decide_False by naive_solver.
    by rewrite filter_ne_id.
  - rewrite decide_True by done. by rewrite IH.
Qed.

Section selection.
Context {numpy : Numpy}.
Variables (query_vec : list float) (doc_vecs : list (list float)).
Variable lambda : float.
Hypothesis rows_width : Forall (λ v, length v = length query_vec) doc_vecs.

Local Abbreviation n := (length doc_vecs).

Lemma doc_lookup (i : nat) :
  i < n → doc_vecs !! i = Some (doc doc_vecs i).
Proof.
  intros Hi. unfold doc.
  destruct (lookup_lt_is_Some_2 doc_vecs i Hi) as [v ->]. done.
Qed.

Lemma length_doc (i : nat) :
  i < n → length (doc doc_vecs i) = length query_vec.
Proof.
  intros Hi. apply doc_lookup in Hi.
  by apply (Forall_lookup_1 _ _ _ _ rows_width) in Hi.
Qed.

(** Normalising keeps the shape of a matrix. *)
Lemma normalize_shape (m : list (list float)) :
  Forall2 (λ row row', length row' = length row) m (normalize m).
Proof.
  unfold normalize. pose proof (np_linalg_norm_shape m) as Hlen.
  revert Hlen. generalize (np_linalg_norm m).
  induction m as [|row m IH]; intros [|x norms] Hlen; try done.
  cbn. constructor; [by rewrite length_fmap|].
  apply IH. cbn in Hlen. lia.
Qed.

Lemma normalize_one_row (u : list float) :
  normalize [u] = [default [] (head (normalize [u]))]
  ∧ length (default [] (head (normalize [u]))) = length u.
Proof.
  pose proof (normalize_shape [u]) as Hshape.
  apply Forall2_cons_inv_l in Hshape as (row & rest & Hrow & Hrest & ->).
  apply Forall2_nil_inv_l in Hrest as ->. done.
Qed.

Lemma normalize_widths (u : list float) (rows : list (list float)) :
  Forall (λ v, length v = length u) rows →
  Forall (λ row, length row = length (default [] (head (normalize [u]))))
    (normalize rows).
Proof.
  intros Hrows. destruct (normalize_one_row u) as [_ ->].
  apply Forall_forall. intros row' [i Hi]%list_elem_of_lookup.
  destruct (Forall2_lookup_r _ _ _ _ _ (normalize_shape rows) Hi)
    as (row & Hrow & ->).
  by apply (Forall_lookup_1 _ _ _ _ Hrows Hrow).
Qed.

Lemma length_cosines (u : list float) (rows : list (list float)) :
  Forall (λ v, length v = length u) rows →
  length (cosines u rows) = length rows.
Proof.
  intros Hrows. unfold cosines.
  rewrite np_dot_shape by by apply normalize_widths.
  symmetry. apply (Forall2_length _ _ _ (normalize_shape rows)).
Qed.

(** On rows of the width of [u], the matrix routine returns the
    similarities of [u] with the rows. *)
Lemma cosine_similarity_rows (u : list float) (rows : list (list float)) :
  rows ≠ [] →
  Forall (λ v, length v = length u) rows →
  _cosine_similarity u rows = Returns (cosines u rows).
Proof.
  intros Hne Hrows. unfold _cosine_similarity, cosines.
  destruct rows as [|r rows]; [done|].
  destruct (normalize_one_row u) as [-> _]. cbn [head default].
  rewrite (proj2 (forallb_forall _ _)); [done|].
  intros v Hv%list_elem_of_In. apply Nat.eqb_eq.
  by apply (proj1 (Forall_forall _ _) (normalize_widths u _ Hrows)).
Qed.

Lemma mmr_score_spec (selected : list nat) (idx : nat) :
  idx < n →
  Forall (λ j, j < n) selected →
  mmr_score lambda (cosines query_vec doc_vecs) doc_vecs selected idx
  = Returns (idx, mmr query_vec doc_vecs lambda selected idx).
Proof.
  intros Hidx Hsel. unfold mmr_score.
  rewrite (index_lookup _ _ (relevance query_vec doc_vecs idx)).
  2:{ unfold relevance.
      destruct (lookup_lt_is_Some_2 (cosines query_vec doc_vecs) idx)
        as [c ->]; [|done].
      by rewrite length_cosines. }
  cbn. unfold mmr, redundancy.
  destruct selected as [|j js]; [done|].
  rewrite (for_each_Returns _ (doc doc_vecs)).
  2:{ intros a Ha. apply index_lookup, doc_lookup.
      by apply (proj1 (Forall_forall _ _) Hsel). }
  cbn. rewrite (index_lookup _ _ _ (doc_lookup idx Hidx)). cbn.
  change (doc doc_vecs j :: (doc doc_vecs <$> js))
    with (doc doc_vecs <$> (j :: js)).
  assert (Forall (λ v, length v = length (doc doc_vecs idx))
            (doc doc_vecs <$> j :: js)) as Hwidths.
  { apply Forall_fmap, Forall_forall. intros a Ha. cbn.
    rewrite !length_doc; [done..|].
    by apply (proj1 (Forall_forall _ _) Hsel). }
  rewrite cosine_similarity_rows by done.
  cbn [mbind result_bind].
  destruct (cosines _ _) as [|c cs] eqn:Hcos; [|done].
  apply (f_equal length) in Hcos. by rewrite length_cosines in Hcos.
Qed.

Lemma py_max_by_argmax (f : nat → float) (i : nat) (cands : list nat) :
  py_max_by snd (i, f i) ((λ j, (j, f j)) <$> cands)
  = (argmax_first f i cands, f (argmax_first f i cands)).
Proof.
  unfold py_max_by. revert i.
  induction cands as [|c cands IH]; intros i; [done|].
  cbn. destruct (f i <? f c)%float; apply IH.
Qed.

Lemma argmax_first_elem (f : nat → float) (i : nat) (cands : list nat) :
  argmax_first f i cands ∈ i :: cands.
Proof.
  revert i. induction cands as [|c cands IH]; intros i; [by left|].
  cbn. destruct (f i <? f c)%float.
  - right. apply IH.
  - specialize (IH i). apply elem_of_cons in IH as [->|IH]; [by left|].
    by do 2 right.
Qed.

(** What the scan computes when the scores are numbers: the first index of
    maximum score.  Every candidate before it scores strictly less, no
    candidate after it scores more. *)
Lemma argmax_first_scan (f : nat → float) (before mid cands : list nat)
    (best : nat) :
  Forall (λ j, is_nan (f j) = false) (before ++ best :: mid ++ cands) →
  Forall (λ j, ltb (f j) (f best) = true) before →
  Forall (λ j, ltb (f best) (f j) = false) mid →
  ∃ before' after,
    before ++ best :: mid ++ cands
    = before' ++ argmax_first f best cands :: after
    ∧ Forall (λ j, ltb (f j) (f (argmax_first f best cands)) = true) before'
    ∧ Forall (λ j, ltb (f (argmax_first f best cands)) (f j) = false) after.
Proof.
  revert before mid best.
  induction cands as [|c cands IH]; intros before mid best Hnan Hbefore Hmid.
  { exists before, mid. by rewrite app_nil_r. }
  cbn [argmax_first].
  assert (is_nan (f best) = false ∧ is_nan (f c) = false) as [Hb Hc].
  { rewrite !Forall_app, !Forall_cons, !Forall_app, !Forall_cons in Hnan.
    tauto. }
  assert (∀ j, j ∈ before ∨ j ∈ mid → is_nan (f j) = false) as Hj.
  { rewrite Forall_forall in Hnan. intros j Hin. apply Hnan.
    rewrite elem_of_app, elem_of_cons, elem_of_app. tauto. }
  destruct (ltb (f best) (f c)) eqn:Hlt.
  - destruct (IH (before ++ best :: mid) [] c)
      as (before' & after & Heq & H1 & H2).
    + by rewrite <- !app_assoc.
    + rewrite Forall_app, Forall_cons. split; [|split; [done|]].
      * apply Forall_forall. intros j Hjb.
        apply (ltb_trans _ (f best)); auto.
        by apply (proj1 (Forall_forall _ _) Hbefore).
      * apply Forall_forall. intros j Hjm.
        apply (ltb_below (f best)); auto.
        by apply (proj1 (Forall_forall _ _) Hmid).
    + constructor.
    + exists before', after. split; [|done].
      rewrite <- Heq. by rewrite <- !app_assoc.
  - destruct (IH before (mid ++ [c]) best) as (before' & after & Heq & H1 & H2).
    + by rewrite <- !app_assoc.
    + done.
    + rewrite Forall_app, Forall_singleton. done.
    + exists before', after. split; [|done].
      rewrite <- Heq. by rewrite <- !app_assoc.
Qed.

Lemma argmax_first_maximal (f : nat → float) (i : nat) (cands : list nat) :
  Forall (λ j, is_nan (f j) = false) (i :: cands) →
  ∃ before after,
    i :: cands = before ++ argmax_first f i cands :: after
    ∧ Forall (λ j, ltb (f j) (f (argmax_first f i cands)) = true) before
    ∧ Forall (λ j, ltb (f (argmax_first f i cands)) (f j) = false) after.
Proof.
  intros Hnan. by apply (argmax_first_scan f [] [] cands i).
Qed.

Lemma NoDup_unselected (selected : list nat) :
  NoDup (unselected doc_vecs selected).
Proof. apply NoDup_filter, NoDup_seq. Qed.

Lemma unselected_lt (selected : list nat) (i : nat) :
  i ∈ unselected doc_vecs selected → i < n.
Proof.
  unfold unselected. rewrite list_elem_of_filter, elem_of_seq. lia.
Qed.

Lemma unselected_nil : unselected doc_vecs [] = seq 0 n.
Proof.
  unfold unselected. induction (seq 0 n) as [|x l IH]; [done|].
  rewrite filter_cons, decide_True by apply not_elem_of_nil. by rewrite IH.
Qed.

Lemma unselected_snoc (selected : list nat) (b : nat) :
  unselected doc_vecs (selected ++ [b])
  = filter (λ y, y ≠ b) (unselected doc_vecs selected).
Proof.
  unfold unselected. rewrite list_filter_filter.
  apply list_filter_iff. intros x.
  rewrite not_elem_of_app, list_elem_of_singleton. tauto.
Qed.

(** The loop of [rerank] and the greedy selection of the specification
    agree round by round. *)
Lemma mmr_select_spec (rounds : nat) (selected : list nat) :
  Forall (λ j, j < n) selected →
  mmr_select rounds lambda (cosines query_vec doc_vecs) doc_vecs
    selected (unselected doc_vecs selected)
  = Returns (greedy_mmr query_vec doc_vecs lambda rounds selected).
Proof.
  revert selected.
  induction rounds as [|rounds IH]; intros selected Hsel; [done|].
  cbn [mmr_select greedy_mmr].
  destruct (unselected doc_vecs selected) as [|i cands] eqn:Hun; [done|].
  rewrite (for_each_Returns _
    (λ j, (j, mmr query_vec doc_vecs lambda selected j))).
  2:{ intros a Ha. apply mmr_score_spec; [|done].
      apply (unselected_lt selected). by rewrite Hun. }
  cbn [mbind result_bind fmap list_fmap].
  rewrite py_max_by_argmax. cbn [fst].
  set (b := argmax_first _ i cands).
  rewrite list_remove_filter by (rewrite <- Hun; apply NoDup_unselected).
  rewrite <- Hun, <- unselected_snoc. apply IH.
  apply Forall_app. split; [done|]. apply Forall_singleton.
  apply (unselected_lt selected). rewrite Hun. apply argmax_first_elem.
Qed.

Lemma greedy_mmr_lt (rounds : nat) (selected : list nat) :
  Forall (λ j, j < n) selected →
  Forall (λ j, j < n) (greedy_mmr query_vec doc_vecs lambda rounds selected).
Proof.
  revert selected.
  induction rounds as [|rounds IH]; intros selected Hsel; [done|].
  cbn [greedy_mmr].
  destruct (unselected doc_vecs selected) as [|i cands] eqn:Hun; [done|].
  apply IH, Forall_app. split; [done|]. apply Forall_singleton.
  apply (unselected_lt selected). rewrite Hun. apply argmax_first_elem.
Qed.

Lemma unselected_nonempty (selected : list nat) :
  NoDup selected → length selected < n →
  unselected doc_vecs selected ≠ [].
Proof.
  intros Hnd Hlen Hnil.
  assert (seq 0 n ⊆+ selected) as Hsub.
  { apply NoDup_submseteq; [apply NoDup_seq|]. intros i Hi.
    destruct (decide (i ∈ selected)) as [|Hout]; [done|].
    assert (i ∈ unselected doc_vecs selected) as Hin
      by (by apply list_elem_of_filter).
    rewrite Hnil in Hin. by apply elem_of_nil in Hin. }
  apply submseteq_length in Hsub. rewrite length_seq in Hsub. lia.
Qed.

(** With enough documents left, every round selects a new index. *)
Lemma greedy_mmr_length (rounds : nat) (selected : list nat) :
  NoDup selected → length selected + rounds ≤ n →
  NoDup (greedy_mmr query_vec doc_vecs lambda rounds selected)
  ∧ length (greedy_mmr query_vec doc_vecs lambda rounds selected)
    = length selected + rounds.
Proof.
  revert selected.
  induction rounds as [|rounds IH]; intros selected Hnd Hlen.
  { cbn. split; [done|lia]. }
  cbn [greedy_mmr].
  destruct (unselected doc_vecs selected) as [|i cands] eqn:Hun.
  { by destruct (unselected_nonempty selected Hnd); [lia|]. }
  set (b := argmax_first _ i cands).
  assert (b ∉ selected) as Hb.
  { pose proof (argmax_first_elem (mmr query_vec doc_vecs lambda selected)
                  i cands) as Hin.
    rewrite <- Hun in Hin. by apply list_elem_of_filter in Hin as [? _]. }
  destruct (IH (selected ++ [b])) as [Hnd' Hlen'].
  - apply NoDup_app. split; [done|]. split; [|apply NoDup_singleton].
    by intros x Hx ->%list_elem_of_singleton.
  - rewrite length_app. cbn. lia.
  - split; [done|]. rewrite Hlen', length_app. cbn. lia.
Qed.

(** *** The rounds of the loop and the score of the specification *)

Lemma elem_of_unselected (selected : list nat) (i : nat) :
  i ∈ unselected doc_vecs selected ↔ i < n ∧ i ∉ selected.
Proof.
  unfold unselected. rewrite list_elem_of_filter, elem_of_seq.
  split; [intros [? ?]|intros [? ?]]; split; (done || lia).
Qed.

Lemma StronglySorted_filter_seq (P : nat → Prop) `{∀ i, Decision (P i)}
    (start len : nat) :
  StronglySorted lt (filter P (seq start len)).
Proof.
  revert start. induction len as [|len IH]; intros start; [constructor|].
  cbn [seq]. rewrite filter_cons.
  destruct (decide (P start)); [|apply IH].
  constructor; [apply IH|].
  apply Forall_forall. intros i [_ Hi%elem_of_seq]%list_elem_of_filter. lia.
Qed.

(** The candidates of a round stand in increasing order: the iteration
    order of [remaining_indices]. *)
Lemma StronglySorted_unselected (selected : list nat) :
  StronglySorted lt (unselected doc_vecs selected).
Proof. apply StronglySorted_filter_seq. Qed.

(** On numbers, [np.max] is the maximum. *)
Lemma fold_fmax_maximum (cs : list float) (c : float) :
  Forall (λ x, is_nan x = false) (c :: cs) →
  fold_left fmax cs c = MMR.maximum c cs.
Proof.
  unfold MMR.maximum. revert c.
  induction cs as [|x cs IH]; intros c Hnan; [done|].
  apply Forall_cons in Hnan as [Hc Hnan].
  apply Forall_cons in Hnan as [Hx Hnan].
  cbn [fold_left]. unfold fmax at 2. rewrite Hc, Hx.
  apply IH. constructor; [|done]. by destruct (c <? x)%float.
Qed.

(** When the scores of a candidate are numbers, the loop scores it as the
    specification does. *)
Lemma mmr_score_words (selected : list nat) (i : nat) :
  MMR.numbers query_vec doc_vecs lambda selected i →
  mmr query_vec doc_vecs lambda selected i
  = MMR.score query_vec doc_vecs lambda selected i.
Proof.
  intros [Hcos _]. unfold mmr, MMR.score. f_equal. f_equal.
  unfold redundancy, MMR.redundancy.
  destruct selected as [|j js]; [done|].
  change (cosines (doc doc_vecs i) (doc doc_vecs <$> j :: js))
    with (MMR.cosines (MMR.doc doc_vecs i) (MMR.doc doc_vecs <$> j :: js)).
  destruct (MMR.cosines _ _) as [|c cs]; [done|].
  by apply fold_fmax_maximum.
Qed.

(** What a round of the loop selects, round by round. *)
Lemma greedy_mmr_rounds (rounds : nat) (selected : list nat) :
  NoDup selected → length selected + rounds ≤ n →
  ∃ rest,
    greedy_mmr query_vec doc_vecs lambda rounds selected = selected ++ rest
    ∧ ∀ t p, rest !! t = Some p →
        ∃ i cands,
          unselected doc_vecs (selected ++ take t rest) = i :: cands
          ∧ p = argmax_first
                  (mmr query_vec doc_vecs lambda (selected ++ take t rest))
                  i cands.
Proof.
  revert selected.
  induction rounds as [|rounds IH]; intros selected Hnd Hlen.
  { exists []. split; [by rewrite app_nil_r|]. by intros t p. }
  cbn [greedy_mmr].
  destruct (unselected doc_vecs selected) as [|i cands] eqn:Hun.
  { by destruct (unselected_nonempty selected Hnd); [lia|]. }
  set (b := argmax_first _ i cands).
  assert (b ∉ selected) as Hb.
  { pose proof (argmax_first_elem (mmr query_vec doc_vecs lambda selected)
                  i cands) as Hin.
    rewrite <- Hun in Hin. by apply list_elem_of_filter in Hin as [? _]. }
  destruct (IH (selected ++ [b])) as (rest & Hrest & Hrounds).
  - apply NoDup_app. split; [done|]. split; [|apply NoDup_singleton].
    by intros x Hx ->%list_elem_of_singleton.
  - rewrite length_app. cbn. lia.
  - exists (b :: rest). split; [by rewrite Hrest, <- app_assoc|].
    intros [|t] p Hp.
    + injection Hp as <-. exists i, cands.
      cbn [take]. by rewrite app_nil_r.
    + change (take (S t) (b :: rest)) with (b :: take t rest).
      rewrite cons_middle, (assoc_L (++)). by apply Hrounds.
Qed.

(** The pick of a round whose scores are numbers: no candidate scores more,
    every candidate before it scores less, and it is the one index of which
    this is true. *)
Lemma argmax_first_pick (selected : list nat) (i : nat) (cands : list nat) :
  let score := MMR.score query_vec doc_vecs lambda selected in
  let candidate c := c < n ∧ c ∉ selected in
  let p := argmax_first (mmr query_vec doc_vecs lambda selected) i cands in
  unselected doc_vecs selected = i :: cands →
  (∀ c, candidate c → MMR.numbers query_vec doc_vecs lambda selected c) →
  (∀ c, candidate c → PrimFloat.leb (score c) (score p) = true)
  ∧ (∀ c, candidate c → c < p → ltb (score c) (score p) = true)
  ∧ (∀ p', candidate p' →
       (∀ c, candidate c → PrimFloat.leb (score c) (score p') = true) →
       (∀ c, candidate c → c < p' → ltb (score c) (score p') = true) →
       p' = p).
Proof.
  intros score candidate p Hun Hnum.
  assert (∀ c, candidate c →
            mmr query_vec doc_vecs lambda selected c = score c
            ∧ is_nan (score c) = false) as Hwords.
  { intros c Hc. split; [by apply mmr_score_words, Hnum|].
    by destruct (Hnum c Hc). }
  assert (∀ c, c ∈ i :: cands ↔ candidate c) as Hcands.
  { intros c. by rewrite <- Hun, elem_of_unselected. }
  assert (candidate p) as Hp by apply Hcands, argmax_first_elem.
  destruct (argmax_first_maximal (mmr query_vec doc_vecs lambda selected)
              i cands) as (before & after & Hsplit & Hbefore & Hafter).
  { apply Forall_forall. intros c Hc%Hcands.
    destruct (Hwords c Hc) as [-> ?]. done. }
  fold p in Hsplit, Hbefore, Hafter.
  rewrite Forall_forall in Hbefore, Hafter.
  pose proof (StronglySorted_unselected selected) as Hsorted.
  rewrite Hun, Hsplit in Hsorted.
  assert (∀ c, candidate c → c ∈ before ∨ c = p ∨ c ∈ after) as Hwhere.
  { intros c Hc%Hcands. rewrite Hsplit in Hc.
    by rewrite elem_of_app, elem_of_cons in Hc. }
  assert (∀ c, c ∈ after → p < c) as Hlater.
  { apply StronglySorted_app_1_r, StronglySorted_cons in Hsorted
      as [Hlater _].
    by apply Forall_forall. }
  assert (∀ c, candidate c → c < p → ltb (score c) (score p) = true)
    as Hfirst.
  { intros c Hc Hlt. destruct (Hwhere c Hc) as [Hin|[->|Hin%Hlater]];
      [|lia..].
    specialize (Hbefore c Hin).
    destruct (Hwords c Hc) as [Hc' _], (Hwords p Hp) as [Hp' _].
    by rewrite Hc', Hp' in Hbefore. }
  assert (∀ c, candidate c → PrimFloat.leb (score c) (score p) = true)
    as Hmax.
  { intros c Hc.
    destruct (Hwords c Hc) as [Hc' Hcn], (Hwords p Hp) as [Hp' Hpn].
    destruct (Hwhere c Hc) as [Hin|[->|Hin]].
    - specialize (Hbefore c Hin). rewrite Hc', Hp' in Hbefore.
      by apply ltb_leb.
    - by apply leb_refl.
    - apply leb_not_ltb; [done..|].
      specialize (Hafter c Hin). by rewrite Hc', Hp' in Hafter. }
  split; [done|]. split; [done|].
  intros p' Hp' Hmax' Hfirst'.
  destruct (Hwords p Hp) as [_ Hpn], (Hwords p' Hp') as [_ Hpn'].
  destruct (Nat.lt_trichotomy p' p) as [Hlt|[->|Hlt]]; [|done|].
  - specialize (Hfirst p' Hp' Hlt). specialize (Hmax' p Hp).
    apply leb_not_ltb in Hmax'; [congruence|done..].
  - specialize (Hfirst' p Hp Hlt). specialize (Hmax p' Hp').
    apply leb_not_ltb in Hmax; [congruence|done..].
Qed.
End selection.

Lemma for_each_index {A} (l : list A) (idxs : list nat) :
  Forall (λ i, i < length l) idxs →
  ∃ out, for_each (index l) idxs = Returns out
         ∧ Forall2 (λ i a, l !! i = Some a) idxs out.
Proof.
  induction 1 as [|i idxs Hi His (out & Hout & IH)].
  - exists []. split; [done|constructor].
  - destruct (lookup_lt_is_Some_2 l i Hi) as [a Ha].
    exists (a :: out). split.
    + cbn. rewrite (index_lookup _ _ _ Ha). cbn. by rewrite Hout.
    + by constructor.
Qed.

Lemma np_array_rectangular (d : nat) (rows : list (list float)) :
  Forall (λ v, length v = d) rows → np_array rows = Returns rows.
Proof.
  intros Hrows. destruct rows as [|r rows]; [done|].
  apply Forall_cons in Hrows as [Hr Hrows]. cbn.
  rewrite (proj2 (forallb_forall _ _)); [done|].
  intros v Hv. apply Nat.eqb_eq. rewrite Hr.
  by apply (proj1 (Forall_forall _ _) Hrows), list_elem_of_In.
Qed.

Section greedy.
Context {numpy : Numpy}.

(** C1, as amended.  When the embedding calls succeed (one vector per
    document, all of the query vector's dimension) and there are more
    documents than [top_k], [rerank] returns the documents at [top_k]
    distinct indices, in the order in which the rounds picked them.  The pick
    of a round is an index that is not selected yet; and in every round in
    which the scores are numbers (no cosine of a candidate with a selected
    document and no score of a candidate is NaN), it is the index of maximum
    score, the first in index order among those of maximum score, where the
    score of the candidate [i] is
    [lambda * cosine(query, doc[i]) - (1 - lambda) * r], with [r] the maximum
    of [cosine(doc[i], doc[j])] over the selected [j], or 0 when nothing is
    selected yet.  No other index has these two properties, so the picks are
    a function of the embeddings, [lambda] and [top_k] alone.  This holds
    whatever the rounding of numpy's norm and product. *)
Theorem rerank_greedy_mmr (E : Embedder) (query : string)
    (documents : list Document) (top_k : Z) (lambda : float)
    (query_vec : list float) (doc_vecs : list (list float)) :
  (top_k < Z.of_nat (length documents))%Z →
  embed_query E query = Returns query_vec →
  embed_documents E (page_content <$> documents) = Returns doc_vecs →
  length doc_vecs = length documents →
  Forall (λ v, length v = length query_vec) doc_vecs →
  ∃ picks out,
    rerank E query documents top_k lambda = Returns out
    ∧ Forall2 (λ i d, documents !! i = Some d) picks out
    ∧ length picks = Z.to_nat top_k
    ∧ NoDup picks
    ∧ ∀ t p, picks !! t = Some p →
        let selected := take t picks in
        let score := MMR.score query_vec doc_vecs lambda selected in
        let candidate i := i < length documents ∧ i ∉ selected in
        candidate p
        ∧ ((∀ i, candidate i →
              MMR.numbers query_vec doc_vecs lambda selected i) →
           (∀ i, candidate i → PrimFloat.leb (score i) (score p) = true)
           ∧ (∀ i, candidate i → i < p → ltb (score i) (score p) = true)
           ∧ (∀ p', candidate p' →
                (∀ i, candidate i →
                      PrimFloat.leb (score i) (score p') = true) →
                (∀ i, candidate i → i < p' →
                      ltb (score i) (score p') = true) →
                p' = p)).
Proof.
  intros Hk Hq Hd Hlen Hrows.
  set (picks := greedy_mmr query_vec doc_vecs lambda (Z.to_nat top_k) []).
  destruct (greedy_mmr_length query_vec doc_vecs lambda (Z.to_nat top_k) [])
    as [Hnd Hpicks]; [constructor|cbn; lia|].
  destruct (greedy_mmr_rounds query_vec doc_vecs lambda (Z.to_nat top_k) [])
    as (rest & Hrest & Hrounds); [constructor|cbn; lia|].
  cbn [app length] in Hrest, Hrounds, Hpicks. fold picks in Hnd, Hpicks.
  assert (rest = picks) as -> by done. clear Hrest.
  destruct (for_each_index documents picks) as (out & Hout & Hsel).
  { rewrite <- Hlen. by apply greedy_mmr_lt. }
  exists picks, out. split; [|split; [done|split; [done|split; [done|]]]].
  { destruct documents as [|d0 ds] eqn:Hdocs.
    { cbn in Hk. assert (Z.to_nat top_k = 0) as Hzero by lia.
      unfold picks in Hout. rewrite Hzero in Hout. cbn in Hout.
      by injection Hout as <-. }
    rewrite <- Hdocs in *.
    unfold rerank. rewrite Hdocs at 1.
    destruct (Z.leb_spec (Z.of_nat (length documents)) top_k) as [?|_];
      [lia|].
    unfold rerank_mmr. rewrite Hq, Hd. cbn [mbind result_bind].
    rewrite (np_array_rectangular _ _ Hrows). cbn [mbind result_bind].
    rewrite cosine_similarity_rows; [|by intros ->; subst|done].
    cbn [mbind result_bind].
    rewrite Z.min_l by lia.
    rewrite <- Hlen, <- unselected_nil.
    rewrite mmr_select_spec by done.
    cbn [mbind result_bind]. fold picks. by rewrite Hout. }
  intros t p Hp. cbn zeta.
  destruct (Hrounds t p Hp) as (i & cands & Hun & Hpick).
  rewrite <- Hlen. split.
  { apply elem_of_unselected. rewrite Hun, Hpick.
    apply argmax_first_elem. }
  intros Hnum. rewrite Hpick.
  by apply argmax_first_pick.
Qed.
End greedy.

Lemma rerank_greedy_mmr_witness :
  let documents := sample_documents in
  let query_vec := [1; 0]%float in
  let doc_vecs := [[3; 4]; [0; 2]; [1; 0]; [0; 2]]%float in
  ∃ picks out,
    rerank (numpy:=left_to_right) plane_embedder "q" documents 2 0.5
    = Returns out
    ∧ Forall2 (λ i d, documents !! i = Some d) picks out
    ∧ length picks = Z.to_nat 2
    ∧ NoDup picks
    ∧ ∀ t p, picks !! t = Some p →
        let selected := take t picks in
        let score :=
          MMR.score (numpy:=left_to_right) query_vec doc_vecs 0.5 selected in
        let candidate i := i < length documents ∧ i ∉ selected in
        candidate p
        ∧ ((∀ i, candidate i →
              MMR.numbers (numpy:=left_to_right) query_vec doc_vecs 0.5
                selected i) →
           (∀ i, candidate i → PrimFloat.leb (score i) (score p) = true)
           ∧ (∀ i, candidate i → i < p → ltb (score i) (score p) = true)
           ∧ (∀ p', candidate p' →
                (∀ i, candidate i →
                      PrimFloat.leb (score i) (score p') = true) →
                (∀ i, candidate i → i < p' →
                      ltb (score i) (score p') = true) →
                p' = p)).
Proof.
  apply (rerank_greedy_mmr (numpy:=left_to_right)).
  - cbn. lia.
  - reflexivity.
  - reflexivity.
  - reflexivity.
  - repeat constructor.
Defined.

(** The sample: the document that lies on the query comes first; the three
    that are left then score 0 alike, and the first of them is picked. *)
Example rerank_sample :
  rerank (numpy:=left_to_right) plane_embedder "q" sample_documents 2 0.5
  = Returns [passage "debt" (Some 0.75%float);
             passage "revenue" (Some 0.25%float)]
  ∧ MMR.score (numpy:=left_to_right) [1; 0]%float
      [[3; 4]; [0; 2]; [1; 0]; [0; 2]]%float 0.5 [2]
    <$> [0; 1; 3]
    = [0; 0; 0]%float.
Proof. by vm_compute. Qed.

(** C1, as stated, fails where a score is NaN.  The second document
    embeds as the zero vector, so its cosines and its score are NaN
    ([0.0 / 0.0]).  The first round picks the first document; in the second
    round the second document stands first among the candidates and no
    comparison with a NaN replaces it, so it is picked, although the third
    document has the score 0, which the NaN does not reach. *)
Lemma rerank_picks_nan :
  let documents := take 3 sample_documents in
  let doc_vecs := [[1; 0]; [0; 0]; [0; 1]]%float in
  let score :=
    MMR.score (numpy:=left_to_right) [1; 0]%float doc_vecs 0.5 [0] in
  embed_query zero_vector_embedder "q" = Returns [1; 0]%float
  ∧ embed_documents zero_vector_embedder (page_content <$> documents)
    = Returns doc_vecs
  ∧ rerank (numpy:=left_to_right) zero_vector_embedder "q" documents 2 0.5
    = Returns [passage "revenue" (Some 0.25%float); passage "risks" None]
  ∧ is_nan (score 1) = true
  ∧ score 2 = 0%float
  ∧ PrimFloat.leb (score 2) (score 1) = false.
Proof. by vm_compute. Qed.

Section short_circuit.
Context {numpy : Numpy}.

(** C5. With at most [top_k] documents, or none at all, [rerank] returns
    its input as it is, in the same order, whatever the embedding model would
    answer: nothing is embedded or scored. *)
Theorem rerank_short_circuit (E : Embedder) (query : string)
    (documents : list Document) (top_k : Z) (lambda : float) :
  documents = [] ∨ (Z.of_nat (length documents) ≤ top_k)%Z →
  rerank E query documents top_k lambda = Returns documents.
Proof.
  intros Hk. unfold rerank. destruct documents as [|d ds]; [done|].
  destruct Hk as [?|Hk]; [done|].
  by destruct (Z.leb_spec (Z.of_nat (length (d :: ds))) top_k); [|lia].
Qed.
End short_circuit.

Lemma rerank_short_circuit_witness :
  rerank (numpy:=left_to_right) failing_embedder "q" sample_documents 4 0.5
  = Returns sample_documents.
Proof. apply rerank_short_circuit. right. cbn. lia. Defined.

(** *** The fallback order *)

Lemma sorted_insert_perm (d : Document) (l : list Document) :
  d :: l ≡ₚ sorted_insert d l.
Proof.
  induction l as [|e l IH]; [done|].
  cbn. destruct (ltb _ _); [|done].
  rewrite <- IH. apply Permutation_swap.
Qed.

Lemma sorted_reverse_perm (l : list Document) : l ≡ₚ sorted_reverse l.
Proof.
  induction l as [|d l IH]; [done|].
  cbn. rewrite <- sorted_insert_perm. by constructor.
Qed.

Lemma comparableb_spec (ks : list float) :
  comparableb ks = true →
  (∀ a b, a ∈ ks → b ∈ ks → ltb a b = true → ltb b a = false)
  ∧ (∀ a b c, a ∈ ks → b ∈ ks → c ∈ ks →
       ltb a b = false → ltb b c = false → ltb a c = false).
Proof.
  unfold comparableb. rewrite forallb_forall. intros H. split.
  - intros a b Ha%list_elem_of_In Hb%list_elem_of_In Hab.
    specialize (H a Ha). rewrite forallb_forall in H.
    specialize (H b Hb). apply andb_prop in H as [H _].
    rewrite Hab in H. by destruct (ltb b a).
  - intros a b c Ha%list_elem_of_In Hb%list_elem_of_In Hc%list_elem_of_In
      Hab Hbc.
    specialize (H a Ha). rewrite forallb_forall in H.
    specialize (H b Hb). apply andb_prop in H as [_ H].
    rewrite forallb_forall in H. specialize (H c Hc).
    rewrite Hab, Hbc in H. by destruct (ltb a c).
Qed.

(** Keys free of NaN are comparable. *)
Lemma comparableb_no_nan (ks : list float) :
  Forall (λ k, is_nan k = false) ks → comparableb ks = true.
Proof.
  intros Hks. rewrite Forall_forall in Hks.
  unfold comparableb. apply forallb_forall. intros a Ha%list_elem_of_In.
  apply forallb_forall. intros b Hb%list_elem_of_In.
  apply andb_true_intro. split.
  - destruct (ltb a b) eqn:Hab; [|done]. cbn.
    by rewrite ltb_asym by auto.
  - apply forallb_forall. intros c Hc%list_elem_of_In.
    destruct (ltb a b) eqn:Hab; [done|].
    destruct (ltb b c) eqn:Hbc; [done|]. cbn.
    by rewrite (ltb_neg_trans a b c) by auto.
Qed.

Lemma sorted_insert_sorted (ks : list float) (d : Document)
    (l : list Document) :
  comparableb ks = true →
  fallback_key d ∈ ks →
  Forall (λ e, fallback_key e ∈ ks) l →
  StronglySorted not_below l →
  StronglySorted not_below (sorted_insert d l).
Proof.
  intros [Hasym Htrans]%comparableb_spec Hd Hl Hsorted.
  induction Hsorted as [|e l Hsorted IH He]; [repeat constructor|].
  apply Forall_cons in Hl as [Hek Hl].
  cbn. destruct (ltb (fallback_key d) (fallback_key e)) eqn:Hlt.
  - constructor; [by apply IH|].
    rewrite <- sorted_insert_perm. constructor; [|done].
    by apply Hasym.
  - constructor; [by constructor|].
    constructor; [done|].
    apply Forall_forall. intros x Hx.
    apply (Htrans _ (fallback_key e)); try done.
    + by apply (proj1 (Forall_forall _ _) Hl).
    + by apply (proj1 (Forall_forall _ _) He).
Qed.

Lemma sorted_reverse_sorted_on (ks : list float) (l : list Document) :
  comparableb ks = true →
  Forall (λ e, fallback_key e ∈ ks) l →
  StronglySorted not_below (sorted_reverse l).
Proof.
  intros Hks. induction l as [|d l IH]; intros Hsub; [constructor|].
  apply Forall_cons in Hsub as [Hd Hsub]. cbn.
  apply (sorted_insert_sorted ks); try done.
  - by rewrite <- sorted_reverse_perm.
  - by apply IH.
Qed.

Lemma sorted_reverse_sorted (l : list Document) :
  comparableb (fallback_key <$> l) = true →
  StronglySorted not_below (sorted_reverse l).
Proof.
  intros Hks. apply (sorted_reverse_sorted_on _ _ Hks).
  apply Forall_forall. intros x Hx. by apply list_elem_of_fmap_2.
Qed.

Lemma StronglySorted_lookup {A} (R : relation A) (l : list A) (i j : nat)
    (a b : A) :
  StronglySorted R l → i < j → l !! i = Some a → l !! j = Some b → R a b.
Proof.
  intros Hsorted. revert i j.
  induction Hsorted as [|x l Hsorted IH Hx]; intros i j Hij Ha Hb; [done|].
  destruct j as [|j]; [lia|]. cbn in Hb.
  destruct i as [|i].
  - injection Ha as <-. rewrite Forall_forall in Hx.
    by apply Hx, (list_elem_of_lookup_2 _ j).
  - cbn in Ha. apply (IH i j); [lia|done..].
Qed.

Section fallback.
Context {numpy : Numpy}.

(** A failure of either embedding call fails the MMR computation. *)
Lemma rerank_mmr_embedding_failure (E : Embedder) (query : string)
    (documents : list Document) (top_k : Z) (lambda : float) (e : exn) :
  embed_query E query = Raises e
  ∨ (∃ v, embed_query E query = Returns v)
    ∧ embed_documents E (page_content <$> documents) = Raises e →
  rerank_mmr E query documents top_k lambda = Raises e.
Proof.
  unfold rerank_mmr. intros [->|[[v ->] Hd]]; [done|].
  cbn. by rewrite Hd.
Qed.

(** C4, as amended.  When the MMR computation raises (an embedding call
    or a later step fails) on more than [top_k] documents of which no
    [similarity_score] is NaN, [rerank] still returns: the first [top_k]
    documents ([sorted_docs[:top_k]]) of the input sorted by
    [similarity_score], a missing score counting as 0, in descending order:
    in the sorted list no document has a greater score than a document
    before it. *)
Theorem rerank_fallback (E : Embedder) (query : string)
    (documents : list Document) (top_k : Z) (lambda : float) (e : exn) :
  let score d := default 0%float (similarity_score (metadata d)) in
  (top_k < Z.of_nat (length documents))%Z →
  rerank_mmr E query documents top_k lambda = Raises e →
  Forall (λ d, is_nan (score d) = false) documents →
  ∃ sorted_docs,
    rerank E query documents top_k lambda
    = Returns (slice_to top_k sorted_docs)
    ∧ documents ≡ₚ sorted_docs
    ∧ (∀ i j a b,
         i < j → sorted_docs !! i = Some a → sorted_docs !! j = Some b →
         PrimFloat.leb (score b) (score a) = true)
    ∧ ((0 ≤ top_k)%Z →
       slice_to top_k sorted_docs = take (Z.to_nat top_k) sorted_docs).
Proof.
  intros score Hk Hraise Hnan.
  assert (comparableb (fallback_key <$> documents) = true) as Hks
    by (by apply comparableb_no_nan, Forall_fmap).
  exists (sorted_reverse documents).
  split; [|split; [|split]].
  - unfold rerank. destruct documents as [|d ds] eqn:Hdocs.
    { unfold slice_to. cbn [sorted_reverse foldr].
      by destruct (top_k <? 0)%Z; rewrite take_nil. }
    rewrite <- Hdocs in *.
    destruct (Z.leb_spec (Z.of_nat (length documents)) top_k) as [?|_]; [lia|].
    by rewrite Hraise.
  - apply sorted_reverse_perm.
  - intros i j a b Hij Ha Hb.
    assert (∀ d, d ∈ sorted_reverse documents → is_nan (score d) = false)
      as Hnum.
    { intros d Hd. rewrite <- sorted_reverse_perm in Hd.
      by apply (proj1 (Forall_forall _ _) Hnan). }
    apply leb_not_ltb.
    + by apply Hnum, (list_elem_of_lookup_2 _ j).
    + by apply Hnum, (list_elem_of_lookup_2 _ i).
    + by apply (StronglySorted_lookup not_below (sorted_reverse documents)
                  i j a b (sorted_reverse_sorted documents Hks)).
  - apply slice_to_nonneg.
Qed.
End fallback.

Lemma rerank_fallback_witness :
  let score d := default 0%float (similarity_score (metadata d)) in
  ∃ sorted_docs,
    rerank (numpy:=left_to_right) failing_embedder "q" sample_documents 2 0.5
    = Returns (slice_to 2 sorted_docs)
    ∧ sample_documents ≡ₚ sorted_docs
    ∧ (∀ i j a b,
         i < j → sorted_docs !! i = Some a → sorted_docs !! j = Some b →
         PrimFloat.leb (score b) (score a) = true)
    ∧ ((0 ≤ 2)%Z → slice_to 2 sorted_docs = take (Z.to_nat 2) sorted_docs).
Proof.
  apply (rerank_fallback (numpy:=left_to_right) _ _ _ _ _ ExternalError).
  - cbn. lia.
  - reflexivity.
  - repeat constructor.
Defined.

Example rerank_fallback_sample :
  rerank (numpy:=left_to_right) failing_embedder "q" sample_documents 2 0.5
  = Returns [passage "debt" (Some 0.75%float); passage "cash" (Some 0.5%float)].
Proof. reflexivity. Qed.

(** C4, as stated, fails where a score is NaN.  Of three documents with
    the scores 1, NaN and 2, the fallback returns the first two as they
    stand: every comparison with the NaN is false, so the sort finds nothing
    to move.  The document with the greatest score is left out, and what is
    returned is not the beginning of any descending arrangement of the
    input. *)
Lemma rerank_fallback_nan_score :
  let score d := default 0%float (similarity_score (metadata d)) in
  let out := [passage "a" (Some 1%float); passage "b" (Some nan)] in
  rerank (numpy:=left_to_right) failing_embedder "q" nan_documents 2 0.5
  = Returns out
  ∧ (passage "c" (Some 2%float) ∈ nan_documents)
  ∧ (passage "c" (Some 2%float) ∉ out)
  ∧ ltb (score (passage "a" (Some 1%float)))
      (score (passage "c" (Some 2%float))) = true
  ∧ ¬ ∃ sorted_docs,
        out = slice_to 2 sorted_docs
        ∧ nan_documents ≡ₚ sorted_docs
        ∧ ∀ i j a b,
            i < j → sorted_docs !! i = Some a → sorted_docs !! j = Some b →
            PrimFloat.leb (score b) (score a) = true.
Proof.
  cbn zeta. split; [reflexivity|]. split; [by do 2 right; left|].
  split.
  { intros Hin. apply elem_of_cons in Hin as [Heq|Hin]; [done|].
    apply elem_of_cons in Hin as [Heq|Hin]; [done|].
    by apply elem_of_nil in Hin. }
  split; [reflexivity|].
  intros (sorted_docs & Hout & _ & Hsorted).
  rewrite slice_to_nonneg in Hout by done.
  destruct sorted_docs as [|x [|y sorted_docs]]; try done.
  cbn in Hout. injection Hout as <- <-.
  by specialize (Hsorted 0 1 _ _ (Nat.lt_0_1) eq_refl eq_refl).
Qed.

(** *** Vectors of norm zero

    The reductions are the ones that add from left to right. *)

Section zero_norm.
Local Existing Instance left_to_right.

Lemma length_unit_vector (v : list float) :
  length (unit_vector v) = length v.
Proof. unfold unit_vector. by rewrite length_fmap. Qed.

(** With these reductions every row is divided by its own norm. *)
Lemma normalize_left_to_right (m : list (list float)) :
  normalize m = unit_vector <$> m.
Proof.
  unfold normalize. cbn [np_linalg_norm left_to_right].
  induction m as [|row m IH]; [done|]. cbn. by rewrite IH.
Qed.

Lemma normalize_zero_norm (v : list float) :
  PrimFloat.eqb (norm v) 0 = true →
  Forall (λ x, nonfinite x = true) (unit_vector v).
Proof.
  intros Hnorm. unfold unit_vector. apply Forall_fmap, Forall_forall.
  intros x _. cbn. by apply nonfinite_div_zero.
Qed.

Lemma dot_fold_nonfinite (l : list (float * float)) (acc : float) :
  nonfinite acc = true →
  nonfinite (fold_left (λ acc p, acc + p.1 * p.2)%float l acc) = true.
Proof.
  revert acc. induction l as [|p l IH]; intros acc Hacc; [done|].
  cbn. by apply IH, nonfinite_add_l.
Qed.

Lemma dot_nonfinite (u v : list float) :
  u ≠ [] → length v = length u →
  Forall (λ x, nonfinite x = true) u
  ∨ Forall (λ x, nonfinite x = true) v →
  nonfinite (dot u v) = true.
Proof.
  intros Hu Hlen Hnf. unfold dot.
  destruct u as [|x u]; [done|]. destruct v as [|y v]; [done|].
  cbn. apply dot_fold_nonfinite, nonfinite_add_r.
  destruct Hnf as [Hnf|Hnf]; apply Forall_cons in Hnf as [Hx _].
  - by apply nonfinite_mul_l.
  - by apply nonfinite_mul_r.
Qed.

Lemma cosine_zero_norm (u v : list float) :
  u ≠ [] → length v = length u →
  PrimFloat.eqb (norm u) 0 = true ∨ PrimFloat.eqb (norm v) 0 = true →
  nonfinite (cosine u v) = true.
Proof.
  intros Hu Hlen Hzero. unfold cosine. apply dot_nonfinite.
  - unfold unit_vector. by destruct u.
  - by rewrite !length_unit_vector.
  - destruct Hzero; [left|right]; by apply normalize_zero_norm.
Qed.

Lemma cosine_similarity_Returns (vec1 : list float)
    (vec2 : list (list float)) (sims : list float) :
  vec1 ≠ [] →
  _cosine_similarity vec1 vec2 = Returns sims →
  Forall (λ v, length v = length vec1) vec2 ∧ sims = cosine vec1 <$> vec2.
Proof.
  intros Hne. unfold _cosine_similarity.
  rewrite !normalize_left_to_right. cbn [fmap list_fmap].
  destruct (forallb _ _) eqn:Hshape; [|done].
  rewrite forallb_forall in Hshape.
  assert (Forall (λ v, length v = length vec1)
            match vec2 with [] => [[]] | _ => vec2 end) as Hrows.
  { apply Forall_forall. intros v Hv.
    specialize (Hshape (unit_vector v)).
    rewrite !length_unit_vector in Hshape. apply Nat.eqb_eq, Hshape.
    apply list_elem_of_In, list_elem_of_fmap. eauto. }
  destruct vec2 as [|r vec2].
  { apply Forall_cons in Hrows as [Hlen _]. by destruct vec1. }
  intros [= <-]. split; [done|].
  cbn [np_dot left_to_right]. by rewrite <- list_fmap_compose.
Qed.

(** C2, as amended.  Nothing guards the division by the norm: when a vector
    of the call has norm zero, every similarity it enters is a NaN or an
    infinity, returned without an exception. *)
Theorem cosine_similarity_zero_norm (vec1 : list float)
    (vec2 : list (list float)) (sims : list float) :
  vec1 ≠ [] →
  _cosine_similarity vec1 vec2 = Returns sims →
  (PrimFloat.eqb (norm vec1) 0 = true →
   Forall (λ s, nonfinite s = true) sims)
  ∧ (∀ i v s,
       vec2 !! i = Some v → sims !! i = Some s →
       PrimFloat.eqb (norm v) 0 = true → nonfinite s = true).
Proof.
  intros Hne [Hrows ->]%cosine_similarity_Returns; [|done]. split.
  - intros Hzero. apply Forall_fmap, Forall_forall. intros v Hv. cbn.
    apply cosine_zero_norm; [done| |by left].
    by apply (proj1 (Forall_forall _ _) Hrows).
  - intros i v s Hv Hs Hzero.
    rewrite list_lookup_fmap, Hv in Hs. injection Hs as <-.
    apply cosine_zero_norm; [done| |by right].
    by apply (Forall_lookup_1 _ _ _ _ Hrows Hv).
Qed.

Lemma cosine_similarity_zero_norm_witness :
  (PrimFloat.eqb (norm [0; 0]%float) 0 = true →
   Forall (λ s, nonfinite s = true) [nan])
  ∧ (∀ i v s,
       [[1; 0]%float] !! i = Some v → [nan] !! i = Some s →
       PrimFloat.eqb (norm v) 0 = true → nonfinite s = true).
Proof.
  apply (cosine_similarity_zero_norm [0; 0]%float [[1; 0]%float]).
  - done.
  - reflexivity.
Defined.

(** C2, as stated, fails: the zero vector has norm zero, and its similarity
    with any vector is not 0 but NaN, [0.0 / 0.0] in every component; the
    NaN then is the MMR score of the document. *)
Lemma cosine_similarity_zero_vector :
  PrimFloat.eqb (norm [0; 0]%float) 0 = true
  ∧ (∃ s, _cosine_similarity [0; 0]%float [[1; 0]]%float = Returns [s]
          ∧ PrimFloat.eqb s 0 = false ∧ is_nan s = true)
  ∧ (∃ s, _cosine_similarity [1; 0]%float [[0; 0]]%float = Returns [s]
          ∧ PrimFloat.eqb s 0 = false ∧ is_nan s = true)
  ∧ (∃ s, mmr_score 0.5 [1; 1]%float [[1; 0]; [0; 0]]%float [0] 1
          = Returns (1, s) ∧ is_nan s = true).
Proof.
  split; [reflexivity|].
  repeat split; eexists; (split; [vm_compute; reflexivity|]);
    repeat split; reflexivity.
Qed.

End zero_norm.

(** *** What [rerank] returns whatever the embedding model does *)

Lemma for_each_inv {A B} (f : A → result B) (l : list A) (out : list B) :
  for_each f l = Returns out → Forall2 (λ a b, f a = Returns b) l out.
Proof.
  revert out. induction l as [|a l IH]; intros out; cbn.
  { intros [= <-]. constructor. }
  destruct (f a) as [b|e] eqn:Hfa; [|done]. cbn.
  destruct (for_each f l) as [bs|e]; [|done]. cbn.
  intros [= <-]. constructor; [done|]. by apply IH.
Qed.

Section shape.
Context {numpy : Numpy}.

Lemma mmr_score_idx (lambda : float) (sims : list float)
    (doc_vecs : list (list float)) (selected : list nat) (idx : nat)
    (s : nat * float) :
  mmr_score lambda sims doc_vecs selected idx = Returns s → s.1 = idx.
Proof.
  unfold mmr_score. destruct (index sims idx); [|done]. cbn.
  destruct (match selected with [] => _ | _ => _ end); [|done]. cbn.
  by intros [= <-].
Qed.

Lemma py_max_by_elem {A} (key : A → float) (x : A) (l : list A) :
  py_max_by key x l ∈ x :: l.
Proof.
  unfold py_max_by. revert x.
  induction l as [|y l IH]; intros x; cbn; [by left|].
  destruct (key x <? key y)%float.
  - right. apply IH.
  - specialize (IH x). apply elem_of_cons in IH as [->|IH]; [by left|].
    by do 2 right.
Qed.

Lemma list_remove_perm (x : nat) (l : list nat) :
  x ∈ l → x :: list_remove x l ≡ₚ l.
Proof.
  induction l as [|y l IH]; [by intros ?%elem_of_nil|].
  cbn. destruct (Nat.eqb_spec y x) as [->|Hne]; [done|].
  intros [?|Hx]%elem_of_cons; [done|].
  rewrite Permutation_swap. by rewrite IH.
Qed.

(** The selection loop picks one index of [remaining_indices] per round,
    each occurrence at most once, until the rounds or the indices run out. *)
Lemma mmr_select_picks (rounds : nat) (lambda : float) (sims : list float)
    (doc_vecs : list (list float)) (selected remaining out : list nat) :
  mmr_select rounds lambda sims doc_vecs selected remaining = Returns out →
  ∃ picked, out = selected ++ picked
            ∧ picked ⊆+ remaining
            ∧ length picked = Nat.min rounds (length remaining).
Proof.
  revert selected remaining out.
  induction rounds as [|rounds IH]; intros selected remaining out; cbn.
  { intros [= <-]. exists []. rewrite app_nil_r.
    split; [done|]. split; [apply submseteq_nil_l|done]. }
  destruct remaining as [|r rs] eqn:Hrem.
  { intros [= <-]. exists []. by rewrite app_nil_r. }
  rewrite <- Hrem. clear Hrem r rs.
  destruct (for_each _ remaining) as [scores|e] eqn:Hscores; [|done]. cbn.
  destruct scores as [|s ss] eqn:Hs; [done|]. rewrite <- Hs in *.
  set (best := (py_max_by snd s ss).1).
  assert (best ∈ remaining) as Hbest.
  { apply for_each_inv in Hscores.
    pose proof (py_max_by_elem snd s ss) as Hin. rewrite <- Hs in Hin.
    apply list_elem_of_lookup in Hin as [i Hi].
    destruct (Forall2_lookup_r _ _ _ _ _ Hscores Hi) as (idx & Hidx & Hsc).
    apply mmr_score_idx in Hsc.
    unfold best. rewrite Hsc. by eapply list_elem_of_lookup_2. }
  intros Hout. destruct (IH _ _ _ Hout) as (picked & -> & Hsub & Hlen).
  exists (best :: picked). rewrite <- app_assoc. split; [done|].
  pose proof (list_remove_perm best remaining Hbest) as Hperm.
  split.
  - rewrite <- Hperm. by apply submseteq_skip.
  - cbn [length]. rewrite Hlen.
    apply Permutation_length in Hperm. cbn [length] in Hperm.
    by rewrite <- Hperm.
Qed.

Lemma for_each_index_default {A} (dummy : A) (l : list A) (idxs : list nat)
    (out : list A) :
  for_each (index l) idxs = Returns out →
  out = (λ i, default dummy (l !! i)) <$> idxs.
Proof.
  intros Hout%for_each_inv.
  induction Hout as [|i a idxs out Hi _ IH]; [done|].
  cbn. rewrite <- IH. f_equal. unfold index in Hi.
  by destruct (l !! i); simplify_eq.
Qed.

Lemma fmap_lookup_seq {A} (dummy : A) (l : list A) :
  (λ i, default dummy (l !! i)) <$> seq 0 (length l) = l.
Proof.
  apply list_eq. intros i. rewrite list_lookup_fmap.
  destruct (decide (i < length l)) as [Hlt|Hge].
  - rewrite lookup_seq_lt by done. cbn.
    by destruct (lookup_lt_is_Some_2 l i Hlt) as [a ->].
  - rewrite lookup_seq_ge by lia. cbn. symmetry. apply lookup_ge_None. lia.
Qed.

(** [rerank] returns, whatever the embedding model does; for a [top_k]
    that is not negative it returns [min(top_k, len(documents))] of the
    documents. *)
Lemma rerank_shape (E : Embedder) (query : string)
    (documents : list Document) (top_k : Z) (lambda : float) :
  ∃ out, rerank E query documents top_k lambda = Returns out
         ∧ ((0 ≤ top_k)%Z →
            length out = Nat.min (Z.to_nat top_k) (length documents)
            ∧ out ⊆+ documents).
Proof.
  unfold rerank.
  destruct documents as [|d ds] eqn:Hdocs.
  { exists []. split; [done|]. intros _. split; [cbn; lia|done]. }
  rewrite <- Hdocs. clear Hdocs d ds.
  destruct (Z.leb_spec (Z.of_nat (length documents)) top_k) as [Hle|Hlt].
  { exists documents. split; [done|]. intros _. split; [lia|done]. }
  destruct (rerank_mmr E query documents top_k lambda) as [out|e] eqn:Hmmr.
  - exists out. split; [done|]. intros Hk. unfold rerank_mmr in Hmmr.
    destruct (embed_query E query) as [query_vec|]; [|done]. cbn in Hmmr.
    destruct (embed_documents E _) as [doc_embeddings|]; [|done].
    cbn in Hmmr.
    destruct (np_array doc_embeddings) as [doc_vecs|]; [|done]. cbn in Hmmr.
    destruct (_cosine_similarity query_vec doc_vecs) as [sims|]; [|done].
    cbn in Hmmr.
    destruct (mmr_select _ _ _ _ _ _) as [selected|] eqn:Hsel; [|done].
    cbn in Hmmr.
    apply mmr_select_picks in Hsel as (picked & -> & Hsub & Hlen).
    rewrite app_nil_l in Hmmr.
    apply (for_each_index_default (passage EmptyString None)) in Hmmr
      as ->.
    rewrite length_fmap, Hlen, length_seq. split; [lia|].
    etrans; [by apply fmap_submseteq|]. by rewrite fmap_lookup_seq.
  - exists (_fallback_rerank documents top_k). split; [done|]. intros Hk.
    unfold _fallback_rerank. rewrite slice_to_nonneg by done.
    pose proof (sorted_reverse_perm documents) as Hperm.
    split.
    + rewrite length_take, <- Hperm. done.
    + rewrite Hperm at 2. apply sublist_submseteq, sublist_take.
Qed.

(** X10. Whatever the embedding model returns or raises, [rerank] returns
    (it never raises), and for [top_k >= 0] what it returns are
    [min(top_k, len(documents))] of the documents, none of them more often
    than it occurs in the input. *)
Theorem rerank_returns_top_k (E : Embedder) (query : string)
    (documents : list Document) (top_k : Z) (lambda : float) :
  (0 ≤ top_k)%Z →
  ∃ out, rerank E query documents top_k lambda = Returns out
         ∧ length out = Nat.min (Z.to_nat top_k) (length documents)
         ∧ out ⊆+ documents.
Proof.
  intros Hk.
  destruct (rerank_shape E query documents top_k lambda) as (out & Hout & H).
  exists out. split; [done|]. by apply H.
Qed.
End shape.

(** X11. On documents that arrive in descending order of
    [similarity_score] (no document scores less than a later one),
    [_fallback_rerank] changes no position: it returns the first [top_k]
    documents of its input. *)
Theorem fallback_rerank_ordered_input (documents : list Document)
    (top_k : Z) :
  StronglySorted not_below documents →
  _fallback_rerank documents top_k = slice_to top_k documents.
Proof.
  intros Hsorted. unfold _fallback_rerank. f_equal.
  induction Hsorted as [|d l Hl IH Hd]; [done|].
  cbn [sorted_reverse foldr]. fold (sorted_reverse l). rewrite IH.
  destruct l as [|e l']; [done|]. cbn.
  apply Forall_cons in Hd as [Hde _]. unfold not_below in Hde.
  by rewrite Hde.
Qed.

Lemma rerank_returns_top_k_witness :
  ∃ out,
    rerank (numpy:=left_to_right) plane_embedder "q" sample_documents 2 0.5
    = Returns out
    ∧ length out = Nat.min (Z.to_nat 2) (length sample_documents)
    ∧ out ⊆+ sample_documents.
Proof. apply rerank_returns_top_k. lia. Defined.

Lemma fallback_rerank_ordered_input_witness :
  _fallback_rerank
    [passage "debt" (Some 0.75%float); passage "cash" (Some 0.5%float);
     passage "risks" None] 2
  = slice_to 2
      [passage "debt" (Some 0.75%float); passage "cash" (Some 0.5%float);
       passage "risks" None].
Proof.
  apply fallback_rerank_ordered_input.
  repeat constructor; by vm_compute.
Defined.

End RerankerFacts.

(** ** Python strings *)

Module StrFacts.
Import Str.

Lemma lower_char_idem (c : Ascii.ascii) :
  lower_char (lower_char c) = lower_char c.
Proof. by destruct c as [[] [] [] [] [] [] [] []]; vm_compute. Qed.

Lemma is_space_lower_char (c : Ascii.ascii) :
  is_space (lower_char c) = is_space c.
Proof. by destruct c as [[] [] [] [] [] [] [] []]; vm_compute. Qed.

Lemma lower_idem (s : string) : lower (lower s) = lower s.
Proof.
  induction s as [|c s IH]; [done|]. cbn. by rewrite lower_char_idem, IH.
Qed.

Lemma lower_lstrip (s : string) : lower (lstrip s) = lstrip (lower s).
Proof.
  induction s as [|c s IH]; [done|]. cbn. rewrite is_space_lower_char.
  by destruct (is_space c).
Qed.

Lemma lower_rstrip (s : string) : lower (rstrip s) = rstrip (lower s).
Proof.
  induction s as [|c s IH]; [done|]. cbn. rewrite <- IH, is_space_lower_char.
  destruct (rstrip s); [|done]. by destruct (is_space c).
Qed.

Lemma lower_strip (s : string) : lower (strip s) = strip (lower s).
Proof. unfold strip. by rewrite lower_rstrip, lower_lstrip. Qed.

(** A string that does not begin with white space. *)
Local Abbreviation starts_clean := (λ t : string,
  match t with
  | String c _ => is_space c = false
  | EmptyString => True
  end).

Lemma lstrip_starts_clean (s : string) : starts_clean (lstrip s).
Proof.
  induction s as [|c s IH]; [done|]. cbn.
  by destruct (is_space c) eqn:Hc.
Qed.

Lemma lstrip_clean (t : string) : starts_clean t → lstrip t = t.
Proof. destruct t as [|c t]; [done|]. cbn. by intros ->. Qed.

Lemma rstrip_starts_clean (t : string) :
  starts_clean t → starts_clean (rstrip t).
Proof.
  destruct t as [|c t]; [done|]. cbn. intros Hc.
  destruct (rstrip t); [by rewrite Hc|done].
Qed.

Lemma rstrip_idem (s : string) : rstrip (rstrip s) = rstrip s.
Proof.
  induction s as [|c s IH]; [done|]. cbn.
  destruct (rstrip s) as [|a r] eqn:Hr.
  - destruct (is_space c) eqn:Hc; [done|]. cbn. by rewrite Hc.
  - cbn [rstrip] in *. by rewrite IH.
Qed.

(** [s.strip().strip() == s.strip()] *)
Lemma strip_idem (s : string) : strip (strip s) = strip s.
Proof.
  unfold strip.
  rewrite (lstrip_clean (rstrip (lstrip s)))
    by apply rstrip_starts_clean, lstrip_starts_clean.
  apply rstrip_idem.
Qed.

Lemma ltb_le (x y : string) : String.ltb y x = true → String.le y x.
Proof.
  unfold String.le, String.ltb, String.leb.
  by destruct (String.compare y x).
Qed.

Lemma not_ltb_le (x y : string) : String.ltb y x = false → String.le x y.
Proof.
  unfold String.le, String.ltb, String.leb.
  rewrite (String.compare_antisym y x).
  by destruct (String.compare x y).
Qed.

Lemma insert_string_perm (x : string) (l : list string) :
  x :: l ≡ₚ insert_string x l.
Proof.
  induction l as [|y l IH]; [done|].
  cbn. destruct (String.ltb y x); [|done].
  rewrite <- IH. apply Permutation_swap.
Qed.

Lemma sorted_strings_perm (l : list string) : l ≡ₚ sorted_strings l.
Proof.
  induction l as [|x l IH]; [done|].
  cbn. rewrite <- insert_string_perm. by constructor.
Qed.

Lemma insert_string_sorted (x : string) (l : list string) :
  StronglySorted String.le l → StronglySorted String.le (insert_string x l).
Proof.
  induction 1 as [|y l Hl IH Hy]; cbn [insert_string].
  { repeat constructor. }
  destruct (String.ltb y x) eqn:Hlt.
  - constructor; [done|].
    rewrite <- insert_string_perm. constructor; [by apply ltb_le|done].
  - apply not_ltb_le in Hlt.
    constructor; [by constructor|]. constructor; [done|].
    eapply Forall_impl; [exact Hy|]. intros z Hz. cbn in *. by etrans.
Qed.

Lemma sorted_strings_sorted (l : list string) :
  StronglySorted String.le (sorted_strings l).
Proof.
  induction l as [|x l IH]; [constructor|]. by apply insert_string_sorted.
Qed.

(** [sorted] gives one result for all orderings of the same strings. *)
Lemma sorted_strings_Permutation (l l' : list string) :
  l ≡ₚ l' → sorted_strings l = sorted_strings l'.
Proof.
  intros Hperm. apply (StronglySorted_unique String.le).
  - apply sorted_strings_sorted.
  - apply sorted_strings_sorted.
  - by rewrite <- !sorted_strings_perm.
Qed.

End StrFacts.

(** ** Caches *)

Module CacheFacts.
Import Cache.

Section dict.
Context {V : Type}.
Implicit Types (d : list (string * V)) (k : string).

Lemma length_dict_set k (v : V) d :
  length (Dict.set k v d) ≤ S (length d).
Proof.
  induction d as [|[k' v'] d IH]; cbn; [lia|].
  destruct (String.eqb k' k); cbn; lia.
Qed.

Lemma length_dict_set_present k (v w : V) d :
  Dict.get k d = Some w → length (Dict.set k v d) = length d.
Proof.
  induction d as [|[k' v'] d IH]; cbn; [done|].
  destruct (String.eqb k' k); cbn; [done|]. intros Hd. by rewrite IH.
Qed.

Lemma length_dict_del k d : length (Dict.del k d) ≤ length d.
Proof.
  induction d as [|[k' v'] d IH]; cbn; [lia|].
  destruct (String.eqb k' k); cbn; lia.
Qed.

Lemma length_dict_del_key k d :
  k ∈ Dict.keys d → S (length (Dict.del k d)) = length d.
Proof.
  unfold Dict.keys.
  induction d as [|[k' v'] d IH]; cbn; [by intros ?%elem_of_nil|].
  destruct (String.eqb_spec k' k) as [->|Hne]; [done|].
  intros [?|Hk]%elem_of_cons; [done|]. cbn. by rewrite IH.
Qed.

End dict.

Section store.
Context {V : Type}.
Implicit Types (s : Store V) (c : list (string * CacheEntry V)).

Lemma length_del_all (ks : list string) c :
  length (del_all ks c) ≤ length c.
Proof.
  unfold del_all. revert c. induction ks as [|k ks IH]; intros c; [done|].
  cbn. etrans; [apply IH|]. apply length_dict_del.
Qed.

Lemma sorted_keys_insert_perm {K} (lt : K → K → bool) (f : string → K)
    (k : string) (l : list string) :
  k :: l ≡ₚ sorted_insert lt f k l.
Proof.
  induction l as [|k' l IH]; [done|].
  cbn. destruct (lt _ _); [|done].
  rewrite <- IH. apply Permutation_swap.
Qed.

Lemma sorted_keys_perm {K} (lt : K → K → bool) (f : string → K)
    (l : list string) :
  l ≡ₚ sorted lt f l.
Proof.
  induction l as [|k l IH]; [done|].
  cbn. rewrite <- sorted_keys_insert_perm. by constructor.
Qed.

(** Deleting the first keys of any reordering of the table's keys removes
    at least one entry from a non-empty table. *)
Lemma length_del_sorted (n : nat) (ks : list string) c :
  Dict.keys c ≡ₚ ks → 0 < n → c ≠ [] →
  length (del_all (take n ks) c) < length c.
Proof.
  intros Hperm Hn Hc.
  destruct ks as [|k ks].
  { apply Permutation_nil_r in Hperm. by destruct c. }
  destruct n as [|n]; [lia|]. cbn.
  assert (k ∈ Dict.keys c) as Hk by (rewrite Hperm; by left).
  apply length_dict_del_key in Hk.
  pose proof (length_del_all (take n ks) (Dict.del k c)).
  unfold del_all in *. lia.
Qed.

Lemma num_to_remove_pos s : 0 < num_to_remove s.
Proof. unfold num_to_remove. lia. Qed.

Lemma evicts_oldest : evicts (V:=V) _evict_oldest.
Proof.
  intros s. unfold _evict_oldest. cbn. split; [done|]. split.
  - apply length_del_all.
  - intros Hc. apply length_del_sorted; [apply sorted_keys_perm| |done].
    apply num_to_remove_pos.
Qed.

Lemma evicts_lru : evicts (V:=V) _evict_lru.
Proof.
  intros s. unfold _evict_lru. cbn. split; [done|]. split.
  - apply length_del_all.
  - intros Hc. apply length_del_sorted; [apply sorted_keys_perm| |done].
    apply num_to_remove_pos.
Qed.

Lemma set_key_bounded (evict : Store V → Store V) (key : string) (v : V)
    (now : Z) s :
  evicts evict →
  (1 ≤ max_size s)%Z → (size s ≤ max_size s)%Z →
  max_size (set_key evict key v now s) = max_size s
  ∧ (size (set_key evict key v now s) ≤ max_size s)%Z.
Proof.
  intros Hev Hpos Hsize. unfold set_key, size in *.
  destruct (Hev s) as (Hmax & Hle & Hlt).
  pose proof (length_dict_set key
    (new_entry v (ttl (if (max_size s <=? Z.of_nat (length (cache s)))%Z
                       then evict s else s)) now)
    (cache (if (max_size s <=? Z.of_nat (length (cache s)))%Z
            then evict s else s))) as Hset.
  cbn. destruct (Z.leb_spec (max_size s) (Z.of_nat (length (cache s)))).
  - split; [done|].
    assert (cache s ≠ []) as Hne
      by (intros Hnil; rewrite Hnil in *; cbn in *; lia).
    specialize (Hlt Hne). lia.
  - split; [done|]. lia.
Qed.

Lemma get_key_bounded (key : string) (now : Z) s :
  max_size (get_key key now s).2 = max_size s
  ∧ (size (get_key key now s).2 ≤ size s)%Z.
Proof.
  unfold get_key, size.
  destruct (Dict.get key (cache s)) as [entry|] eqn:Hget; [|done].
  destruct (negb (is_expired entry now)); cbn; (split; [done|]).
  - by rewrite (length_dict_set_present _ _ _ _ Hget).
  - pose proof (length_dict_del key (cache s)). lia.
Qed.
End store.

Section manager.
Context `{Digest}.

Lemma embedding_step_bounded s c :
  bounded s →
  max_size (EmbeddingCache.step s c) = max_size s
  ∧ bounded (EmbeddingCache.step s c).
Proof.
  intros [Hpos Hsize]. unfold bounded.
  destruct c as [text now|text embedding now];
    cbn [EmbeddingCache.step]; unfold EmbeddingCache.get, EmbeddingCache.set.
  - destruct (get_key_bounded (EmbeddingCache._generate_key text) now s)
      as [Hm Hs].
    rewrite Hm. split; [done|]. lia.
  - destruct (set_key_bounded _evict_oldest
      (EmbeddingCache._generate_key text) embedding now s evicts_oldest
      Hpos Hsize) as [Hm Hs].
    rewrite Hm. done.
Qed.

Lemma response_step_bounded s c :
  bounded s →
  max_size (QueryResponseCache.step s c) = max_size s
  ∧ bounded (QueryResponseCache.step s c).
Proof.
  intros [Hpos Hsize]. unfold bounded.
  destruct c as [q t d k now|q r t d k now];
    cbn [QueryResponseCache.step];
    unfold QueryResponseCache.get, QueryResponseCache.set.
  - destruct (get_key_bounded (QueryResponseCache._generate_key q t d k)
      now s) as [Hm Hs].
    rewrite Hm. split; [done|]. lia.
  - destruct (set_key_bounded _evict_lru
      (QueryResponseCache._generate_key q t d k) r now s evicts_lru
      Hpos Hsize) as [Hm Hs].
    rewrite Hm. done.
Qed.

Lemma document_step_bounded s c :
  bounded s →
  max_size (DocumentCache.step s c) = max_size s
  ∧ bounded (DocumentCache.step s c).
Proof.
  intros [Hpos Hsize]. unfold bounded.
  destruct c as [q t d now|q docs t d now];
    cbn [DocumentCache.step]; unfold DocumentCache.get, DocumentCache.set.
  - destruct (get_key_bounded (DocumentCache._generate_key q t d) now s)
      as [Hm Hs].
    rewrite Hm. split; [done|]. lia.
  - destruct (set_key_bounded _evict_oldest
      (DocumentCache._generate_key q t d) docs now s evicts_oldest
      Hpos Hsize) as [Hm Hs].
    rewrite Hm. done.
Qed.

(** C3, as amended.  In each of the three caches, built with [max_size] at
    least 1 and holding at most [max_size] entries, every sequence of [get]
    and [set] calls leaves at most [max_size] entries: the bound holds after
    every call, so in particular when any [set] returns. *)
Theorem cache_size_bounded (m : CacheManager) (calls : list cache_call) :
  (1 ≤ max_size (embedding_cache m))%Z →
  (1 ≤ max_size (response_cache m))%Z →
  (1 ≤ max_size (document_cache m))%Z →
  (size (embedding_cache m) ≤ max_size (embedding_cache m))%Z →
  (size (response_cache m) ≤ max_size (response_cache m))%Z →
  (size (document_cache m) ≤ max_size (document_cache m))%Z →
  let m' := manager_run calls m in
  (size (embedding_cache m') ≤ max_size (embedding_cache m'))%Z
  ∧ (size (response_cache m') ≤ max_size (response_cache m'))%Z
  ∧ (size (document_cache m') ≤ max_size (document_cache m'))%Z
  ∧ max_size (embedding_cache m') = max_size (embedding_cache m)
  ∧ max_size (response_cache m') = max_size (response_cache m)
  ∧ max_size (document_cache m') = max_size (document_cache m).
Proof.
  intros He Hr Hd Hes Hrs Hds.
  assert (bounded (embedding_cache m)) as Hbe by done.
  assert (bounded (response_cache m)) as Hbr by done.
  assert (bounded (document_cache m)) as Hbd by done.
  clear He Hr Hd Hes Hrs Hds. cbn zeta. unfold manager_run.
  revert m Hbe Hbr Hbd. induction calls as [|c calls IH]; intros m Hbe Hbr Hbd.
  { cbn. unfold bounded in *. tauto. }
  cbn [foldl].
  destruct c as [c|c|c];
    [destruct (embedding_step_bounded _ c Hbe) as [Hm Hb]
    |destruct (response_step_bounded _ c Hbr) as [Hm Hb]
    |destruct (document_step_bounded _ c Hbd) as [Hm Hb]];
    match goal with
    | |- context [foldl manager_step ?m' calls] =>
        specialize (IH m'); cbn in IH; rewrite ?Hm in IH; by apply IH
    end.
Qed.
End manager.

Lemma cache_size_bounded_witness :
  let m :=
    manager_run (H:=plain_digest)
      [OnEmbeddings (EmbeddingCache.CallSet "a" [] 1);
       OnEmbeddings (EmbeddingCache.CallSet "b" [] 2);
       OnEmbeddings (EmbeddingCache.CallSet "c" [] 3);
       OnEmbeddings (EmbeddingCache.CallGet "a" 4);
       OnDocuments (DocumentCache.CallSet "q" [] None None 5)]
      {| embedding_cache := init _ 2 60;
         response_cache := init _ 1 60;
         document_cache := init _ 1 60 |} in
  (size (embedding_cache m) ≤ max_size (embedding_cache m))%Z
  ∧ (size (response_cache m) ≤ max_size (response_cache m))%Z
  ∧ (size (document_cache m) ≤ max_size (document_cache m))%Z
  ∧ max_size (embedding_cache m) = 2%Z
  ∧ max_size (response_cache m) = 1%Z
  ∧ max_size (document_cache m) = 1%Z.
Proof. apply (cache_size_bounded (H:=plain_digest)); by vm_compute. Defined.

(** A full table of two entries: the third [set] evicts the oldest entry
    and then stores its own. *)
Example embedding_cache_evicts :
  Dict.keys (cache (EmbeddingCache.run (H:=plain_digest)
    [EmbeddingCache.CallSet "a" [] 1; EmbeddingCache.CallSet "b" [] 2;
     EmbeddingCache.CallSet "c" [] 3] (init _ 2 60)))
  = ["b"; "c"].
Proof. reflexivity. Qed.

(** C3, as stated, fails for a cache built with [max_size = 0]: the empty
    table is at capacity, the eviction finds nothing to delete, and the
    entry is stored all the same. *)
Lemma cache_size_unbounded_at_zero :
  let s := init (list float) 0 86400 in
  (size s ≤ max_size s)%Z
  ∧ ¬ (size (EmbeddingCache.set (H:=plain_digest) "q" [] 0 s)
       ≤ max_size (EmbeddingCache.set (H:=plain_digest) "q" [] 0 s))%Z.
Proof. cbn. split; [done|]. intros Hle. by apply Hle. Qed.

(** *** Tables with one entry per key

    A Python [dict] holds one entry per key.  The association list does so
    too: [Dict.set] replaces the entry of a key that is there, and every
    table of a cache is built by [Dict.set] and [Dict.del] from the empty
    one. *)

Section dict_keys.
Context {V : Type}.
Implicit Types (d : list (string * V)) (k : string).

Lemma filter_ne_notin (k : string) (l : list string) :
  k ∉ l → filter (λ k', k' ≠ k) l = l.
Proof.
  induction l as [|k' l IH]; intros Hk; [done|].
  apply not_elem_of_cons in Hk as [Hne Hk].
  rewrite filter_cons, decide_True by done. by rewrite IH.
Qed.

Lemma dict_get_None k d : Dict.get k d = None ↔ k ∉ Dict.keys d.
Proof.
  unfold Dict.keys. induction d as [|[k' v'] d IH]; cbn.
  - split; [intros _; apply not_elem_of_nil|done].
  - rewrite not_elem_of_cons. destruct (String.eqb_spec k' k) as [->|Hne].
    + split; [done|]. by intros [? _].
    + rewrite IH. split; [|tauto]. intros Hk. split; [congruence|done].
Qed.

Lemma dict_get_keys k d (v : V) : Dict.get k d = Some v → k ∈ Dict.keys d.
Proof.
  intros Hget. destruct (decide (k ∈ Dict.keys d)) as [|Hout]; [done|].
  apply dict_get_None in Hout. congruence.
Qed.

Lemma dict_get_set_eq k (v : V) d : Dict.get k (Dict.set k v d) = Some v.
Proof.
  induction d as [|[k' v'] d IH]; cbn.
  - by rewrite String.eqb_refl.
  - destruct (String.eqb k' k) eqn:Hk; cbn; by rewrite Hk.
Qed.

Lemma dict_get_set_ne k k' (v : V) d :
  k ≠ k' → Dict.get k' (Dict.set k v d) = Dict.get k' d.
Proof.
  intros Hne. induction d as [|[k0 v0] d IH]; cbn.
  - by rewrite (proj2 (String.eqb_neq _ _) Hne).
  - destruct (String.eqb_spec k0 k) as [->|Hk0]; cbn.
    + by rewrite (proj2 (String.eqb_neq _ _) Hne).
    + by rewrite IH.
Qed.

Lemma dict_keys_set k (v : V) d :
  Dict.keys (Dict.set k v d)
  = match Dict.get k d with
    | Some _ => Dict.keys d
    | None => Dict.keys d ++ [k]
    end.
Proof.
  unfold Dict.keys. induction d as [|[k0 v0] d IH]; cbn; [done|].
  destruct (String.eqb_spec k0 k) as [->|Hk0]; cbn; [done|].
  rewrite IH. by destruct (Dict.get k d).
Qed.

Lemma NoDup_dict_set k (v : V) d :
  NoDup (Dict.keys d) → NoDup (Dict.keys (Dict.set k v d)).
Proof.
  intros Hnd. rewrite dict_keys_set.
  destruct (Dict.get k d) eqn:Hget; [done|].
  apply dict_get_None in Hget.
  apply NoDup_app. split; [done|]. split; [|apply NoDup_singleton].
  by intros x Hx ->%list_elem_of_singleton.
Qed.

Lemma dict_keys_del k d :
  NoDup (Dict.keys d) →
  Dict.keys (Dict.del k d) = filter (λ k', k' ≠ k) (Dict.keys d).
Proof.
  unfold Dict.keys. induction d as [|[k0 v0] d IH]; [done|].
  cbn [Dict.del fmap list_fmap fst].
  intros [Hk0 Hnd]%NoDup_cons. rewrite filter_cons.
  destruct (String.eqb_spec k0 k) as [->|Hne].
  - rewrite decide_False by (by intros ?). by rewrite filter_ne_notin.
  - rewrite decide_True by done. cbn [fmap list_fmap fst]. by rewrite IH.
Qed.

Lemma NoDup_dict_del k d :
  NoDup (Dict.keys d) → NoDup (Dict.keys (Dict.del k d)).
Proof. intros Hnd. rewrite dict_keys_del by done. by apply NoDup_filter. Qed.

Lemma dict_get_del k k' d :
  NoDup (Dict.keys d) →
  Dict.get k' (Dict.del k d)
  = if decide (k' = k) then None else Dict.get k' d.
Proof.
  unfold Dict.keys. induction d as [|[k0 v0] d IH]; cbn.
  - intros _. by destruct (decide _).
  - intros [Hk0 Hnd]%NoDup_cons.
    destruct (String.eqb_spec k0 k) as [->|Hne]; cbn.
    + destruct (decide (k' = k)) as [->|Hk'].
      * by apply dict_get_None.
      * by rewrite (proj2 (String.eqb_neq _ _)) by done.
    + destruct (String.eqb_spec k0 k') as [->|Hne'].
      * by rewrite decide_False.
      * by apply IH.
Qed.
End dict_keys.

(** *** What an eviction removes *)

Section eviction.
Context {V : Type}.
Implicit Types (s : Store V) (c : list (string * CacheEntry V)).

Lemma del_all_cons (k : string) (ks : list string) c :
  del_all (k :: ks) c = del_all ks (Dict.del k c).
Proof. done. Qed.

Lemma del_all_get (ks : list string) c :
  NoDup (Dict.keys c) →
  NoDup (Dict.keys (del_all ks c))
  ∧ ∀ k, Dict.get k (del_all ks c)
         = if decide (k ∈ ks) then None else Dict.get k c.
Proof.
  revert c. induction ks as [|k0 ks IH]; intros c Hnd.
  { split; [done|]. intros k.
    by rewrite decide_False by apply not_elem_of_nil. }
  rewrite del_all_cons.
  destruct (IH (Dict.del k0 c)) as [Hnd' Hget]; [by apply NoDup_dict_del|].
  split; [done|]. intros k. rewrite Hget, dict_get_del by done.
  destruct (decide (k = k0)) as [->|Hne].
  - rewrite (decide_True (P:=k0 ∈ k0 :: ks)) by (by left).
    by destruct (decide _).
  - destruct (decide (k ∈ ks)) as [Hin|Hout].
    + by rewrite decide_True by (by right).
    + rewrite decide_False; [done|].
      by intros [?|?]%elem_of_cons.
Qed.

Lemma length_del_all_keys (ks : list string) c :
  NoDup (Dict.keys c) → NoDup ks → (∀ k, k ∈ ks → k ∈ Dict.keys c) →
  length (del_all ks c) + length ks = length c.
Proof.
  revert c. induction ks as [|k0 ks IH]; intros c Hnd Hks Hsub.
  { cbn. lia. }
  apply NoDup_cons in Hks as [Hk0 Hks]. rewrite del_all_cons.
  pose proof (length_dict_del_key k0 c (Hsub k0 ltac:(by left))) as Hlen.
  rewrite <- Hlen. cbn [length]. rewrite <- (IH (Dict.del k0 c)); [lia| |done|].
  - by apply NoDup_dict_del.
  - intros k Hk. rewrite dict_keys_del by done.
    apply list_elem_of_filter. split; [by intros ->|].
    apply Hsub. by right.
Qed.

Section sorted_keys.
Context {K : Type} (lt : K → K → bool) (f : string → K).
Hypothesis lt_asym : ∀ x y, lt x y = true → lt y x = false.
Hypothesis lt_neg_trans :
  ∀ x y z, lt y x = false → lt z y = false → lt z x = false.

(** [a] may stand before [b] in the ascending order of the sort keys. *)
Local Abbreviation before := (λ a b : string, lt (f b) (f a) = false).

Lemma sorted_keys_insert_sorted (k : string) (l : list string) :
  StronglySorted before l → StronglySorted before (sorted_insert lt f k l).
Proof.
  induction 1 as [|k' l Hl IH Hk']; cbn [sorted_insert].
  { repeat constructor. }
  destruct (lt (f k') (f k)) eqn:Hlt.
  - constructor; [done|].
    rewrite <- sorted_keys_insert_perm. constructor; [by apply lt_asym|done].
  - constructor; [by constructor|]. constructor; [done|].
    eapply Forall_impl; [exact Hk'|]. intros x Hx. cbn in *.
    by apply (lt_neg_trans _ (f k')).
Qed.

Lemma sorted_keys_sorted (l : list string) :
  StronglySorted before (sorted lt f l).
Proof.
  induction l as [|k l IH]; [constructor|].
  by apply sorted_keys_insert_sorted.
Qed.

(** Deleting the first [n] keys in the order of the sort keys: [n] entries
    go (all of them when there are fewer), the others stay as they are, and
    no entry that stays has a smaller sort key than one that goes. *)
Lemma del_sorted_keys (n : nat) c :
  NoDup (Dict.keys c) →
  let removed := take n (sorted lt f (Dict.keys c)) in
  let c' := del_all removed c in
  NoDup (Dict.keys c')
  ∧ length c' = length c - Nat.min n (length c)
  ∧ (∀ k, Dict.get k c' = if decide (k ∈ removed) then None else Dict.get k c)
  ∧ (∀ k k', k ∈ removed → k' ∈ Dict.keys c → k' ∉ removed →
       lt (f k') (f k) = false).
Proof.
  intros Hnd. cbn zeta.
  pose proof (sorted_keys_perm lt f (Dict.keys c)) as Hperm.
  pose proof (sorted_keys_sorted (Dict.keys c)) as Hsorted.
  set (ks := sorted lt f (Dict.keys c)) in *.
  assert (NoDup ks) as Hks by (by rewrite <- Hperm).
  assert (length ks = length c) as Hlen
    by (rewrite <- Hperm; unfold Dict.keys; by rewrite length_fmap).
  destruct (del_all_get (take n ks) c Hnd) as [Hnd' Hget].
  split; [done|]. split; [|split; [done|]].
  - pose proof (length_del_all_keys (take n ks) c Hnd) as Hdel.
    rewrite length_take in Hdel. rewrite <- Hlen.
    enough (length (del_all (take n ks) c) + Nat.min n (length ks) = length ks)
      by lia.
    rewrite Hlen at 2. apply Hdel.
    + rewrite <- (take_drop n ks) in Hks. by apply NoDup_app in Hks as [? _].
    + intros k Hk. rewrite Hperm. by apply (subseteq_take n ks).
  - intros k k' Hk Hk' Hout.
    rewrite <- (take_drop n ks) in Hsorted.
    apply (StronglySorted_app_1_elem_of _ _ _ k k' Hsorted Hk).
    rewrite Hperm, <- (take_drop n ks) in Hk'.
    by apply elem_of_app in Hk' as [?|?].
Qed.
End sorted_keys.
End eviction.

Section evictions.
Context {V : Type}.
Implicit Types (s : Store V).

Lemma pair_ltb_asym (a b : Z * Z) : pair_ltb a b = true → pair_ltb b a = false.
Proof.
  unfold pair_ltb.
  destruct (Z.ltb_spec a.1 b.1), (Z.ltb_spec b.1 a.1), (Z.eqb_spec a.1 b.1),
    (Z.eqb_spec b.1 a.1), (Z.ltb_spec a.2 b.2), (Z.ltb_spec b.2 a.2);
    cbn; intros; try done; lia.
Qed.

Lemma pair_ltb_neg_trans (a b c : Z * Z) :
  pair_ltb b a = false → pair_ltb c b = false → pair_ltb c a = false.
Proof.
  unfold pair_ltb.
  destruct (Z.ltb_spec b.1 a.1), (Z.ltb_spec c.1 b.1), (Z.ltb_spec c.1 a.1),
    (Z.eqb_spec b.1 a.1), (Z.eqb_spec c.1 b.1), (Z.eqb_spec c.1 a.1),
    (Z.ltb_spec b.2 a.2), (Z.ltb_spec c.2 b.2), (Z.ltb_spec c.2 a.2);
    cbn; intros; try done; lia.
Qed.

(** X1. [_evict_oldest] (of the embedding and the document cache) removes
    [max(1, max_size // 10)] entries, or all when there are fewer; the
    entries it keeps are unchanged, and none of them was created before an
    entry it removes. *)
Theorem evict_oldest_removes_oldest s :
  NoDup (Dict.keys (cache s)) →
  let s' := _evict_oldest s in
  length (cache s')
  = length (cache s) - Nat.min (num_to_remove s) (length (cache s))
  ∧ (∀ k e, Dict.get k (cache s') = Some e → Dict.get k (cache s) = Some e)
  ∧ (∀ k e k' e',
       Dict.get k (cache s) = Some e → Dict.get k (cache s') = None →
       Dict.get k' (cache s') = Some e' →
       (created_at e ≤ created_at e')%Z).
Proof.
  intros Hnd. cbn zeta. unfold _evict_oldest. cbn [cache with_cache].
  destruct (del_sorted_keys Z.ltb (created_at_of (cache s))
              ltac:(intros x y ?%Z.ltb_lt; apply Z.ltb_ge; lia)
              ltac:(intros x y z ?%Z.ltb_ge ?%Z.ltb_ge; apply Z.ltb_ge; lia)
              (num_to_remove s) (cache s) Hnd)
    as (_ & Hlen & Hget & Hord).
  split; [done|]. split.
  - intros k e. rewrite Hget. by destruct (decide _).
  - intros k e k' e' Hk Hgone Hk'. rewrite Hget in Hgone, Hk'.
    destruct (decide (k ∈ _)) as [Hin|]; [|congruence].
    destruct (decide (k' ∈ _)) as [|Hout]; [done|].
    specialize (Hord k k' Hin (dict_get_keys _ _ _ Hk') Hout).
    unfold created_at_of in Hord. rewrite Hk, Hk' in Hord. cbn in Hord.
    by apply Z.ltb_ge in Hord.
Qed.

(** X2. [_evict_lru] (of the response cache) removes
    [max(1, max_size // 10)] entries, or all when there are fewer; the
    entries it keeps are unchanged, and each of them has more hits than any
    entry it removes, or as many hits and a creation time that is not
    earlier. *)
Theorem evict_lru_removes_least_hit s :
  NoDup (Dict.keys (cache s)) →
  let s' := _evict_lru s in
  length (cache s')
  = length (cache s) - Nat.min (num_to_remove s) (length (cache s))
  ∧ (∀ k e, Dict.get k (cache s') = Some e → Dict.get k (cache s) = Some e)
  ∧ (∀ k e k' e',
       Dict.get k (cache s) = Some e → Dict.get k (cache s') = None →
       Dict.get k' (cache s') = Some e' →
       (hit_count e < hit_count e'
        ∨ hit_count e = hit_count e' ∧ created_at e ≤ created_at e')%Z).
Proof.
  intros Hnd. cbn zeta. unfold _evict_lru. cbn [cache with_cache].
  destruct (del_sorted_keys pair_ltb
              (λ k, (hit_count_of (cache s) k, created_at_of (cache s) k))
              pair_ltb_asym pair_ltb_neg_trans
              (num_to_remove s) (cache s) Hnd)
    as (_ & Hlen & Hget & Hord).
  split; [done|]. split.
  - intros k e. rewrite Hget. by destruct (decide _).
  - intros k e k' e' Hk Hgone Hk'. rewrite Hget in Hgone, Hk'.
    destruct (decide (k ∈ _)) as [Hin|]; [|congruence].
    destruct (decide (k' ∈ _)) as [|Hout]; [done|].
    specialize (Hord k k' Hin (dict_get_keys _ _ _ Hk') Hout).
    unfold created_at_of, hit_count_of, pair_ltb in Hord.
    rewrite Hk, Hk' in Hord. cbn in Hord.
    destruct (Z.ltb_spec (hit_count e') (hit_count e)); [done|].
    destruct (Z.eqb_spec (hit_count e') (hit_count e)); [|lia].
    destruct (Z.ltb_spec (created_at e') (created_at e)); [done|]. lia.
Qed.
End evictions.

Lemma evict_oldest_removes_oldest_witness :
  let s := three_entries in
  let s' := _evict_oldest s in
  length (cache s')
  = length (cache s) - Nat.min (num_to_remove s) (length (cache s))
  ∧ (∀ k e, Dict.get k (cache s') = Some e → Dict.get k (cache s) = Some e)
  ∧ (∀ k e k' e',
       Dict.get k (cache s) = Some e → Dict.get k (cache s') = None →
       Dict.get k' (cache s') = Some e' →
       (created_at e ≤ created_at e')%Z).
Proof.
  apply (evict_oldest_removes_oldest three_entries).
  apply (bool_decide_unpack _). by vm_compute.
Defined.

Lemma evict_lru_removes_least_hit_witness :
  let s := three_entries in
  let s' := _evict_lru s in
  length (cache s')
  = length (cache s) - Nat.min (num_to_remove s) (length (cache s))
  ∧ (∀ k e, Dict.get k (cache s') = Some e → Dict.get k (cache s) = Some e)
  ∧ (∀ k e k' e',
       Dict.get k (cache s) = Some e → Dict.get k (cache s') = None →
       Dict.get k' (cache s') = Some e' →
       (hit_count e < hit_count e'
        ∨ hit_count e = hit_count e' ∧ created_at e ≤ created_at e')%Z).
Proof.
  apply (evict_lru_removes_least_hit three_entries).
  apply (bool_decide_unpack _). by vm_compute.
Defined.

(** Two of the three entries go: the two oldest, or the two without a
    hit. *)
Example evict_sample :
  Dict.keys (cache (_evict_oldest three_entries)) = ["c"]
  ∧ Dict.keys (cache (_evict_lru three_entries)) = ["b"].
Proof. split; reflexivity. Qed.

(** *** Lookups after writes *)

Section lookups.
Context {V : Type}.
Implicit Types (s : Store V).

Lemma get_key_NoDup (key : string) (now : Z) s :
  NoDup (Dict.keys (cache s)) →
  NoDup (Dict.keys (cache (get_key key now s).2)).
Proof.
  intros Hnd. unfold get_key.
  destruct (Dict.get key (cache s)) as [entry|]; [|done].
  destruct (negb _); cbn; [by apply NoDup_dict_set|by apply NoDup_dict_del].
Qed.

Lemma set_key_NoDup (evict : Store V → Store V) (key : string) (v : V)
    (now : Z) s :
  (∀ s, NoDup (Dict.keys (cache s)) → NoDup (Dict.keys (cache (evict s)))) →
  NoDup (Dict.keys (cache s)) →
  NoDup (Dict.keys (cache (set_key evict key v now s))).
Proof.
  intros Hev Hnd. unfold set_key. cbn. apply NoDup_dict_set.
  destruct (_ <=? _)%Z; auto.
Qed.

Lemma evict_oldest_NoDup s :
  NoDup (Dict.keys (cache s)) → NoDup (Dict.keys (cache (_evict_oldest s))).
Proof. intros Hnd. by apply del_all_get. Qed.

Lemma evict_lru_NoDup s :
  NoDup (Dict.keys (cache s)) → NoDup (Dict.keys (cache (_evict_lru s))).
Proof. intros Hnd. by apply del_all_get. Qed.

(** A value written at [now] is what a lookup of its key at [now'] finds
    as long as [now' - now] does not exceed the time to live, and is not
    found after that. *)
Lemma get_key_set_key (evict : Store V → Store V) (key : string) (v : V)
    (now now' : Z) s :
  ttl (evict s) = ttl s →
  (get_key key now' (set_key evict key v now s)).1
  = if (now' - now <=? ttl s)%Z then Some v else None.
Proof.
  intros Httl. unfold get_key, set_key. cbn [cache with_cache].
  rewrite dict_get_set_eq. unfold is_expired, new_entry. cbn.
  assert (ttl (if (max_size s <=? size s)%Z then evict s else s) = ttl s)
    as -> by (by destruct (_ <=? _)%Z).
  by destruct (Z.ltb_spec (ttl s) (now' - now)),
    (Z.leb_spec (now' - now) (ttl s)); try lia.
Qed.
End lookups.

Section three_caches.
Context `{Digest}.

(** X3. In each of the three caches, what [set] stores at clock reading
    [now] is what [get] with the same arguments returns at a reading [now']
    with [now' - now <= ttl]; at a later reading [get] returns [None].  This
    holds in every state of the cache, a full one included: the eviction
    comes before the entry is stored. *)
Theorem cache_entry_lives_ttl (se : Store (list float))
    (sr : Store ResponseDict.t) (sd : Store (list Document))
    (text : string) (embedding : list float)
    (query : string) (ticker : option string)
    (doc_types : option (list string)) (top_k : Z)
    (response : ResponseDict.t) (documents : list Document) (now now' : Z) :
  (EmbeddingCache.get text now' (EmbeddingCache.set text embedding now se)).1
  = (if (now' - now <=? ttl se)%Z then Some embedding else None)
  ∧ (QueryResponseCache.get query ticker doc_types top_k now'
       (QueryResponseCache.set query response ticker doc_types top_k now
          sr)).1
    = (if (now' - now <=? ttl sr)%Z then Some response else None)
  ∧ (DocumentCache.get query ticker doc_types now'
       (DocumentCache.set query documents ticker doc_types now sd)).1
    = (if (now' - now <=? ttl sd)%Z then Some documents else None).
Proof.
  split; [|split]; by apply get_key_set_key.
Qed.

Lemma manager_run_NoDup (calls : list cache_call) (m : CacheManager) :
  NoDup (Dict.keys (cache (embedding_cache m))) →
  NoDup (Dict.keys (cache (response_cache m))) →
  NoDup (Dict.keys (cache (document_cache m))) →
  NoDup (Dict.keys (cache (embedding_cache (manager_run calls m))))
  ∧ NoDup (Dict.keys (cache (response_cache (manager_run calls m))))
  ∧ NoDup (Dict.keys (cache (document_cache (manager_run calls m)))).
Proof.
  unfold manager_run. revert m.
  induction calls as [|c calls IH]; intros m He Hr Hd; [done|].
  cbn [foldl]. apply IH; destruct c as [[]|[]|[]]; cbn; try done;
    first [by apply get_key_NoDup
          |apply set_key_NoDup; [apply evict_oldest_NoDup|done]
          |apply set_key_NoDup; [apply evict_lru_NoDup|done]].
Qed.

(** X4. The counters of each cache count its lookups: over any sequence
    of calls, [hits + misses] (the [total_requests] of [get_stats]) grows by
    the number of [get] calls made on that cache, and neither counter ever
    decreases; a [set] changes neither. *)
Theorem counters_count_gets (calls : list cache_call) (m : CacheManager) :
  let m' := manager_run calls m in
  (total_requests (embedding_cache m')
   = total_requests (embedding_cache m)
     + Z.of_nat (length (List.filter embedding_get calls))
   ∧ hits (embedding_cache m) ≤ hits (embedding_cache m')
   ∧ misses (embedding_cache m) ≤ misses (embedding_cache m'))%Z
  ∧ (total_requests (response_cache m')
     = total_requests (response_cache m)
       + Z.of_nat (length (List.filter response_get calls))
     ∧ hits (response_cache m) ≤ hits (response_cache m')
     ∧ misses (response_cache m) ≤ misses (response_cache m'))%Z
  ∧ (total_requests (document_cache m')
     = total_requests (document_cache m)
       + Z.of_nat (length (List.filter document_get calls))
     ∧ hits (document_cache m) ≤ hits (document_cache m')
     ∧ misses (document_cache m) ≤ misses (document_cache m'))%Z.
Proof.
  cbn zeta. unfold manager_run, total_requests. revert m.
  induction calls as [|c calls IH]; intros m.
  { cbn. lia. }
  cbn [foldl]. specialize (IH (manager_step m c)).
  assert (∀ V key now (s : Store V),
    (hits (get_key key now s).2 + misses (get_key key now s).2
     = hits s + misses s + 1
     ∧ hits s ≤ hits (get_key key now s).2
     ∧ misses s ≤ misses (get_key key now s).2)%Z) as Hget.
  { intros V key now s. unfold get_key.
    destruct (Dict.get key (cache s)) as [entry|]; [|cbn; lia].
    destruct (negb _); cbn; lia. }
  assert (∀ V evict key v now (s : Store V),
    (∀ s, hits (evict s) = hits s ∧ misses (evict s) = misses s) →
    hits (set_key evict key v now s) = hits s
    ∧ misses (set_key evict key v now s) = misses s) as Hset.
  { intros V evict key v now s Hev. unfold set_key. cbn.
    destruct (_ <=? _)%Z; [apply Hev|done]. }
  destruct c as [[text now|text v now]|[q t d k now|q r t d k now]
                |[q t d now|q docs t d now]];
    cbn [manager_step embedding_cache response_cache document_cache
         EmbeddingCache.step QueryResponseCache.step DocumentCache.step
         List.filter embedding_get response_get document_get length] in *;
    unfold EmbeddingCache.get, QueryResponseCache.get, DocumentCache.get,
      EmbeddingCache.set, QueryResponseCache.set, DocumentCache.set in *.
  - pose proof (Hget _ (EmbeddingCache._generate_key text) now
                  (embedding_cache m)). lia.
  - destruct (Hset _ _evict_oldest (EmbeddingCache._generate_key text) v now
                (embedding_cache m)) as [Hh Hm]; [done|].
    rewrite Hh, Hm in IH. lia.
  - pose proof (Hget _ (QueryResponseCache._generate_key q t d k) now
                  (response_cache m)). lia.
  - destruct (Hset _ _evict_lru (QueryResponseCache._generate_key q t d k)
                r now (response_cache m)) as [Hh Hm]; [done|].
    rewrite Hh, Hm in IH. lia.
  - pose proof (Hget _ (DocumentCache._generate_key q t d) now
                  (document_cache m)). lia.
  - destruct (Hset _ _evict_oldest (DocumentCache._generate_key q t d)
                docs now (document_cache m)) as [Hh Hm]; [done|].
    rewrite Hh, Hm in IH. lia.
Qed.
End three_caches.

(** *** Keys *)

Section keys.
Context `{Digest}.

(** X5. For a query and a ticker of ASCII characters, the cache keys do
    not tell apart requests that differ in the case of the query, in white
    space around it, in the case of the ticker or in the order of the
    document types; an empty ticker and an empty list of document types
    count as none. *)
Theorem cache_key_normalised (query ticker : string)
    (doc_types doc_types' : list string) (top_k : Z) :
  Str.is_ascii query = true →
  Str.is_ascii ticker = true →
  doc_types ≡ₚ doc_types' →
  (EmbeddingCache._generate_key (Str.lower query)
   = EmbeddingCache._generate_key query
   ∧ EmbeddingCache._generate_key (Str.strip query)
     = EmbeddingCache._generate_key query)
  ∧ (DocumentCache._generate_key (Str.lower query) (Some (Str.lower ticker))
       (Some doc_types')
     = DocumentCache._generate_key query (Some ticker) (Some doc_types)
     ∧ DocumentCache._generate_key (Str.strip query) (Some ticker)
         (Some doc_types')
       = DocumentCache._generate_key query (Some ticker) (Some doc_types)
     ∧ DocumentCache._generate_key query (Some EmptyString) (Some [])
       = DocumentCache._generate_key query None None)
  ∧ (QueryResponseCache._generate_key (Str.lower query)
       (Some (Str.lower ticker)) (Some doc_types') top_k
     = QueryResponseCache._generate_key query (Some ticker) (Some doc_types)
         top_k
     ∧ QueryResponseCache._generate_key (Str.strip query) (Some ticker)
         (Some doc_types') top_k
       = QueryResponseCache._generate_key query (Some ticker)
           (Some doc_types) top_k
     ∧ QueryResponseCache._generate_key query (Some EmptyString) (Some [])
         top_k
       = QueryResponseCache._generate_key query None None top_k).
Proof.
  intros _ _ Hperm.
  unfold EmbeddingCache._generate_key, DocumentCache._generate_key,
    QueryResponseCache._generate_key, ticker_normalized, doc_types_normalized.
  rewrite !StrFacts.lower_idem, !StrFacts.lower_strip, !StrFacts.strip_idem,
    (StrFacts.sorted_strings_Permutation _ _ Hperm).
  done.
Qed.
End keys.

Section key_sample.
Local Existing Instance plain_digest.

Lemma cache_key_normalised_witness :
  (EmbeddingCache._generate_key (Str.lower " Revenue ")
   = EmbeddingCache._generate_key " Revenue "
   ∧ EmbeddingCache._generate_key (Str.strip " Revenue ")
     = EmbeddingCache._generate_key " Revenue ")
  ∧ (DocumentCache._generate_key (Str.lower " Revenue ")
       (Some (Str.lower "ACM")) (Some ["cash_flow"; "10k"])
     = DocumentCache._generate_key " Revenue " (Some "ACM")
         (Some ["10k"; "cash_flow"])
     ∧ DocumentCache._generate_key (Str.strip " Revenue ")
         (Some "ACM") (Some ["cash_flow"; "10k"])
       = DocumentCache._generate_key " Revenue " (Some "ACM")
           (Some ["10k"; "cash_flow"])
     ∧ DocumentCache._generate_key " Revenue "
         (Some EmptyString) (Some [])
       = DocumentCache._generate_key " Revenue " None None)
  ∧ (QueryResponseCache._generate_key (Str.lower " Revenue ")
       (Some (Str.lower "ACM")) (Some ["cash_flow"; "10k"]) 10
     = QueryResponseCache._generate_key " Revenue " (Some "ACM")
         (Some ["10k"; "cash_flow"]) 10
     ∧ QueryResponseCache._generate_key (Str.strip " Revenue ")
         (Some "ACM") (Some ["cash_flow"; "10k"]) 10
       = QueryResponseCache._generate_key " Revenue " (Some "ACM")
           (Some ["10k"; "cash_flow"]) 10
     ∧ QueryResponseCache._generate_key " Revenue "
         (Some EmptyString) (Some []) 10
       = QueryResponseCache._generate_key " Revenue " None None 10).
Proof.
  apply (cache_key_normalised " Revenue " "ACM"
           ["10k"; "cash_flow"] ["cash_flow"; "10k"] 10).
  - reflexivity.
  - reflexivity.
  - apply Permutation_swap.
Defined.
End key_sample.

End CacheFacts.

(** ** Conversation memory *)

Module ConversationFacts.
Import Conversation.

Lemma under_limit_iff (total max : Z) :
  under_limit total max = true
  ↔ QArith_base.Qle (QArith_base.Qmake total 4) (QArith_base.inject_Z max).
Proof. unfold under_limit. apply QArith_base.Qle_bool_iff. Qed.

(** C6. Trimming a history of at least two messages keeps a suffix of the
    messages, of at least two messages, whatever [max_tokens] is; when the
    estimate [total_chars / 4] does not exceed [max_tokens], it keeps them
    all. *)
Theorem trim_history_keeps_recent (h : ConversationHistory) :
  2 ≤ length (messages h) →
  let h' := _trim_history h in
  (∃ k, messages h' = drop k (messages h))
  ∧ 2 ≤ length (messages h')
  ∧ max_tokens h' = max_tokens h
  ∧ (QArith_base.Qle (QArith_base.Qmake (total_chars (messages h)) 4)
       (QArith_base.inject_Z (max_tokens h)) →
     messages h' = messages h).
Proof.
  intros Hlen. cbn zeta. unfold _trim_history.
  destruct (messages h) as [|m ms] eqn:Hmsgs; [cbn in Hlen; lia|].
  rewrite <- Hmsgs in *. clear Hmsgs m ms.
  destruct (under_limit _ _) eqn:Hunder.
  { repeat split; [by exists 0|done]. }
  set (k := Z.min _ _).
  assert (k ≤ Z.of_nat (length (messages h)) - 2)%Z as Hk by (unfold k; lia).
  repeat split.
  - destruct (0 <? k)%Z; cbn; [by eexists|by exists 0].
  - destruct (0 <? k)%Z; cbn; [|done]. rewrite length_drop. lia.
  - by destruct (0 <? k)%Z.
  - intros Hle%under_limit_iff. congruence.
Qed.

Lemma trim_history_keeps_recent_witness :
  let h := {| messages := [said "user" 10; said "assistant" 10; said "user" 10];
              max_tokens := 1 |} in
  let h' := _trim_history h in
  (∃ k, messages h' = drop k (messages h))
  ∧ 2 ≤ length (messages h')
  ∧ max_tokens h' = max_tokens h
  ∧ (QArith_base.Qle (QArith_base.Qmake (total_chars (messages h)) 4)
       (QArith_base.inject_Z (max_tokens h)) →
     messages h' = messages h).
Proof. apply trim_history_keeps_recent. cbn. lia. Defined.

(** Thirty characters against a budget of one token: only the oldest
    message goes, although the last two still exceed the budget. *)
Example trim_history_sample :
  messages (_trim_history
    {| messages := [said "user" 10; said "assistant" 10; said "user" 10];
       max_tokens := 1 |})
  = [said "assistant" 10; said "user" 10].
Proof. reflexivity. Qed.

(** *** The budget *)

Lemma total_chars_from (acc : Z) (msgs : list ConversationMessage) :
  foldl (λ acc msg, acc + msg_chars msg)%Z acc msgs
  = (acc + total_chars msgs)%Z.
Proof.
  unfold total_chars. revert acc.
  induction msgs as [|m msgs IH]; intros acc; cbn [foldl]; [lia|].
  rewrite IH, (IH (0 + msg_chars m)%Z). lia.
Qed.

Lemma total_chars_cons (m : ConversationMessage)
    (msgs : list ConversationMessage) :
  total_chars (m :: msgs) = (msg_chars m + total_chars msgs)%Z.
Proof. unfold total_chars at 1. cbn [foldl]. by rewrite total_chars_from. Qed.

Lemma total_chars_nonneg (msgs : list ConversationMessage) :
  (0 ≤ total_chars msgs)%Z.
Proof.
  induction msgs as [|m msgs IH]; [done|].
  rewrite total_chars_cons. unfold msg_chars. lia.
Qed.

(** A longer suffix holds no fewer characters. *)
Lemma total_chars_drop (i j : nat) (msgs : list ConversationMessage) :
  i ≤ j → (total_chars (drop j msgs) ≤ total_chars (drop i msgs))%Z.
Proof.
  revert i j. induction msgs as [|m msgs IH]; intros i j Hij.
  { by rewrite !drop_nil. }
  destruct i as [|i], j as [|j]; try lia; cbn [drop].
  - rewrite total_chars_cons.
    pose proof (IH 0 j ltac:(lia)) as Hj. rewrite drop_0 in Hj.
    unfold msg_chars. lia.
  - apply IH. lia.
Qed.

Lemma total_chars_drop_lookup (i : nat) (msgs : list ConversationMessage) :
  total_chars (drop i msgs)
  = (from_option msg_chars 0 (msgs !! i) + total_chars (drop (S i) msgs))%Z.
Proof.
  revert i. induction msgs as [|m msgs IH]; intros i.
  { by rewrite !drop_nil. }
  destruct i as [|i]; cbn [drop lookup list_lookup from_option].
  - by rewrite drop_0, total_chars_cons.
  - apply IH.
Qed.

(** The backward scan stops at the first message, counted from the end,
    with which the running total exceeds the limit. *)
Lemma keep_from_spec (msgs : list ConversationMessage) (n : nat)
    (chars_limit keep_from_index : Z) :
  let r := keep_from msgs n (total_chars (drop n msgs)) chars_limit
             keep_from_index in
  (r = keep_from_index ∧ (n = 0 ∨ (total_chars msgs ≤ chars_limit)%Z))
  ∨ ∃ i, i < n ∧ r = (Z.of_nat i + 1)%Z
         ∧ (chars_limit < total_chars (drop i msgs))%Z
         ∧ (S i = n ∨ (total_chars (drop (S i) msgs) ≤ chars_limit)%Z).
Proof.
  cbn zeta. induction n as [|n IH]; cbn [keep_from].
  { left. split; [done|by left]. }
  assert ((total_chars (drop (S n) msgs)
           + from_option msg_chars 0 (msgs !! n))%Z
          = total_chars (drop n msgs)) as ->
    by (rewrite (total_chars_drop_lookup n); lia).
  destruct (Z.ltb_spec chars_limit (total_chars (drop n msgs)))
    as [Hover|Hfits].
  - right. exists n. split; [lia|]. split; [done|]. split; [done|by left].
  - destruct IH as [[-> Hall]|(i & Hi & -> & Hover & Hfit)].
    + left. split; [done|]. right.
      destruct Hall as [->|Hall]; [by rewrite drop_0 in Hfits|done].
    + right. exists i. split; [lia|]. split; [done|]. split; [done|].
      right. destruct Hfit as [<-|Hfit]; done.
Qed.

Lemma under_limit_false (total max : Z) :
  under_limit total max = false → (max * 4 < total)%Z.
Proof.
  intros Hover. destruct (Z.le_gt_cases total (max * 4)) as [Hle|]; [|lia].
  assert (under_limit total max = true) as Htrue; [|congruence].
  apply under_limit_iff. unfold QArith_base.Qle. cbn. lia.
Qed.

(** What trimming keeps: the messages from some index [k] on, where [k]
    leaves at least two messages when it is not 0; what is kept fits the
    limit of [max_tokens * 4] characters unless no more than two messages
    are kept; and one more message would not fit. *)
Lemma trim_history_spec (h : ConversationHistory) :
  ∃ k, messages (_trim_history h) = drop k (messages h)
       ∧ max_tokens (_trim_history h) = max_tokens h
       ∧ (k = 0 ∨ k + 2 ≤ length (messages h))
       ∧ ((total_chars (drop k (messages h)) ≤ max_tokens h * 4)%Z
          ∨ length (messages h) ≤ k + 2)
       ∧ (0 < k →
          (max_tokens h * 4 < total_chars (drop (k - 1) (messages h)))%Z).
Proof.
  unfold _trim_history.
  destruct (messages h) as [|m ms] eqn:Hmsgs.
  { exists 0. rewrite Hmsgs. cbn. repeat split; [by left|right; lia|lia]. }
  rewrite <- Hmsgs in *.
  assert (0 < length (messages h)) as Hlen by (rewrite Hmsgs; cbn; lia).
  clear Hmsgs m ms.
  destruct (under_limit _ _) eqn:Hunder.
  { exists 0. rewrite drop_0. repeat split; [by left| |lia].
    left. apply under_limit_iff in Hunder.
    unfold QArith_base.Qle in Hunder. cbn in Hunder. lia. }
  apply under_limit_false in Hunder.
  pose proof (keep_from_spec (messages h) (length (messages h))
                (max_tokens h * 4) (Z.of_nat (length (messages h)))) as Hscan.
  cbn zeta in Hscan. rewrite drop_all in Hscan.
  change (total_chars []) with 0%Z in Hscan.
  destruct Hscan as [[_ [?|?]]|(i & Hi & -> & Hover & Hfit)]; [lia..|].
  set (len := length (messages h)) in *.
  destruct (Z.ltb_spec 0 (Z.min (Z.of_nat i + 1) (Z.of_nat len - 2)))
    as [Hpos|Hnone].
  - exists (Z.to_nat (Z.min (Z.of_nat i + 1) (Z.of_nat len - 2))).
    cbn [messages max_tokens].
    split; [done|]. split; [done|]. split; [right; lia|]. split.
    + destruct (Z.min_spec (Z.of_nat i + 1) (Z.of_nat len - 2))
        as [[Hlt ->]|[Hge ->]].
      * left. replace (Z.to_nat (Z.of_nat i + 1)) with (S i) by lia.
        destruct Hfit as [?|?]; [lia|done].
      * right. lia.
    + intros _.
      eapply Z.lt_le_trans; [exact Hover|]. apply total_chars_drop. lia.
  - exists 0. rewrite drop_0. repeat split; [by left|right; lia|lia].
Qed.

(** X6. Trimming keeps the longest suffix of the history that fits the
    budget of [max_tokens * 4] characters, but never fewer than the last two
    messages: what is kept fits the budget or consists of at most two
    messages, and when a message is dropped, keeping one more would exceed
    the budget. *)
Theorem trim_history_budget (h : ConversationHistory) :
  let h' := _trim_history h in
  ∃ k, messages h' = drop k (messages h)
       ∧ ((total_chars (messages h') ≤ max_tokens h * 4)%Z
          ∨ length (messages h') ≤ 2)
       ∧ (0 < k →
          (max_tokens h * 4 < total_chars (drop (k - 1) (messages h)))%Z).
Proof.
  cbn zeta.
  destruct (trim_history_spec h) as (k & Hdrop & _ & _ & Hfit & Hmax).
  exists k. split; [done|]. split; [|done].
  rewrite Hdrop, length_drop. destruct Hfit; [by left|right; lia].
Qed.

(** X7. [add_message] always keeps the message it adds, as the last of the
    history; what precedes it is a suffix of the earlier history; and after
    the call the history fits the budget of [max_tokens * 4] characters or
    holds at most two messages. *)
Theorem add_message_keeps_new (role content : string) (now : Z)
    (h : ConversationHistory) :
  let msg := {| role := role; content := content; timestamp := now |} in
  let h' := add_message role content now h in
  (∃ k, messages h' = drop k (messages h) ++ [msg])
  ∧ max_tokens h' = max_tokens h
  ∧ ((total_chars (messages h') ≤ max_tokens h * 4)%Z
     ∨ length (messages h') ≤ 2).
Proof.
  cbn zeta. unfold add_message.
  destruct (trim_history_spec
              {| messages := messages h
                             ++ [{| role := role; content := content;
                                    timestamp := now |}];
                 max_tokens := max_tokens h |})
    as (k & Hdrop & Hmax & Hk & Hfit & _).
  cbn [messages max_tokens] in *. rewrite length_app in *. cbn [length] in *.
  split; [|split; [done|]].
  - exists k. rewrite Hdrop. apply drop_app_le. lia.
  - rewrite Hdrop, length_drop, length_app. cbn [length].
    destruct Hfit; [by left|right; lia].
Qed.

(** X8. [SessionManager]: a session that was just created is found and
    is empty, also when a session of that id existed before (its messages
    are gone); without an id, the session is created under the generated
    one; a deleted session is not found; creating or deleting a session
    leaves the sessions of other ids as they are, and deleting an id that is
    not there changes nothing. *)
Theorem session_manager_round_trip (new_id session_id other : string)
    (sessions : SessionManager) :
  get_session session_id
    (create_session new_id (Some session_id) sessions).2
  = Some (init 4000)
  ∧ (create_session new_id (Some session_id) sessions).1 = session_id
  ∧ (create_session new_id None sessions).1 = new_id
  ∧ get_session new_id (create_session new_id None sessions).2
    = Some (init 4000)
  ∧ get_session session_id (delete_session session_id sessions) = None
  ∧ (get_session session_id sessions = None →
     delete_session session_id sessions = sessions)
  ∧ (other ≠ session_id →
     get_session other (create_session new_id (Some session_id) sessions).2
     = get_session other sessions
     ∧ get_session other (delete_session session_id sessions)
       = get_session other sessions).
Proof.
  unfold get_session, create_session, delete_session, SessionManager in *.
  cbn. rewrite !lookup_insert_eq.
  split; [done|]. split; [done|]. split; [done|]. split; [done|]. split.
  { case_bool_decide as Hin; [apply lookup_delete_eq|].
    by apply eq_None_not_Some. }
  split.
  { intros Hnone. rewrite bool_decide_false; [done|].
    rewrite Hnone. by intros [? ?]. }
  intros Hne. rewrite lookup_insert_ne by done. split; [done|].
  case_bool_decide; [|done]. by rewrite lookup_delete_ne.
Qed.

End ConversationFacts.

(** ** Citations *)

Module CitationFacts.
Import Citations.

Local Abbreviation key := _create_doc_key.

Lemma position_app (k : string) (l l' : list string) :
  k ∈ l → position k (l ++ l') = position k l.
Proof.
  induction l as [|k' l IH]; [by intros ?%elem_of_nil|].
  cbn. destruct (String.eqb_spec k' k) as [->|Hne]; [done|].
  intros [?|Hk]%elem_of_cons; [done|]. by rewrite IH.
Qed.

Lemma position_fresh (k : string) (l : list string) :
  k ∉ l → position k (l ++ [k]) = length l.
Proof.
  induction l as [|k' l IH]; cbn.
  - by rewrite String.eqb_refl.
  - intros [Hne Hk]%not_elem_of_cons.
    destruct (String.eqb_spec k' k) as [->|_]; [done|]. by rewrite IH.
Qed.

Lemma position_lt (k : string) (l : list string) :
  k ∈ l → position k l < length l.
Proof.
  induction l as [|k' l IH]; [by intros ?%elem_of_nil|].
  cbn. destruct (String.eqb_spec k' k) as [->|Hne]; [lia|].
  intros [?|Hk]%elem_of_cons; [done|]. specialize (IH Hk). lia.
Qed.

Lemma foldl_see_extends (ks seen : list string) :
  ∃ extra, foldl see seen ks = seen ++ extra.
Proof.
  revert seen. induction ks as [|k ks IH]; intros seen.
  - exists []. by rewrite app_nil_r.
  - cbn. unfold see at 2. case_bool_decide.
    + apply IH.
    + destruct (IH (seen ++ [k])) as [extra ->].
      exists (k :: extra). by rewrite <- app_assoc.
Qed.

Lemma foldl_see_elem (ks seen : list string) (k : string) :
  k ∈ seen ∨ k ∈ ks → k ∈ foldl see seen ks.
Proof.
  revert seen. induction ks as [|k' ks IH]; intros seen.
  - intros [?|?%elem_of_nil]; done.
  - intros Hk. cbn. apply IH.
    destruct Hk as [Hk|[->|Hk]%elem_of_cons]; [| |by right].
    + left. unfold see. case_bool_decide; [done|]. apply elem_of_app. by left.
    + left. unfold see. case_bool_decide; [done|].
      apply elem_of_app. right. by left.
Qed.

Lemma tracks_init : tracks init [].
Proof. split; [done|]. split; [constructor|]. intros k. apply lookup_empty. Qed.

Lemma add_document_tracks (d : Document) (t : CitationTracker)
    (seen : list string) :
  tracks t seen →
  (add_document d t).1 = (Z.of_nat (position (key d) (see seen (key d))) + 1)%Z
  ∧ tracks (add_document d t).2 (see seen (key d)).
Proof.
  intros (Hkeys & Hnodup & Hmap). unfold add_document, see.
  rewrite Hmap. case_bool_decide as Hseen; cbn [fst snd]; [done|].
  assert (length (sources t) = length seen) as Hlen
    by (by rewrite <- Hkeys, length_fmap).
  rewrite position_fresh by done. split; [by rewrite Hlen|].
  unfold tracks. cbn [sources source_map].
  split; [by rewrite fmap_app, Hkeys|]. split.
  { apply NoDup_app. split; [done|]. split; [|apply NoDup_singleton].
    by intros x Hx ->%list_elem_of_singleton. }
  intros k. destruct (decide (key d = k)) as [<-|Hne].
  - rewrite lookup_insert_eq, bool_decide_true
      by (apply elem_of_app; right; by left).
    by rewrite position_fresh, Hlen.
  - rewrite lookup_insert_ne, Hmap by done.
    case_bool_decide as Hk.
    + rewrite bool_decide_true by (apply elem_of_app; by left).
      by rewrite position_app.
    + rewrite bool_decide_false; [done|].
      intros [?|?%list_elem_of_singleton]%elem_of_app; done.
Qed.

Lemma add_all_tracks (documents : list Document) (t : CitationTracker)
    (seen : list string) :
  tracks t seen →
  let seen' := foldl see seen (key <$> documents) in
  (add_all documents t).1
  = (λ d, (Z.of_nat (position (key d) seen') + 1)%Z) <$> documents
  ∧ tracks (add_all documents t).2 seen'.
Proof.
  revert t seen. induction documents as [|d documents IH]; intros t seen Ht.
  { done. }
  cbn zeta. cbn [add_all fmap list_fmap foldl].
  destruct (add_document_tracks d t seen Ht) as [Hid Ht'].
  destruct (add_document d t) as [source_id t'] eqn:Hadd. cbn in Hid, Ht'.
  specialize (IH t' _ Ht'). cbn zeta in IH. destruct IH as [Hids Ht''].
  destruct (add_all documents t') as [ids t''] eqn:Hall. cbn in Hids, Ht''.
  cbn. split; [|done]. f_equal; [|done].
  rewrite Hid.
  destruct (foldl_see_extends (key <$> documents) (see seen (key d)))
    as [extra ->].
  rewrite position_app; [done|].
  unfold see. case_bool_decide; [done|]. apply elem_of_app. right. by left.
Qed.

Lemma context_parts_add_all (documents : list Document) (t : CitationTracker) :
  context_parts documents t
  = (zip_with block (add_all documents t).1 documents,
     (add_all documents t).2).
Proof.
  revert t. induction documents as [|d documents IH]; intros t; [done|].
  cbn. destruct (add_document d t) as [source_id t'].
  rewrite IH. by destruct (add_all documents t').
Qed.

Lemma first_seen_NoDup (ks seen : list string) :
  NoDup (seen ++ ks) → foldl see seen ks = seen ++ ks.
Proof.
  revert seen. induction ks as [|k ks IH]; intros seen Hnd.
  - by rewrite app_nil_r.
  - cbn. unfold see at 2. rewrite bool_decide_false.
    + rewrite IH; rewrite <- app_assoc; done.
    + apply NoDup_app in Hnd as (_ & Hnd & _). intros Hk.
      apply (Hnd k Hk). by left.
Qed.

Lemma position_lookup (ks : list string) (i : nat) (k : string) :
  NoDup ks → ks !! i = Some k → position k ks = i.
Proof.
  revert i. induction ks as [|k' ks IH]; intros i Hnd Hi; [done|].
  apply NoDup_cons in Hnd as [Hk' Hnd]. cbn.
  destruct i as [|i]; cbn in Hi.
  - injection Hi as ->. by rewrite String.eqb_refl.
  - destruct (String.eqb_spec k' k) as [->|_].
    + exfalso. apply Hk'. by eapply list_elem_of_lookup_2.
    + f_equal. by apply IH.
Qed.

Lemma citation_ids_first_seen_aux (documents : list Document) :
  (add_all documents init).1
  = (λ d, (Z.of_nat (position (key d) (first_seen (key <$> documents))) + 1)%Z)
    <$> documents
  ∧ (NoDup (key <$> documents) →
     first_seen (key <$> documents) = key <$> documents).
Proof.
  split.
  - apply (add_all_tracks documents init [] tracks_init).
  - intros Hnd. unfold first_seen. by rewrite first_seen_NoDup.
Qed.

(** C7, as amended.  A tracker that starts empty gives each passage the
    position of its [filename]/[chunk_id] key among the distinct keys in
    first-seen order, counted from 1: a key seen before gets the id it got
    then, a new key the next id.  [format_context_with_citations] renders one
    [[Source N]] block per passage of its input, in input order, with the id
    of that passage. *)
Theorem citation_ids_first_seen (documents : list Document) :
  let seen := first_seen (key <$> documents) in
  let ids :=
    (λ d, (Z.of_nat (position (key d) seen) + 1)%Z) <$> documents in
  (add_all documents init).1 = ids
  ∧ key <$> sources (add_all documents init).2 = seen
  ∧ format_context_with_citations documents init
    = (Str.join (newline +:+ newline) (zip_with block ids documents),
       (add_all documents init).2).
Proof.
  cbn zeta.
  destruct (add_all_tracks documents init [] tracks_init) as [Hids Ht].
  cbn zeta in Hids, Ht. fold (first_seen (key <$> documents)) in Hids, Ht.
  split; [done|split].
  - apply Ht.
  - unfold format_context_with_citations.
    by rewrite context_parts_add_all, Hids.
Qed.

(** Adding a second passage with the key of one just added returns the same
    id and changes nothing, in every tracker built by [add_document]. *)
Lemma add_document_same_key (d d' : Document) (t : CitationTracker)
    (seen : list string) :
  tracks t seen → key d' = key d →
  add_document d' (add_document d t).2 = add_document d t.
Proof.
  intros Ht Hkey.
  destruct (add_document_tracks d t seen Ht) as [Hid (_ & _ & Hmap)].
  destruct (add_document d t) as [source_id t'] eqn:Hadd. cbn in Hid, Hmap.
  cbn [snd]. unfold add_document at 1. rewrite Hkey, Hmap.
  rewrite bool_decide_true; [by rewrite Hid|].
  unfold see. case_bool_decide; [done|]. apply elem_of_app. right. by left.
Qed.

(** When the passages have pairwise distinct keys, the ids are 1, 2, ..., so
    every passage has a marker of its own. *)
Lemma citation_ids_distinct_keys (documents : list Document) :
  NoDup (key <$> documents) →
  (add_all documents init).1
  = (λ i, (Z.of_nat i + 1)%Z) <$> seq 0 (length documents).
Proof.
  intros Hnd.
  destruct (citation_ids_first_seen_aux documents) as [-> Hseen].
  apply list_eq. intros i.
  rewrite !list_lookup_fmap.
  destruct (documents !! i) as [d|] eqn:Hd; cbn.
  - rewrite lookup_seq_lt by (by eapply lookup_lt_Some). cbn.
    do 3 f_equal. rewrite Hseen by done. apply position_lookup; [done|].
    by rewrite list_lookup_fmap, Hd.
  - rewrite lookup_seq_ge; [done|]. by apply lookup_ge_None.
Qed.

(** C7, as stated, fails: two passages of one file without [chunk_id] share
    the key, so the context carries two [[Source 1]] markers for the one
    source the tracker lists. *)
Lemma format_context_repeats_marker :
  let documents :=
    [chunk "10k.md" None "Revenue rose."; chunk "10k.md" None "Debt fell."] in
  let '(context, t) := format_context_with_citations documents init in
  length (sources t) = 1
  ∧ count_occurrences "[Source 1]" context = 2
  ∧ count_occurrences "[Source 2]" context = 0.
Proof. vm_compute. done. Qed.

(** *** Markers and the list of sources *)

Lemma lookup_position (k : string) (ks : list string) :
  k ∈ ks → ks !! position k ks = Some k.
Proof.
  induction ks as [|k' ks IH]; [by intros ?%elem_of_nil|].
  cbn. destruct (String.eqb_spec k' k) as [->|Hne]; [done|].
  intros [?|Hk]%elem_of_cons; [done|]. by apply IH.
Qed.

Lemma elem_of_see (seen : list string) (k k' : string) :
  k' ∈ see seen k ↔ k' ∈ seen ∨ k' = k.
Proof.
  unfold see. case_bool_decide as Hk.
  - split; [by left|]. by intros [?| ->].
  - rewrite elem_of_app, list_elem_of_singleton. done.
Qed.

Lemma add_all_cons_tracker (d : Document) (documents : list Document)
    (t : CitationTracker) :
  (add_all (d :: documents) t).2 = (add_all documents (add_document d t).2).2.
Proof.
  cbn [add_all]. destruct (add_document d t) as [source_id t'].
  cbn [snd]. by destruct (add_all documents t').
Qed.

(** Every source the tracker lists after adding [documents] was listed
    before, or is the first of the [documents] with its key, a key not seen
    before. *)
Lemma add_all_sources (documents : list Document) (t : CitationTracker)
    (seen : list string) (n : nat) (d0 : Document) :
  tracks t seen →
  sources (add_all documents t).2 !! n = Some d0 →
  sources t !! n = Some d0
  ∨ ∃ i, documents !! i = Some d0 ∧ (key d0 ∉ seen)
         ∧ (∀ i' d', i' < i → documents !! i' = Some d' → key d' ≠ key d0).
Proof.
  revert t seen. induction documents as [|d documents IH]; intros t seen Ht.
  { cbn. by left. }
  rewrite add_all_cons_tracker. intros Hn.
  destruct (add_document_tracks d t seen Ht) as [_ Ht'].
  destruct (IH _ _ Ht' Hn) as [Hold|(i & Hi & Hnew & Hfirst)].
  - unfold add_document in Hold.
    destruct Ht as (_ & _ & Hmap). specialize (Hmap (key d)).
    destruct (source_map t !! key d) eqn:Hget; cbn [snd sources] in Hold;
      [by left|].
    apply lookup_app_Some in Hold as [?|[_ Hd]]; [by left|].
    apply list_lookup_singleton_Some in Hd as [_ ->].
    right. exists 0. split; [done|]. split; [|intros; lia].
    intros Hin. by rewrite bool_decide_true in Hmap.
  - right. exists (S i). split; [done|].
    rewrite elem_of_see in Hnew. split; [tauto|].
    intros [|i'] d' Hlt Hd'; cbn in Hd'.
    + injection Hd' as <-. intros Heq. apply Hnew. by right.
    + apply (Hfirst i'); [lia|done].
Qed.

Lemma foldl_see_from (ks seen : list string) (k : string) :
  k ∈ foldl see seen ks → k ∈ seen ∨ k ∈ ks.
Proof.
  revert seen. induction ks as [|k' ks IH]; intros seen; cbn; [by left|].
  intros [Hk|Hk]%IH; [|right; by right].
  apply elem_of_see in Hk as [?| ->]; [by left|right; by left].
Qed.

(** The tracker lists no more sources than it was given passages. *)
Lemma length_sources_format_context (documents : list Document) :
  length (sources (format_context_with_citations documents init).2)
  ≤ length documents.
Proof.
  unfold format_context_with_citations.
  rewrite context_parts_add_all. cbn [snd].
  destruct (add_all_tracks documents init [] tracks_init)
    as [_ (Hkeys & Hnodup & _)].
  rewrite <- (length_fmap key (sources _)), Hkeys.
  rewrite <- (length_fmap key documents).
  apply submseteq_length, NoDup_submseteq; [done|].
  intros k [?%elem_of_nil|?]%foldl_see_from; done.
Qed.

(** X9. The markers of the context and the list of sources agree.  After
    [format_context_with_citations], [get_sources_list] has one entry per
    distinct key, numbered 1, 2, ... in order; and the id in the marker of
    each passage is the number of an entry of that list, which shows the
    first passage of the input with the key of that passage. *)
Theorem markers_refer_to_listed_sources (documents : list Document) :
  let t := (format_context_with_citations documents init).2 in
  let listed := Chain.get_sources_list (sources t) in
  length listed = length (first_seen (key <$> documents))
  ∧ (∀ n src, listed !! n = Some src →
       Source.source_id src = (Z.of_nat n + 1)%Z)
  ∧ ∀ j d, documents !! j = Some d →
      ∃ n i d0 src,
        (add_all documents init).1 !! j = Some (Z.of_nat n + 1)%Z
        ∧ listed !! n = Some src
        ∧ documents !! i = Some d0 ∧ i ≤ j ∧ key d0 = key d
        ∧ (∀ i' d', i' < i → documents !! i' = Some d' → key d' ≠ key d)
        ∧ Source.filename src = default "unknown" (filename (metadata d0))
        ∧ Source.chunk_id src = chunk_id (metadata d0)
        ∧ Source.text_preview src
          = (if 200 <? String.length (page_content d0)
             then Str.take 200 (page_content d0) +:+ "..."
             else Str.take 200 (page_content d0)).
Proof.
  cbn zeta. unfold format_context_with_citations.
  rewrite context_parts_add_all. cbn [snd].
  destruct (add_all_tracks documents init [] tracks_init) as [Hids Ht].
  cbn zeta in Hids, Ht. fold (first_seen (key <$> documents)) in Hids, Ht.
  set (t := (add_all documents init).2) in *.
  set (seen := first_seen (key <$> documents)) in *.
  destruct Ht as (Hkeys & Hnodup & Hmap).
  unfold Chain.get_sources_list.
  split; [by rewrite length_imap, <- Hkeys, length_fmap|]. split.
  { intros n src. rewrite list_lookup_imap.
    destruct (sources t !! n); cbn; [|done]. by intros [= <-]. }
  intros j d Hd.
  assert (key d ∈ seen) as Hseen.
  { apply foldl_see_elem. right.
    apply list_elem_of_fmap. exists d. split; [done|].
    by eapply list_elem_of_lookup_2. }
  assert ((key <$> sources t) !! position (key d) seen = Some (key d))
    as Hpos by (rewrite Hkeys; by apply lookup_position).
  rewrite list_lookup_fmap in Hpos.
  destruct (sources t !! position (key d) seen) as [d0|] eqn:Hd0;
    [|done].
  injection Hpos as Hkey.
  destruct (add_all_sources documents init [] _ d0 tracks_init Hd0)
    as [Hnil|(i & Hi & _ & Hfirst)]; [done|].
  exists (position (key d) seen), i, d0. eexists.
  split; [by rewrite Hids, list_lookup_fmap, Hd|].
  split; [by rewrite list_lookup_imap, Hd0|].
  split; [done|]. split.
  { destruct (decide (i ≤ j)) as [|Hgt]; [done|].
    exfalso. apply (Hfirst j d); [lia|done|done]. }
  split; [done|]. split; [by rewrite <- Hkey|]. done.
Qed.

End CitationFacts.

(** ** Query expansion *)

Module QueryExpanderFacts.
Import QueryExpander.

(** A failed decomposition call degrades to the query itself. *)
Lemma decompose_failure (llm : ChatModel) (query : string) (e : exn) :
  invoke llm (DecomposePrompt query) = Raises e →
  _decompose_query llm query = [query].
Proof.
  intros Hfail. unfold _decompose_query. rewrite Hfail.
  by destruct (negb _).
Qed.

(** A failed expansion call contributes no variation. *)
Lemma variations_failure (llm : ChatModel) (query : string)
    (num_variations : Z) (e : exn) :
  invoke llm (ExpansionPrompt query num_variations) = Raises e →
  _generate_variations llm query num_variations = [].
Proof. intros Hfail. unfold _generate_variations. by rewrite Hfail. Qed.

Lemma expand_sub_queries_head (llm : ChatModel) (num_variations : Z)
    (query : string) (rest sub_queries : list string) :
  ∃ rest', foldl (expand_sub_query llm num_variations) (query :: rest)
             sub_queries = query :: rest'.
Proof.
  revert rest. induction sub_queries as [|q qs IH]; intros rest; [by eexists|].
  cbn [foldl]. unfold expand_sub_query at 2, extend_new.
  destruct (bool_decide _), (_should_expand _); cbn; apply IH.
Qed.

(** The plan is never empty and starts with the original query, whatever the
    language model does. *)
Lemma expand_starts_with_query (llm : ChatModel) (query : string)
    (num_variations : Z) :
  ∃ rest, expand llm query num_variations = query :: rest.
Proof.
  unfold expand. destruct (1 <? _).
  - apply expand_sub_queries_head.
  - unfold extend_new. destruct (_should_expand _); by eexists.
Qed.

(** C9.  The variations of one batch are checked against the plan as it was
    before the batch: a line the model repeats enters the plan twice. *)
Theorem expand_repeats_variation :
  expand repeating_llm "Compare revenue growth across business segments" 2
  = ["Compare revenue growth across business segments";
     "Revenue growth by segment"; "Revenue growth by segment"]
  ∧ ¬ NoDup
        (expand repeating_llm
           "Compare revenue growth across business segments" 2).
Proof.
  assert (expand repeating_llm
            "Compare revenue growth across business segments" 2
          = ["Compare revenue growth across business segments";
             "Revenue growth by segment"; "Revenue growth by segment"])
    as Hrun by (by vm_compute).
  split; [done|]. rewrite Hrun. intros Hnd.
  apply NoDup_cons in Hnd as [_ Hnd]. apply NoDup_cons in Hnd as [Hin _].
  apply Hin. by left.
Qed.

(** *** The shape of the plan *)

Section plan.
Variable llm : ChatModel.

Lemma parse_lines_nonempty (content : string) :
  Forall (λ q, q ≠ EmptyString) (parse_lines content).
Proof.
  unfold parse_lines. apply Forall_forall. intros q Hq.
  by apply list_elem_of_filter in Hq as [? _].
Qed.

Lemma generate_variations_shape (query : string) (num_variations : Z) :
  (0 ≤ num_variations)%Z →
  length (_generate_variations llm query num_variations)
  ≤ Z.to_nat num_variations
  ∧ Forall (λ q, q ≠ EmptyString)
      (_generate_variations llm query num_variations).
Proof.
  intros Hn. unfold _generate_variations.
  destruct (invoke llm _) as [content|]; [|cbn; split; [lia|done]].
  rewrite slice_to_nonneg by done. split.
  - rewrite length_take. lia.
  - apply Forall_take, parse_lines_nonempty.
Qed.

(** A decomposition is never empty, and it is the query alone or made of
    non-empty sub-queries. *)
Lemma decompose_query_shape (query : string) :
  _decompose_query llm query ≠ []
  ∧ Forall (λ q, q = query ∨ q ≠ EmptyString) (_decompose_query llm query).
Proof.
  unfold _decompose_query.
  destruct (negb _); [by split; [|repeat constructor]|].
  destruct (invoke llm _) as [content|]; [|by split; [|repeat constructor]].
  destruct (filter _ _) as [|q qs] eqn:Hclean;
    [by split; [|repeat constructor]|].
  split; [done|]. rewrite <- Hclean. apply Forall_forall. intros x Hx.
  right. by apply list_elem_of_filter in Hx as [? _].
Qed.

Lemma extend_new_shape (P : string → Prop)
    (all_queries variations : list string) :
  Forall P all_queries → Forall P variations →
  length (extend_new all_queries variations)
  ≤ length all_queries + length variations
  ∧ Forall P (extend_new all_queries variations).
Proof.
  intros Hall Hvs. unfold extend_new. split.
  - rewrite length_app. pose proof (length_filter (λ v, v ∉ all_queries)
      variations). lia.
  - apply Forall_app. split; [done|].
    apply Forall_forall. intros q [_ Hq]%list_elem_of_filter.
    by apply (proj1 (Forall_forall _ _) Hvs).
Qed.

Lemma expand_sub_query_shape (P : string → Prop) (num_variations : Z)
    (all_queries : list string) (sub_query : string) :
  (0 ≤ num_variations)%Z →
  (∀ q, q ≠ EmptyString → P q) →
  Forall P all_queries → P sub_query →
  length (expand_sub_query llm num_variations all_queries sub_query)
  ≤ length all_queries + 1 + Z.to_nat num_variations
  ∧ Forall P (expand_sub_query llm num_variations all_queries sub_query).
Proof.
  intros Hn HP Hall Hsub. unfold expand_sub_query.
  set (all' := if bool_decide _ then _ else _).
  assert (length all' ≤ length all_queries + 1 ∧ Forall P all') as [Hlen Hall'].
  { unfold all'. case_bool_decide; [split; [lia|done]|].
    rewrite length_app. split; [done|].
    apply Forall_app. split; [done|]. by apply Forall_singleton. }
  destruct (_should_expand sub_query); [|split; [lia|done]].
  destruct (generate_variations_shape sub_query num_variations Hn)
    as [Hvlen Hvs].
  destruct (extend_new_shape P all'
              (_generate_variations llm sub_query num_variations))
    as [Hxlen Hx]; [done| |split; [lia|done]].
  eapply Forall_impl; [exact Hvs|]. auto.
Qed.

Lemma expand_sub_queries_shape (P : string → Prop) (num_variations : Z)
    (all_queries sub_queries : list string) :
  (0 ≤ num_variations)%Z →
  (∀ q, q ≠ EmptyString → P q) →
  Forall P all_queries → Forall P sub_queries →
  length (foldl (expand_sub_query llm num_variations) all_queries sub_queries)
  ≤ length all_queries + length sub_queries * (1 + Z.to_nat num_variations)
  ∧ Forall P
      (foldl (expand_sub_query llm num_variations) all_queries sub_queries).
Proof.
  intros Hn HP. revert all_queries.
  induction sub_queries as [|q qs IH]; intros all_queries Hall Hsubs.
  { cbn. split; [lia|done]. }
  apply Forall_cons in Hsubs as [Hq Hqs]. cbn [foldl].
  destruct (expand_sub_query_shape P num_variations all_queries q Hn HP
              Hall Hq) as [Hlen Hall'].
  destruct (IH _ Hall' Hqs) as [Hlen' Hall'']. split; [|done].
  cbn [length]. lia.
Qed.

(** X12. For [num_variations >= 0], the plan of [expand] holds at most
    [1 + num_variations] queries when the query is not decomposed, and at
    most [1 + k * (1 + num_variations)] when it is decomposed into [k]
    sub-queries; and every query of the plan other than the original one is
    a non-empty string. *)
Theorem expand_plan_shape (query : string) (num_variations : Z) :
  (0 ≤ num_variations)%Z →
  let plan := expand llm query num_variations in
  let sub_queries := _decompose_query llm query in
  (length sub_queries ≤ 1 → length plan ≤ 1 + Z.to_nat num_variations)
  ∧ length plan
    ≤ 1 + length sub_queries * (1 + Z.to_nat num_variations)
  ∧ Forall (λ q, q = query ∨ q ≠ EmptyString) plan.
Proof.
  intros Hn. cbn zeta. unfold expand.
  destruct (decompose_query_shape query) as [Hne Hsubs].
  destruct (Nat.ltb_spec 1 (length (_decompose_query llm query)))
    as [Hmany|Hone].
  - destruct (expand_sub_queries_shape (λ q, q = query ∨ q ≠ EmptyString)
                num_variations [query] (_decompose_query llm query) Hn)
      as [Hlen Hall]; [by right|by repeat constructor; left|done|].
    cbn [length] in Hlen. split; [lia|]. split; [lia|done].
  - assert (1 ≤ length (_decompose_query llm query))
      by (destruct (_decompose_query llm query); [done|cbn; lia]).
    destruct (_should_expand query).
    + destruct (generate_variations_shape query num_variations Hn)
        as [Hvlen Hvs].
      destruct (extend_new_shape (λ q, q = query ∨ q ≠ EmptyString) [query]
                  (_generate_variations llm query num_variations))
        as [Hlen Hall]; [by repeat constructor; left| |].
      { eapply Forall_impl; [exact Hvs|]. intros q Hq. by right. }
      cbn [length] in Hlen. split; [lia|]. split; [nia|done].
    + cbn. split; [lia|]. split; [nia|]. by repeat constructor; left.
Qed.

(** X13. When the model fails every expansion request, the plan is not
    lost: it holds the original query and, when the query is decomposed into
    two or more sub-queries, those sub-queries, each query once. *)
Theorem expand_without_variations (query : string) (num_variations : Z) :
  (∀ q, ∃ e, invoke llm (ExpansionPrompt q num_variations) = Raises e) →
  let plan := expand llm query num_variations in
  let sub_queries := _decompose_query llm query in
  NoDup plan
  ∧ ∀ q, q ∈ plan ↔ q = query ∨ (1 < length sub_queries ∧ q ∈ sub_queries).
Proof.
  intros Hdown. cbn zeta.
  assert (∀ q, _generate_variations llm q num_variations = []) as Hnone.
  { intros q. destruct (Hdown q) as [e He].
    by apply (variations_failure _ _ _ e). }
  assert (∀ all_queries q,
    expand_sub_query llm num_variations all_queries q
    = if bool_decide (q ∈ all_queries) then all_queries
      else all_queries ++ [q]) as Hstep.
  { intros all_queries q. unfold expand_sub_query, extend_new.
    rewrite Hnone. cbn. rewrite app_nil_r. by destruct (_should_expand q). }
  assert (∀ sub_queries all_queries, NoDup all_queries →
    NoDup (foldl (expand_sub_query llm num_variations) all_queries
             sub_queries)
    ∧ ∀ q, q ∈ foldl (expand_sub_query llm num_variations) all_queries
                 sub_queries
           ↔ q ∈ all_queries ∨ q ∈ sub_queries) as Hfold.
  { induction sub_queries as [|s sub_queries IH]; intros all_queries Hnd.
    { split; [done|]. intros q. cbn. rewrite elem_of_nil. tauto. }
    cbn [foldl]. rewrite Hstep.
    destruct (IH (if bool_decide (s ∈ all_queries) then all_queries
                  else all_queries ++ [s])) as [Hnd' Hin].
    { case_bool_decide as Hs; [done|]. apply NoDup_app.
      split; [done|]. split; [|apply NoDup_singleton].
      by intros x Hx ->%list_elem_of_singleton. }
    split; [done|]. intros q. rewrite Hin, elem_of_cons.
    case_bool_decide as Hs.
    - split; [tauto|]. intros [?|[->|?]]; tauto.
    - rewrite elem_of_app, list_elem_of_singleton. tauto. }
  unfold expand, extend_new. rewrite Hnone. cbn [filter list_filter].
  destruct (Nat.ltb_spec 1 (length (_decompose_query llm query)))
    as [Hmany|Hone].
  - destruct (Hfold (_decompose_query llm query) [query])
      as [Hnd Hin]; [apply NoDup_singleton|].
    split; [done|]. intros q. rewrite Hin, list_elem_of_singleton. tauto.
  - assert (NoDup [query] ∧ ∀ q, q ∈ [query] ↔ q = query
              ∨ (1 < length (_decompose_query llm query)
                 ∧ q ∈ _decompose_query llm query)) as Hsingle.
    { split; [apply NoDup_singleton|]. intros q.
      rewrite list_elem_of_singleton. split; [tauto|]. intros [?|[? _]];
        [done|lia]. }
    destruct (_should_expand query); [by rewrite app_nil_r|done].
Qed.
End plan.

Lemma expand_plan_shape_witness :
  let plan :=
    expand repeating_llm "Compare revenue growth across business segments" 2 in
  let sub_queries :=
    _decompose_query repeating_llm
      "Compare revenue growth across business segments" in
  (length sub_queries ≤ 1 → length plan ≤ 1 + Z.to_nat 2)
  ∧ length plan ≤ 1 + length sub_queries * (1 + Z.to_nat 2)
  ∧ Forall (λ q, q = "Compare revenue growth across business segments"
                 ∨ q ≠ EmptyString) plan.
Proof. apply expand_plan_shape. lia. Defined.

Lemma expand_without_variations_witness :
  let plan :=
    expand decomposing_llm "What was revenue? What are the risks?" 2 in
  let sub_queries :=
    _decompose_query decomposing_llm "What was revenue? What are the risks?" in
  NoDup plan
  ∧ ∀ q, q ∈ plan
         ↔ q = "What was revenue? What are the risks?"
           ∨ (1 < length sub_queries ∧ q ∈ sub_queries).
Proof.
  apply expand_without_variations. intros q. by exists ExternalError.
Defined.

(** Two questions in one: the model being down for expansions, the plan is
    the question and its two parts. *)
Example expand_decomposed_sample :
  expand decomposing_llm "What was revenue? What are the risks?" 2
  = ["What was revenue? What are the risks?"; "What was revenue?";
     "What are the risks?"].
Proof. by vm_compute. Qed.

End QueryExpanderFacts.

(** ** Contextual compression *)

Module CompressorFacts.
Import Compressor.

(** The slice [l[i*b : i*b + b]] is the [i]-th batch of [b] elements. *)
Lemma slice_batch {A} (i b : nat) (l : list A) :
  slice (Z.of_nat (i * b)) (Z.of_nat (i * b) + Z.of_nat b) l
  = take b (drop (i * b) l).
Proof.
  unfold slice, slice_index.
  destruct (Z.ltb_spec (Z.of_nat (i * b)) 0); [lia|].
  destruct (Z.ltb_spec (Z.of_nat (i * b) + Z.of_nat b) 0); [lia|].
  destruct (decide (i * b ≤ length l)) as [Hin|Hout].
  - replace (Z.to_nat (Z.min (Z.of_nat (length l)) (Z.of_nat (i * b))))
      with (i * b) by lia.
    destruct (decide (b ≤ length l - i * b)) as [Hfull|Hrest].
    + f_equal. lia.
    + rewrite !take_ge; [done|rewrite length_drop; lia..].
  - replace (Z.to_nat (Z.min (Z.of_nat (length l)) (Z.of_nat (i * b))))
      with (length l) by lia.
    rewrite !drop_ge by lia. by rewrite !take_nil.
Qed.

(** Batches of [b > 0] elements, enough of them to cover the list, put one
    after the other give the list; so does what a function that distributes
    over [++] makes of them. *)
Lemma batches_cover {A B} (g : list A → list B) (b count : nat)
    (l : list A) :
  (∀ l1 l2, g (l1 ++ l2) = g l1 ++ g l2) →
  0 < b → length l ≤ count * b →
  seq 0 count ≫= (λ i, g (take b (drop (i * b) l))) = g l.
Proof.
  intros Hg Hb. revert l.
  induction count as [|count IH]; intros l Hlen.
  { destruct l; [|cbn in Hlen; lia]. cbn.
    pose proof (Hg [] []) as Hnil. cbn in Hnil.
    destruct (g []); [done|]. apply (f_equal length) in Hnil.
    rewrite length_app in Hnil. cbn in Hnil. lia. }
  cbn [seq]. rewrite bind_cons, <- fmap_S_seq, list_fmap_bind.
  cbn [Nat.mul drop]. rewrite drop_0.
  transitivity (g (take b l ++ drop b l)); [|by rewrite take_drop].
  rewrite Hg. f_equal.
  rewrite <- (IH (drop b l)) by (rewrite length_drop; lia).
  apply list_bind_ext; [|done]. intros i. cbn.
  by rewrite drop_drop.
Qed.

Section facts.
Variable llm : ChatModel.

(** What one document contributes: itself, nothing, or an extract of it
    under its metadata. *)
Lemma compress_doc_cases (query : string) (doc : Document) :
  compress_doc llm query doc = [doc]
  ∨ compress_doc llm query doc = []
  ∨ ∃ extracted,
      compress_doc llm query doc
      = [{| page_content := extracted; metadata := metadata doc |}]
      ∧ extracted ≠ EmptyString ∧ extracted ≠ "NOT_RELEVANT"
      ∧ Str.strip extracted = extracted.
Proof.
  unfold compress_doc.
  destruct (_ <? 200); [by left|].
  destruct (invoke llm _) as [content|]; [|by left].
  destruct (bool_decide (Str.strip content = "NOT_RELEVANT")) eqn:Hnot;
    [by right; left|].
  destruct (bool_decide (Str.strip content = EmptyString)) eqn:Hempty;
    [by right; left|].
  right. right. exists (Str.strip content). cbn.
  apply bool_decide_eq_false in Hnot, Hempty.
  split; [done|]. split; [done|]. split; [done|].
  apply StrFacts.strip_idem.
Qed.

Lemma length_compress (query : string) (documents : list Document) :
  length (compress llm query documents) ≤ length documents.
Proof.
  unfold compress. induction documents as [|d documents IH]; [done|].
  rewrite bind_cons, length_app. cbn [length].
  destruct (compress_doc_cases query d) as [->|[->|(x & -> & _)]]; cbn; lia.
Qed.

(** X14. [compress] invents nothing and reorders nothing: the metadata
    of what it returns are, in order, those of some of the input documents,
    and every document it returns is an input document or an extract that is
    not empty, not [NOT_RELEVANT] and carries no white space around it. *)
Theorem compress_selects (query : string) (documents : list Document) :
  metadata <$> compress llm query documents
    `sublist_of` metadata <$> documents
  ∧ Forall (λ d, d ∈ documents
                 ∨ (page_content d ≠ EmptyString
                    ∧ page_content d ≠ "NOT_RELEVANT"
                    ∧ Str.strip (page_content d) = page_content d))
      (compress llm query documents).
Proof.
  unfold compress. induction documents as [|d documents [IHs IHf]].
  { split; [done|constructor]. }
  rewrite bind_cons, fmap_app, fmap_cons. split.
  - destruct (compress_doc_cases query d) as [->|[->|(x & -> & _)]]; cbn.
    + by apply sublist_skip.
    + by apply sublist_cons.
    + by apply sublist_skip.
  - apply Forall_app. split.
    + destruct (compress_doc_cases query d) as [->|[->|(x & -> & Hx)]].
      * apply Forall_singleton. left. by left.
      * constructor.
      * apply Forall_singleton. by right.
    + eapply Forall_impl; [exact IHf|]. intros x [Hx|Hx]; [|by right].
      left. by right.
Qed.

(** X15. Documents of fewer than 200 characters, and documents for which
    the call of the model fails, pass through [compress] unchanged: when that
    is so for every document, [compress] returns its input. *)
Theorem compress_passes_through (query : string)
    (documents : list Document) :
  Forall (λ d, String.length (page_content d) < 200
               ∨ ∃ e, invoke llm (CompressionPrompt query (page_content d))
                      = Raises e) documents →
  compress llm query documents = documents.
Proof.
  unfold compress. induction 1 as [|d documents Hd _ IH]; [done|].
  rewrite bind_cons, IH. unfold compress_doc.
  destruct (Nat.ltb_spec (String.length (page_content d)) 200); [done|].
  destruct Hd as [?|[e ->]]; [lia|done].
Qed.

(** X16. [compress_batch] with a batch size of at least 1 returns what
    [compress] returns on the whole list, whatever the batch size; with a
    batch size of 0 it raises [ValueError] on a non-empty list; with a
    negative batch size it returns the empty list. *)
Theorem compress_batch_batches (query : string) (documents : list Document)
    (batch_size : Z) :
  ((1 ≤ batch_size)%Z →
   compress_batch llm query documents batch_size
   = Returns (compress llm query documents))
  ∧ (batch_size = 0%Z → documents ≠ [] →
     compress_batch llm query documents batch_size = Raises ValueError)
  ∧ ((batch_size < 0)%Z →
     compress_batch llm query documents batch_size = Returns []).
Proof.
  unfold compress_batch, py_range.
  destruct documents as [|d ds] eqn:Hdocs.
  { split; [done|]. split; [done|done]. }
  rewrite <- Hdocs.
  assert (0 < length documents) as Hlen by (rewrite Hdocs; cbn; lia).
  clear Hdocs d ds. split; [|split].
  - intros Hb. destruct (Z.eqb_spec batch_size 0); [lia|].
    destruct (Z.ltb_spec 0 batch_size); [|lia]. cbn. f_equal.
    set (b := Z.to_nat batch_size).
    set (count := Z.to_nat _).
    rewrite list_fmap_bind.
    rewrite <- (batches_cover (compress llm query) b count documents).
    + apply list_bind_ext; [|done]. intros i. cbn. f_equal.
      rewrite <- slice_batch. f_equal; unfold b; lia.
    + intros l1 l2. unfold compress. apply bind_app.
    + unfold b. lia.
    + unfold count, b.
      pose proof (Z.div_mod (Z.of_nat (length documents) - 0 + batch_size - 1)
                    batch_size ltac:(lia)) as Hdiv.
      pose proof (Z.mod_pos_bound
                    (Z.of_nat (length documents) - 0 + batch_size - 1)
                    batch_size ltac:(lia)) as Hmod.
      nia.
  - intros -> _. done.
  - intros Hb. destruct (Z.eqb_spec batch_size 0); [lia|].
    destruct (Z.ltb_spec 0 batch_size); [lia|]. cbn.
    replace (Z.to_nat _) with 0; [done|].
    pose proof (Z.div_lt_upper_bound
                  (0 - Z.of_nat (length documents) - batch_size - 1)
                  (- batch_size) 1 ltac:(lia) ltac:(lia)).
    lia.
Qed.
End facts.

Lemma compress_passes_through_witness :
  compress dismissive_llm "What was revenue?"
    [Reranker.passage "Revenue rose." None; Reranker.passage "Debt fell." None]
  = [Reranker.passage "Revenue rose." None; Reranker.passage "Debt fell." None].
Proof.
  apply compress_passes_through.
  repeat constructor; left; cbn; lia.
Defined.

(** Two batches of two and one of one: the long document in the middle is
    dismissed by the model, the short ones pass. *)
Example compress_batch_sample :
  let long := Reranker.passage
    (String.string_of_list_ascii (replicate 200 "x"%char)) None in
  let short := Reranker.passage "Revenue rose." None in
  compress_batch dismissive_llm "What was revenue?"
    [short; short; long; short; short] 2
  = Returns [short; short; short; short].
Proof. by vm_compute. Qed.

End CompressorFacts.

(** ** The state monad *)

Lemma run_bind {A B} (m : M A) (f : A → M B) (w : World) :
  run (m ≫= f) w
  = match run m w with
    | (Returns a, w') => run (f a) w'
    | (Raises e, w') => (Raises e, w')
    end.
Proof. done. Qed.

Lemma run_ret {A} (a : A) (w : World) : run (mret a) w = (Returns a, w).
Proof. done. Qed.

Lemma dict_get_set {V} (k : string) (v : V) (d : list (string * V)) :
  Dict.get k (Dict.set k v d) = Some v.
Proof.
  induction d as [|[k' v'] d IH]; cbn.
  - by rewrite String.eqb_refl.
  - destruct (String.eqb k' k) eqn:Hk; cbn; by rewrite Hk.
Qed.

(** ** Retriever *)

Module RetrieverFacts.
Import Cache Retriever.

Section facts.
Context `{Digest}.
Variable settings : Settings.
Variable services : Services.

(** C8.  The claim fails on the code.  The first statement of [retrieve]
    reads [settings.ENABLE_DOCUMENT_CACHE], which [Settings] does not
    declare: every call raises [AttributeError] there, in every state and for
    every vector store.  The cache is not looked up, the vector store is not
    called, nothing is stored and the clock is not read: the state is the one
    before the call. *)
Theorem retrieve_attribute_error (query : string) (ticker : option string)
    (doc_types : option (list string)) (top_k : Z) (w : World) :
  run (retrieve settings services query ticker doc_types top_k) w
  = (Raises AttributeError, w).
Proof. reflexivity. Qed.
End facts.

(** The scenario of the specification.  With five passages cached under the
    key of the request, a call asking for three raises instead of returning
    the first three; on an empty cache the call raises before any search, and
    the cache stays empty. *)
Example retrieve_scenario :
  Dict.get
    (DocumentCache._generate_key (H:=plain_digest) "What was revenue?"
       (Some "ACM") None)
    (cache (document_cache (cache_manager Sample.world_in_use)))
  = Some {| value := fst <$> Sample.five_passages; created_at := 0;
            entry_ttl := 7200; hit_count := 0 |}
  ∧ run (retrieve (H:=plain_digest) Sample.settings Sample.services
           "What was revenue?" (Some "ACM") None 3) Sample.world_in_use
    = (Raises AttributeError, Sample.world_in_use)
  ∧ run (retrieve (H:=plain_digest) Sample.settings Sample.services
           "What was revenue?" (Some "ACM") None 5) Sample.empty_world
    = (Raises AttributeError, Sample.empty_world).
Proof. by vm_compute. Qed.

(** *** The filter expression *)

(** X20. [_build_filter_expression] returns [None] exactly when there is
    neither a ticker (none, or an empty one) nor a document type (none, or an
    empty list).  Otherwise the expression is the condition on the ticker,
    the condition on the document types, or the two joined by [and], where
    the condition on the document types is the parenthesised disjunction of
    one test per document type, all of them, in the order given.  An
    expression that is built is never the empty string, so that the test
    [if filter_expr] lets it through. *)
Theorem filter_expression_given (ticker : option string)
    (doc_types : option (list string)) :
  let filter_expr := _build_filter_expression ticker doc_types in
  let on_ticker t := "ticker == " +:+ Str.quote +:+ t +:+ Str.quote in
  let on_doc_types dts :=
    "("
    +:+ Str.join " or "
          ((λ dt, "doc_type == " +:+ Str.quote +:+ dt +:+ Str.quote) <$> dts)
    +:+ ")" in
  (filter_expr = None
   ↔ truthy ticker = false ∧ (doc_types = None ∨ doc_types = Some []))
  ∧ (∀ t, ticker = Some t → truthy ticker = true →
       doc_types = None ∨ doc_types = Some [] →
       filter_expr = Some (on_ticker t))
  ∧ (∀ dts, truthy ticker = false → doc_types = Some dts → dts ≠ [] →
       filter_expr = Some (on_doc_types dts))
  ∧ (∀ t dts, ticker = Some t → truthy ticker = true →
       doc_types = Some dts → dts ≠ [] →
       filter_expr = Some (on_ticker t +:+ " and " +:+ on_doc_types dts))
  ∧ filter_expr ≠ Some EmptyString.
Proof.
  cbn zeta. unfold _build_filter_expression.
  destruct ticker as [[|a ticker]|], doc_types as [[|dt doc_types]|];
    cbn; repeat split; try done;
    try (intros [? [?|?]]; done); try tauto;
    try (intros; simplify_eq; done);
    try (intros ? ? ? [?|?]; simplify_eq; done).
Qed.

(** The request of the interface: a ticker and two document types. *)
Example filter_expression_sample :
  _build_filter_expression (Some "ACM") (Some ["10k"; "cash_flow"])
  = Some ("ticker == " +:+ Str.quote +:+ "ACM" +:+ Str.quote
          +:+ " and (doc_type == " +:+ Str.quote +:+ "10k" +:+ Str.quote
          +:+ " or doc_type == " +:+ Str.quote +:+ "cash_flow" +:+ Str.quote
          +:+ ")")
  ∧ _build_filter_expression None (Some ["10k"])
    = Some ("(doc_type == " +:+ Str.quote +:+ "10k" +:+ Str.quote +:+ ")").
Proof. split; reflexivity. Qed.

End RetrieverFacts.

(** ** Cached embeddings *)

Module CachedEmbeddingsFacts.
Import Cache CachedEmbeddings.

Section facts.
Context `{Digest}.
Variable services : Services.
Variable super_embed_query : string → M (list float).
Variable super_embed_documents : list string → M (list (list float)).

Local Abbreviation embed_query :=
  (embed_query true services super_embed_query).

(** X17. With the embedding cache enabled: when the cache holds an entry
    for the text that has not expired, [embed_query] returns the cached
    vector and counts a hit, and the model is not called (the result is the
    same for every model, one that is down included); otherwise the model is
    called, and what it returns is returned and stored under the key of the
    text; when the call raises, [embed_query] raises the same exception and
    stores nothing. *)
Theorem embed_query_cache (text : string) (w : World) :
  let key := EmbeddingCache._generate_key text in
  let table := cache (embedding_cache (cache_manager w)) in
  let now := time_time services (clock w) in
  let w1 := (run (embedding_cache_get services text) w).2 in
  (∀ entry,
     Dict.get key table = Some entry → is_expired entry now = false →
     ∃ w',
       run (embed_query text) w = (Returns (value entry), w')
       ∧ hits (embedding_cache (cache_manager w'))
         = (hits (embedding_cache (cache_manager w)) + 1)%Z)
  ∧ ((∀ entry, Dict.get key table = Some entry → is_expired entry now = true) →
     (∀ embedding w2,
        run (super_embed_query text) w1 = (Returns embedding, w2) →
        ∃ w' entry',
          run (embed_query text) w = (Returns embedding, w')
          ∧ Dict.get key (cache (embedding_cache (cache_manager w')))
            = Some entry'
          ∧ value entry' = embedding)
     ∧ (∀ e w2,
          run (super_embed_query text) w1 = (Raises e, w2) →
          run (embed_query text) w = (Raises e, w2))).
Proof.
  cbn zeta. split.
  - intros entry Hget Hfresh. eexists.
    unfold CachedEmbeddings.embed_query, embedding_cache_get,
      EmbeddingCache.get, get_key.
    rewrite !run_bind. cbn [run]. rewrite Hget.
    cbn [run read_clock cache_manager]. rewrite Hget, Hfresh. cbn [negb].
    rewrite run_ret. split; [done|]. done.
  - intros Hmiss.
    assert (∃ w1,
              run (embedding_cache_get services text) w = (Returns None, w1))
      as [w1 Hw1].
    { unfold embedding_cache_get, EmbeddingCache.get, get_key.
      rewrite !run_bind. cbn [run].
      destruct (Dict.get _ _) as [entry|] eqn:Hget.
      - cbn [run read_clock cache_manager]. rewrite Hget.
        rewrite (Hmiss entry eq_refl). cbn [negb]. by eexists.
      - cbn [cache_manager]. rewrite Hget. by eexists. }
    rewrite Hw1. cbn [snd]. split.
    + intros embedding w2 Hsuper.
      unfold CachedEmbeddings.embed_query. rewrite run_bind, Hw1.
      rewrite run_bind, Hsuper.
      unfold embedding_cache_set, EmbeddingCache.set, set_key.
      rewrite !run_bind. cbn [run read_clock mret M_ret].
      do 2 eexists. split; [done|]. cbn.
      split; [apply dict_get_set|done].
    + intros e w2 Hsuper.
      unfold CachedEmbeddings.embed_query. rewrite run_bind, Hw1.
      by rewrite run_bind, Hsuper.
Qed.
End facts.

(** *** The placeholders of [embed_documents] *)

Section documents.
Context `{Digest}.
Variable flag : bool.
Variable services : Services.
Variable super_embed_query : string → M (list float).
Variable super_embed_documents : list string → M (list (list float)).

(** The table of the embedding cache at the start, and the vectors it
    holds for a text. *)
Variable table0 : list (string * CacheEntry (list float)).

Local Abbreviation cached := (λ (v : list float) (text : string),
  flag = true
  ∧ ∃ entry, (EmbeddingCache._generate_key text, entry) ∈ table0
             ∧ value entry = v).

(** No vector has entered the embedding cache since the start. *)
Local Abbreviation unchanged_values := (λ w : World,
  ∀ k e', (k, e') ∈ cache (embedding_cache (cache_manager w)) →
          ∃ e, (k, e) ∈ table0 ∧ value e = value e').

Lemma dict_get_elem {V} (k : string) (v : V) (d : list (string * V)) :
  Dict.get k d = Some v → (k, v) ∈ d.
Proof.
  induction d as [|[k' v'] d IH]; cbn; [done|].
  destruct (String.eqb_spec k' k) as [->|Hne].
  - intros [= ->]. by left.
  - intros Hget. right. by apply IH.
Qed.

Lemma dict_set_elem {V} (k k' : string) (v v' : V) (d : list (string * V)) :
  (k', v') ∈ Dict.set k v d → (k', v') ∈ d ∨ (k', v') = (k, v).
Proof.
  induction d as [|[k0 v0] d IH]; cbn.
  - intros ->%list_elem_of_singleton. by right.
  - destruct (String.eqb_spec k0 k) as [->|Hne].
    + intros [->|Hin]%elem_of_cons; [by right|]. left. by right.
    + intros [->|Hin]%elem_of_cons; [left; by left|].
      destruct (IH Hin) as [?|?]; [|by right]. left. by right.
Qed.

Lemma dict_del_elem {V} (k k' : string) (v' : V) (d : list (string * V)) :
  (k', v') ∈ Dict.del k d → (k', v') ∈ d.
Proof.
  induction d as [|[k0 v0] d IH]; cbn; [done|].
  destruct (String.eqb_spec k0 k) as [->|Hne].
  - intros Hin. by right.
  - intros [->|Hin]%elem_of_cons; [by left|]. right. by apply IH.
Qed.

(** A lookup returns a vector the cache held at the start, or nothing, and
    puts no vector into the cache. *)
Lemma cache_lookup_spec (text : string) (w : World) :
  unchanged_values w →
  ∃ r w',
    run (if flag then embedding_cache_get services text else mret None) w
    = (Returns r, w')
    ∧ unchanged_values w'
    ∧ ∀ v, r = Some v → cached v text.
Proof.
  intros Hw. destruct flag; [|by exists None, w].
  unfold embedding_cache_get, EmbeddingCache.get, get_key.
  rewrite !run_bind. cbn [run].
  destruct (Dict.get _ _) as [entry|] eqn:Hget.
  - cbn [run read_clock cache_manager]. rewrite Hget.
    destruct (negb _); do 2 eexists; (split; [done|]); cbn.
    + split.
      * intros k e' [Hin|[= -> ->]]%dict_set_elem; [by apply Hw|].
        apply dict_get_elem, Hw in Hget as (e & He & Hv).
        by exists e.
      * intros v [= <-]. split; [done|].
        by apply dict_get_elem, Hw in Hget.
    + split; [|done]. intros k e' Hin%dict_del_elem. by apply Hw.
  - cbn [cache_manager]. rewrite Hget. do 2 eexists. split; [done|].
    cbn. by split.
Qed.

(** What the first loop has established after the texts [done]. *)
Local Abbreviation checked := (λ (done : list string)
    (embeddings : list (option (list float)))
    (uncached_texts : list string) (uncached_indices : list nat),
  length embeddings = length done
  ∧ NoDup uncached_indices
  ∧ Forall2 (λ idx text, done !! idx = Some text
                         ∧ embeddings !! idx = Some None)
      uncached_indices uncached_texts
  ∧ (∀ j, embeddings !! j = Some None → j ∈ uncached_indices)
  ∧ (∀ j v, embeddings !! j = Some (Some v) →
            ∃ text, done !! j = Some text ∧ cached v text)).

Lemma check_cache_spec (texts done : list string)
    (embeddings : list (option (list float)))
    (uncached_texts : list string) (uncached_indices : list nat)
    (w : World) :
  checked done embeddings uncached_texts uncached_indices →
  unchanged_values w →
  ∃ embeddings' uncached_texts' uncached_indices' w',
    run (check_cache flag services (length done) texts embeddings
           uncached_texts uncached_indices) w
    = (Returns (embeddings', uncached_texts', uncached_indices'), w')
    ∧ checked (done ++ texts) embeddings' uncached_texts' uncached_indices'.
Proof.
  revert done embeddings uncached_texts uncached_indices w.
  induction texts as [|text texts IH];
    intros done embeddings uncached_texts uncached_indices w Hinv Hw.
  { do 4 eexists. split; [done|]. by rewrite app_nil_r. }
  cbn [check_cache]. rewrite run_bind.
  destruct (cache_lookup_spec text w Hw) as (r & w1 & -> & Hw1 & Hr).
  destruct Hinv as (Hlen & Hnd & Hun & Hnone & Hsome).
  assert (∀ idx t, done !! idx = Some t → (done ++ [text]) !! idx = Some t)
    as Hdone by (intros; by apply lookup_app_l_Some).
  assert (∀ idx (x : option (list float)) r',
            embeddings !! idx = Some x → (embeddings ++ [r']) !! idx = Some x)
    as Hemb by (intros; by apply lookup_app_l_Some).
  replace (S (length done)) with (length (done ++ [text]))
    by (rewrite length_app; cbn; lia).
  replace (done ++ text :: texts) with ((done ++ [text]) ++ texts)
    by (by rewrite <- app_assoc).
  destruct r as [v|]; apply IH; try done.
  - split; [by rewrite !length_app, Hlen|]. split; [done|]. split.
    { eapply Forall2_impl; [exact Hun|]. intros idx t [? ?]. auto. }
    split.
    + intros j Hj. apply lookup_app_Some in Hj as [Hj|[_ Hj]]; [auto|].
      by apply list_lookup_singleton_Some in Hj as [_ ?].
    + intros j v' Hj. apply lookup_app_Some in Hj as [Hj|[Hge Hj]].
      * destruct (Hsome j v' Hj) as (t & Ht & Hc). exists t. auto.
      * apply list_lookup_singleton_Some in Hj as [Hj0 [= <-]].
        exists text. split; [|by apply Hr].
        apply lookup_app_Some. right. rewrite <- Hlen.
        split; [done|]. by replace (j - length embeddings) with 0 by lia.
  - assert (length done ∉ uncached_indices) as Hfresh.
    { intros Hin. apply list_elem_of_lookup in Hin as [p Hp].
      destruct (Forall2_lookup_l _ _ _ _ _ Hun Hp) as (t & _ & Ht & _).
      apply lookup_lt_Some in Ht. lia. }
    split; [by rewrite !length_app, Hlen|]. split.
    { apply NoDup_app. split; [done|]. split; [|apply NoDup_singleton].
      by intros x Hx ->%list_elem_of_singleton. }
    split.
    { apply Forall2_app.
      - eapply Forall2_impl; [exact Hun|]. intros idx t [? ?]. auto.
      - constructor; [|constructor]. split.
        + apply lookup_app_Some. right. split; [done|].
          by rewrite Nat.sub_diag.
        + apply lookup_app_Some. right. rewrite Hlen. split; [done|].
          by rewrite Nat.sub_diag. }
    split.
    + intros j Hj. apply elem_of_app.
      apply lookup_app_Some in Hj as [Hj|[Hge Hj]]; [left; auto|].
      right. apply list_lookup_singleton_Some in Hj as [Hj0 _].
      apply list_elem_of_singleton. lia.
    + intros j v' Hj. apply lookup_app_Some in Hj as [Hj|[Hge Hj]].
      * destruct (Hsome j v' Hj) as (t & Ht & Hc). exists t. auto.
      * by apply list_lookup_singleton_Some in Hj as [_ ?].
Qed.

Lemma fill_placeholders_spec (texts : list string)
    (pairs : list (nat * list float))
    (embeddings : list (option (list float))) (w : World) :
  Forall (λ p, p.1 < length embeddings ∧ p.1 < length texts) pairs →
  ∃ w',
    run (fill_placeholders flag services texts pairs embeddings) w
    = (Returns (foldl (λ l p, <[p.1 := Some p.2]> l) embeddings pairs), w').
Proof.
  revert embeddings w.
  induction pairs as [|[idx embedding] pairs IH]; intros embeddings w Hpairs.
  { by eexists. }
  apply Forall_cons in Hpairs as [[Hidx Htext] Hpairs]. cbn in Hidx, Htext.
  cbn [fill_placeholders foldl fst snd]. unfold list_assign.
  rewrite decide_True by done. rewrite run_bind. cbn [run lift_result].
  assert (∃ w1, run (if flag
                     then text ← lift_result (index texts idx);
                          embedding_cache_set services text embedding
                     else mret ()) w = (Returns (), w1)) as [w1 Hw1].
  { destruct flag; [|by eexists].
    destruct (lookup_lt_is_Some_2 texts idx Htext) as [text Hlookup].
    rewrite run_bind. cbn [run lift_result]. unfold index. rewrite Hlookup.
    unfold embedding_cache_set. rewrite run_bind. cbn. by eexists. }
  rewrite run_bind, Hw1. apply IH.
  eapply Forall_impl; [exact Hpairs|]. intros p. by rewrite length_insert.
Qed.

Lemma foldl_insert_lookup (pairs : list (nat * list float))
    (embeddings : list (option (list float))) (j : nat) :
  NoDup pairs.*1 →
  let filled := foldl (λ l p, <[p.1 := Some p.2]> l) embeddings pairs in
  (∀ v, (j, v) ∈ pairs → j < length embeddings →
        filled !! j = Some (Some v))
  ∧ (j ∉ pairs.*1 → filled !! j = embeddings !! j).
Proof.
  cbn zeta. revert embeddings.
  induction pairs as [|[i0 v0] pairs IH]; intros embeddings Hnd.
  { split; [by intros v ?%elem_of_nil|done]. }
  cbn [fmap list_fmap fst] in Hnd. apply NoDup_cons in Hnd as [Hi0 Hnd].
  cbn [foldl fst snd].
  destruct (IH (<[i0:=Some v0]> embeddings) Hnd) as [IHin IHout]. split.
  - intros v [[= -> ->]|Hin]%elem_of_cons Hj.
    + rewrite IHout by done. by apply list_lookup_insert_eq.
    + apply IHin; [done|]. by rewrite length_insert.
  - intros Hout. cbn [fmap list_fmap fst] in Hout.
    apply not_elem_of_cons in Hout as [Hne Hout].
    rewrite IHout by done. by apply list_lookup_insert_ne.
Qed.
End documents.

Section aligned.
Context `{Digest}.
Variable flag : bool.
Variable services : Services.
Variable super_embed_documents : list string → M (list (list float)).

(** X18. When the model returns one vector per text it is given, the
    vector [f text] for [text], [embed_documents] returns one vector per
    text and no placeholder: at the position of each text stands the vector
    of the model for that text or, with the cache enabled, a vector the
    cache held for that text when the call began.  The cached and the new
    vectors do not get mixed up, whatever the cache holds. *)
Theorem embed_documents_aligned (f : string → list float)
    (texts : list string) (w : World) :
  (∀ ts w, ∃ w',
     run (super_embed_documents ts) w = (Returns (f <$> ts), w')) →
  ∃ out w',
    run (embed_documents flag services super_embed_documents texts) w
    = (Returns out, w')
    ∧ length out = length texts
    ∧ ∀ j text, texts !! j = Some text →
        ∃ v, out !! j = Some (Some v)
             ∧ (v = f text
                ∨ flag = true
                  ∧ ∃ entry,
                      (EmbeddingCache._generate_key text, entry)
                      ∈ cache (embedding_cache (cache_manager w))
                      ∧ value entry = v).
Proof.
  intros Hsuper. unfold embed_documents. rewrite run_bind.
  destruct (check_cache_spec flag services
              (cache (embedding_cache (cache_manager w))) texts [] [] [] [] w)
    as (embeddings & uncached_texts & uncached_indices & w1 & Hrun & Hinv).
  { split; [done|]. split; [constructor|]. split; [constructor|].
    split; [done|]. by intros j v ?. }
  { intros k e' Hin. by exists e'. }
  cbn [length] in Hrun. rewrite Hrun. rewrite app_nil_l in Hinv.
  destruct Hinv as (Hlen & Hnd & Hun & Hnone & Hsome).
  pose proof (Forall2_length _ _ _ Hun) as Hlens.
  assert (∀ j text v, texts !! j = Some text →
            embeddings !! j = Some (Some v) →
            flag = true
            ∧ ∃ entry, (EmbeddingCache._generate_key text, entry)
                       ∈ cache (embedding_cache (cache_manager w))
                       ∧ value entry = v) as Hcached.
  { intros j text v Hj Hv. destruct (Hsome j v Hv) as (t & Ht & Hc).
    by simplify_eq. }
  destruct uncached_texts as [|t ts] eqn:Hts.
  { destruct uncached_indices; [|done].
    exists embeddings, w1. split; [done|]. split; [done|].
    intros j text Hj.
    destruct (lookup_lt_is_Some_2 embeddings j) as [[v|] Hv].
    { rewrite Hlen. by eapply lookup_lt_Some. }
    - exists v. split; [done|]. right. by eapply Hcached.
    - by apply Hnone, elem_of_nil in Hv. }
  rewrite <- Hts in *. clear Hts t ts.
  destruct (Hsuper uncached_texts w1) as [w2 Hw2].
  rewrite run_bind, Hw2.
  set (pairs := zip uncached_indices (f <$> uncached_texts)).
  assert (pairs.*1 = uncached_indices) as Hfst
    by (apply fst_zip; rewrite length_fmap; lia).
  destruct (fill_placeholders_spec flag services texts pairs embeddings w2)
    as [w3 Hw3].
  { apply Forall_forall. intros [idx v] Hin.
    assert (idx ∈ uncached_indices) as Hidx.
    { rewrite <- Hfst. apply list_elem_of_fmap. by exists (idx, v). }
    apply list_elem_of_lookup in Hidx as [p Hp].
    destruct (Forall2_lookup_l _ _ _ _ _ Hun Hp) as (t & _ & Ht & _).
    apply lookup_lt_Some in Ht. cbn. lia. }
  rewrite Hw3. do 2 eexists. split; [done|].
  split.
  { rewrite <- Hlen. generalize pairs embeddings. clear.
    induction pairs as [|p pairs IH]; intros embeddings; [done|].
    cbn [foldl]. rewrite IH. apply length_insert. }
  intros j text Hj.
  destruct (foldl_insert_lookup pairs embeddings j) as [Hin Hout];
    [by rewrite Hfst|].
  destruct (lookup_lt_is_Some_2 embeddings j) as [[v|] Hv].
  { rewrite Hlen. by eapply lookup_lt_Some. }
  - exists v. split; [|right; by eapply Hcached].
    rewrite Hout; [done|]. rewrite Hfst. intros Hidx.
    apply list_elem_of_lookup in Hidx as [p Hp].
    destruct (Forall2_lookup_l _ _ _ _ _ Hun Hp) as (t & _ & _ & Hnone').
    congruence.
  - exists (f text). split; [|by left].
    apply Hin; [|rewrite Hlen; by eapply lookup_lt_Some].
    apply Hnone, list_elem_of_lookup in Hv as [p Hp].
    destruct (Forall2_lookup_l _ _ _ _ _ Hun Hp) as (t & Ht & Htext & _).
    assert (t = text) as -> by congruence.
    apply list_elem_of_lookup. exists p. unfold pairs.
    rewrite lookup_zip_with, Hp. cbn. by rewrite list_lookup_fmap, Ht.
Qed.
End aligned.

Lemma embed_documents_aligned_witness :
  ∃ out w',
    run (embed_documents (H:=plain_digest) true Sample.services
           (λ ts, mret ((λ _, [1%float]) <$> ts)) ["revenue"; "debt"])
      Sample.empty_world
    = (Returns out, w')
    ∧ length out = length ["revenue"; "debt"]
    ∧ ∀ j text, ["revenue"; "debt"] !! j = Some text →
        ∃ v, out !! j = Some (Some v)
             ∧ (v = [1%float]
                ∨ true = true
                  ∧ ∃ entry,
                      (EmbeddingCache._generate_key (H:=plain_digest) text,
                       entry)
                      ∈ cache (embedding_cache
                                 (cache_manager Sample.empty_world))
                      ∧ value entry = v).
Proof.
  apply (embed_documents_aligned (H:=plain_digest) true Sample.services
           (λ ts, mret ((λ _, [1%float]) <$> ts)) (λ _, [1%float])).
  intros ts w. by eexists.
Defined.

(** A first call embeds both texts and stores them; in a second call the
    model is down, and the vectors come from the cache. *)
Example embed_documents_twice :
  let w1 :=
    (run (embed_documents (H:=plain_digest) true Sample.services
            (λ ts, mret ((λ _, [1%float]) <$> ts)) ["revenue"; "debt"])
       Sample.empty_world).2 in
  (run (embed_documents (H:=plain_digest) true Sample.services
          (λ _, lift_result (Raises ExternalError)) ["debt"; "revenue"])
     w1).1
  = Returns [Some [1%float]; Some [1%float]].
Proof. reflexivity. Qed.

End CachedEmbeddingsFacts.

(** ** The chain *)

Module ChainFacts.
Import Cache Chain.





(** *** Duplicates *)

Lemma deduplicate_fold (documents : list Document) (seen : gset string)
    (unique_docs : list Document) :
  let r :=
    foldl (λ (acc : gset string * list Document) doc,
      let '(seen, unique_docs) := acc in
      if bool_decide (dedup_key doc ∈ seen) then acc
      else ({[dedup_key doc]} ∪ seen, unique_docs ++ [doc]))
      (seen, unique_docs) documents in
  ∃ added,
    r.2 = unique_docs ++ added
    ∧ added `sublist_of` documents
    ∧ NoDup (dedup_key <$> added)
    ∧ (∀ k, k ∈ dedup_key <$> added
            ↔ k ∈ dedup_key <$> documents ∧ k ∉ seen)
    ∧ (∀ j d, documents !! j = Some d → dedup_key d ∉ seen →
         (∀ i' d', i' < j → documents !! i' = Some d' →
                   dedup_key d' ≠ dedup_key d) →
         d ∈ added)
    ∧ (NoDup (dedup_key <$> documents) →
       (∀ d, d ∈ documents → dedup_key d ∉ seen) → added = documents).
Proof.
  cbn zeta. revert seen unique_docs.
  induction documents as [|d documents IH]; intros seen unique_docs.
  { exists []. rewrite app_nil_r. cbn.
    split; [done|]. split; [done|]. split; [constructor|].
    split; [intros k; rewrite elem_of_nil; tauto|]. by split. }
  cbn [foldl]. case_bool_decide as Hseen.
  - destruct (IH seen unique_docs)
      as (added & Hr & Hsub & Hnd & Hkeys & Hfirst & Hid).
    exists added. split; [done|]. split; [by apply sublist_cons|].
    split; [done|]. split; [|split].
    + intros k. rewrite Hkeys, fmap_cons, elem_of_cons.
      split; [tauto|]. intros [[->|?] ?]; done.
    + intros [|j] d0 Hj Hout Hbefore; cbn in Hj; [by simplify_eq|].
      apply (Hfirst j); [done..|]. intros i' d' Hlt.
      apply (Hbefore (S i')). lia.
    + intros _ Hall. exfalso. apply (Hall d); [by left|done].
  - destruct (IH ({[dedup_key d]} ∪ seen) (unique_docs ++ [d]))
      as (added & Hr & Hsub & Hnd & Hkeys & Hfirst & Hid).
    exists (d :: added). split; [by rewrite Hr, <- app_assoc|].
    split; [by apply sublist_skip|]. split; [|split; [|split]].
    + rewrite fmap_cons. apply NoDup_cons. split; [|done].
      rewrite Hkeys, elem_of_union, elem_of_singleton. tauto.
    + intros k. rewrite !fmap_cons, !elem_of_cons, Hkeys, elem_of_union,
        elem_of_singleton.
      destruct (decide (k = dedup_key d)) as [->|Hne]; tauto.
    + intros [|j] d0 Hj Hout Hbefore; cbn in Hj; [simplify_eq; by left|].
      right. apply (Hfirst j); [done| |].
      * rewrite elem_of_union, elem_of_singleton.
        intros [Heq|?]; [|done]. by apply (Hbefore 0 d); [lia| |].
      * intros i' d' Hlt. apply (Hbefore (S i')). lia.
    + rewrite fmap_cons. intros [Hd Hnd']%NoDup_cons Hall. f_equal.
      apply Hid; [done|]. intros d0 Hd0.
      rewrite elem_of_union, elem_of_singleton. intros [Heq|Hin].
      * apply Hd. rewrite <- Heq. apply list_elem_of_fmap. by exists d0.
      * apply (Hall d0); [by right|done].
Qed.

(** X21. [_deduplicate_documents] keeps, of the documents that agree on
    file name, chunk id and the first 100 characters, the first one: what it
    returns is a sub-sequence of its input in which no two documents have the
    same key; every document that is the first of its key is kept; every key
    of the input is still there; an input without duplicates is returned as
    it is, and so is the result when it is deduplicated again. *)
Theorem deduplicate_documents_keeps_first (documents : list Document) :
  let unique_docs := _deduplicate_documents documents in
  unique_docs `sublist_of` documents
  ∧ NoDup (dedup_key <$> unique_docs)
  ∧ (∀ j d, documents !! j = Some d →
       (∀ i' d', i' < j → documents !! i' = Some d' →
                 dedup_key d' ≠ dedup_key d) →
       d ∈ unique_docs)
  ∧ (∀ d, d ∈ documents → dedup_key d ∈ dedup_key <$> unique_docs)
  ∧ (NoDup (dedup_key <$> documents) → unique_docs = documents)
  ∧ _deduplicate_documents unique_docs = unique_docs.
Proof.
  cbn zeta.
  assert (∀ documents,
    ∃ added, _deduplicate_documents documents = added
      ∧ added `sublist_of` documents
      ∧ NoDup (dedup_key <$> added)
      ∧ (∀ k, k ∈ dedup_key <$> added
              ↔ k ∈ dedup_key <$> documents ∧ k ∉ (∅ : gset string))
      ∧ (∀ j d, documents !! j = Some d → dedup_key d ∉ (∅ : gset string) →
           (∀ i' d', i' < j → documents !! i' = Some d' →
                     dedup_key d' ≠ dedup_key d) →
           d ∈ added)
      ∧ (NoDup (dedup_key <$> documents) →
         (∀ d, d ∈ documents → dedup_key d ∉ (∅ : gset string)) →
         added = documents)) as Hspec.
  { intros docs. apply (deduplicate_fold docs ∅ []). }
  destruct (Hspec documents)
    as (added & -> & Hsub & Hnd & Hkeys & Hfirst & Hid).
  split; [done|]. split; [done|]. split; [|split; [|split]].
  - intros j d Hj. apply Hfirst; [done|]. apply not_elem_of_empty.
  - intros d Hd. apply Hkeys. split; [|apply not_elem_of_empty].
    apply list_elem_of_fmap. by exists d.
  - intros Hnd'. apply Hid; [done|]. intros d _. apply not_elem_of_empty.
  - destruct (Hspec added) as (added' & -> & _ & _ & _ & _ & Hid').
    apply Hid'; [done|]. intros d _. apply not_elem_of_empty.
Qed.

Section facts.
Context `{Digest}.
Variable settings : Settings.
Variable services : Services.







End facts.


(** The sample requests on the process in use: both raise, the one with a
    session id and the one without, and the cached response is not served. *)
Example process_query_samples :
  (run (process_query (H:=plain_digest) Sample.settings Sample.services
          Sample.request_in_session) Sample.world_in_use).1
  = Raises AttributeError
  ∧ (run (process_query (H:=plain_digest) Sample.settings Sample.services
            Sample.request_without_session) Sample.world_in_use).1
    = Raises AttributeError.
Proof. split; reflexivity. Qed.

End ChainFacts.
